(** * Tetris (tetris_web/script.js): a shallow embedding and its properties

    The script keeps its whole game in global variables ([board], [score],
    [currentPiece], [currentX], [currentY]) and in JavaScript arrays that
    are shared by reference: the rows of the board are arrays held by the
    outer board array, and the shape of the current piece is (or wraps) an
    array of the constant catalog [PIECES].  The embedding therefore has

    - JavaScript values [jsval], with references [JRef] into a store of
      arrays ([gmap loc (list jsval)]) and a bump allocator;
    - a reader monad [R] for [isValidMove], which only reads: it returns
      the board lookups it performed and either a boolean or an exception;
    - a state monad [M] for everything that mutates the globals or the store;
      the state reached before an exception is kept, as in JavaScript;
    - the two draws of [newPiece] from [Math.random] as arguments of the
      handlers that may place a piece.

    [alert] and the writes to [scoreElement.textContent] are kept as events
    of the state.  The canvas is written and never read: the drawing
    functions ([drawBlock], [drawBoard], [drawPiece], [draw]) return the
    list of the calls they make on [context], and [gameLoop] the delay of
    the timer it sets.

    The file has four parts: the embedding (the script, the views of the
    store by value, the game by value, the invariants, the games used as
    examples), the lemmas (each step of the script under the invariants, and
    that the running game keeps them), the claims C1-C10, and further
    properties X1-X18 (the script against the game by value, the piece, the
    score, clearLines as a sweep, drawing and the loop). *)

From stdpp Require Import gmap strings list.
From Stdlib Require Import ZArith Lia HexadecimalString HexadecimalN HexadecimalPos.

Local Open Scope Z_scope.

(** * The embedding *)

(** ** JavaScript values and arrays *)

Abbreviation loc := nat.

Inductive jsval :=
| JUndef
| JNum (n : Z)
| JStr (s : string)
| JRef (l : loc).

#[global] Instance jsval_eq_dec : EqDecision jsval.
Proof. solve_decision. Defined.

(** [TypeError] is the exception of [undefined[i]], [undefined.every] and
    the like.  [Unmodelled] marks paths the model does not follow (a
    dangling reference, arithmetic on [NaN]); no claim rests on them. *)
Inductive error := TypeError | Unmodelled.

Inductive result (A : Type) :=
| Ok (a : A)
| Throw (e : error).
Arguments Ok {A} a.
Arguments Throw {A} e.

#[global] Instance result_ret : MRet result := λ A a, Ok a.
#[global] Instance result_bind : MBind result := λ A B f r,
  match r with Ok a => f a | Throw e => Throw e end.

(** const ROWS = 20; const COLS = 10; const EMPTY = 0; *)
Definition ROWS : Z := 20.
Definition COLS : Z := 10.
Definition EMPTY : jsval := JNum 0.

(** Truthiness, as used by [!value] and [if (value)]. *)
Definition truthy (v : jsval) : bool :=
  match v with
  | JUndef => false
  | JNum n => negb (n =? 0)
  | JStr s => negb (String.eqb s "")
  | JRef _ => true
  end.

(** [a === b] on the values of the model. *)
Definition strict_eq (a b : jsval) : bool := bool_decide (a = b).

(** [a[i]] on the elements of an array: [undefined] out of range. *)
Definition aget (a : list jsval) (i : Z) : jsval :=
  if decide (0 ≤ i) then default JUndef (a !! Z.to_nat i) else JUndef.

(** [a[i] = v] on the elements of an array.  Past the end JavaScript
    extends the array (the gap reads as [undefined]); a negative index
    names a property that is not an element, so the elements stay. *)
Definition aset (a : list jsval) (i : Z) (v : jsval) : list jsval :=
  if decide (i < 0) then a
  else if decide (i < Z.of_nat (length a)) then <[Z.to_nat i := v]> a
  else a ++ replicate (Z.to_nat i - length a)%nat JUndef ++ [v].

(** [a.splice(i, 1)]: the element at [i] is removed; a negative [i] counts
    from the end, and nothing is removed at or past the end. *)
Definition asplice1 (a : list jsval) (i : Z) : list jsval :=
  let len := Z.of_nat (length a) in
  let start := if decide (i < 0) then Z.max (len + i) 0 else Z.min i len in
  take (Z.to_nat start) a ++ drop (S (Z.to_nat start)) a.

(** ** The store and the global variables *)

Inductive event :=
| Alert (msg : string)       (* alert(msg) *)
| ScoreText (n : Z).         (* scoreElement.textContent = n *)

(** currentPiece = { shape: ..., color: ... } *)
Record piece := Piece { shape : jsval; color : string }.

Record state := State {
  store : gmap loc (list jsval);   (* the arrays, by reference *)
  next : loc;                      (* the next fresh reference *)
  board : loc;                     (* let board = [] *)
  score : Z;                       (* let score = 0 *)
  currentPiece : piece;            (* let currentPiece *)
  currentX : Z;                    (* let currentX, currentY *)
  currentY : Z;
  events : list event              (* alerts and score texts, oldest first *)
}.

Definition set_store (f : gmap loc (list jsval) → gmap loc (list jsval)) (s : state) : state :=
  State (f (store s)) (next s) (board s) (score s) (currentPiece s)
        (currentX s) (currentY s) (events s).
Definition set_board (b : loc) (s : state) : state :=
  State (store s) (next s) b (score s) (currentPiece s)
        (currentX s) (currentY s) (events s).
Definition set_score (n : Z) (s : state) : state :=
  State (store s) (next s) (board s) n (currentPiece s)
        (currentX s) (currentY s) (events s).
Definition set_currentPiece (p : piece) (s : state) : state :=
  State (store s) (next s) (board s) (score s) p
        (currentX s) (currentY s) (events s).
Definition set_currentX (x : Z) (s : state) : state :=
  State (store s) (next s) (board s) (score s) (currentPiece s)
        x (currentY s) (events s).
Definition set_currentY (y : Z) (s : state) : state :=
  State (store s) (next s) (board s) (score s) (currentPiece s)
        (currentX s) y (events s).
Definition emit (e : event) (s : state) : state :=
  State (store s) (next s) (board s) (score s) (currentPiece s)
        (currentX s) (currentY s) (events s ++ [e]).

(** *** Reading through references *)

(** The array a value refers to, for a method call such as [v.every] or
    [v.map]: a [TypeError] on anything that is not an array. *)
Definition asArray (st : gmap loc (list jsval)) (v : jsval) : result (list jsval) :=
  match v with
  | JRef l => match st !! l with Some a => Ok a | None => Throw Unmodelled end
  | _ => Throw TypeError
  end.

(** [v[i]]: a [TypeError] on [undefined], [undefined] on a number, a
    one-character string on a string. *)
Definition getIndex (st : gmap loc (list jsval)) (v : jsval) (i : Z) : result jsval :=
  match v with
  | JUndef => Throw TypeError
  | JNum _ => Ok JUndef
  | JStr s =>
      Ok (if decide (0 ≤ i)
          then match String.get (Z.to_nat i) s with
               | Some c => JStr (String c EmptyString)
               | None => JUndef
               end
          else JUndef)
  | JRef l => match st !! l with Some a => Ok (aget a i) | None => Throw Unmodelled end
  end.

(** [v.length] where the script uses it (on an array). *)
Definition getLength (st : gmap loc (list jsval)) (v : jsval) : result Z :=
  match v with
  | JUndef => Throw TypeError
  | JNum _ => Throw Unmodelled
  | JStr s => Ok (Z.of_nat (String.length s))
  | JRef l => match st !! l with
              | Some a => Ok (Z.of_nat (length a))
              | None => Throw Unmodelled
              end
  end.

(** ** The reader monad of [isValidMove] *)

(** A board lookup [board[newY][newX]], as (row, column). *)
Definition lookup_log := list (Z * Z).
Definition R (A : Type) : Type := lookup_log * result A.

#[global] Instance R_ret : MRet R := λ A a, ([], Ok a).
#[global] Instance R_bind : MBind R := λ A B f r,
  match r with
  | (w, Ok a) => let '(w', r') := f a in (w ++ w', r')
  | (w, Throw e) => (w, Throw e)
  end.

Definition liftR {A} (r : result A) : R A := ([], r).
Definition tellR (row col : Z) : R unit := ([(row, col)], Ok tt).

(** [a.every((v, i) => f v i)] over the elements of [a], from index [i]:
    stops at the first [false].  Here and in [forEachM] and [mapM_idx] the
    elements are those the array has when the method is called: no callback
    of the script writes to the array it runs over. *)
Fixpoint everyR {A} (f : A → Z → R bool) (i : Z) (a : list A) : R bool :=
  match a with
  | [] => mret true
  | v :: a' => b ← f v i; if (b : bool) then everyR f (i + 1) a' else mret false
  end.

(** ** The state monad of the engine *)

Definition M (A : Type) : Type := state → state * result A.

#[global] Instance M_ret : MRet M := λ A a s, (s, Ok a).
#[global] Instance M_bind : MBind M := λ A B f m s,
  match m s with
  | (s', Ok a) => f a s'
  | (s', Throw e) => (s', Throw e)
  end.

Definition getM : M state := λ s, (s, Ok s).
Definition modifyM (f : state → state) : M unit := λ s, (f s, Ok tt).
Definition liftM {A} (f : state → result A) : M A := λ s, (s, f s).

(** A fresh array: [[]], an array literal, [new Array(n)], the result of
    [map]. *)
Definition alloc (a : list jsval) : M loc := λ s,
  (State (<[next s := a]> (store s)) (S (next s)) (board s) (score s)
         (currentPiece s) (currentX s) (currentY s) (events s),
   Ok (next s)).

(** [v[i] = x]: a [TypeError] on [undefined]; on a number or a string the
    assignment is dropped (the script is not in strict mode). *)
Definition setIndex (v : jsval) (i : Z) (x : jsval) : M unit := λ s,
  match v with
  | JUndef => (s, Throw TypeError)
  | JNum _ | JStr _ => (s, Ok tt)
  | JRef l => match store s !! l with
              | Some a => (set_store <[l := aset a i x]> s, Ok tt)
              | None => (s, Throw Unmodelled)
              end
  end.

(** [a.forEach((v, i) => f v i)] over the elements of [a], from index [i]. *)
Fixpoint forEachM {A} (f : A → Z → M unit) (i : Z) (a : list A) : M unit :=
  match a with
  | [] => mret tt
  | v :: a' => _ ← f v i; forEachM f (i + 1) a'
  end.

(** [a.map((v, i) => f v i)]: the results, in order. *)
Fixpoint mapM_idx (f : jsval → Z → M jsval) (i : Z) (a : list jsval) : M (list jsval) :=
  match a with
  | [] => mret []
  | v :: a' => w ← f v i; ws ← mapM_idx f (i + 1) a'; mret (w :: ws)
  end.

(** The same on values, for callbacks without effects. *)
Fixpoint map_idx {A B} (f : A → Z → B) (i : Z) (a : list A) : list B :=
  match a with
  | [] => []
  | v :: a' => f v i :: map_idx f (i + 1) a'
  end.

(** for (let i = lo; i < lo + n; i++) body(i) *)
Fixpoint forUp (n : nat) (i : Z) (body : Z → M unit) : M unit :=
  match n with
  | O => mret tt
  | S k => _ ← body i; forUp k (i + 1) body
  end.

(** An in-place array method ([splice], [unshift], [reverse]) on the array
    at [l]. *)
Definition updArray (l : loc) (f : list jsval → list jsval) : M unit := λ s,
  match store s !! l with
  | Some a => (set_store <[l := f a]> s, Ok tt)
  | None => (s, Throw Unmodelled)
  end.

(** ** The script *)

(** *** Global declarations (lines 5-23) *)

(** An array literal of numbers and array literals. *)
#[local] Unset Elimination Schemes.
Inductive lit :=
| LNum (n : Z)
| LArr (ts : list lit).
#[local] Set Elimination Schemes.

Fixpoint allocLit (t : lit) : M jsval :=
  match t with
  | LNum n => mret (JNum n)
  | LArr ts =>
      vs ← (fix elems (ts : list lit) : M (list jsval) :=
              match ts with
              | [] => mret []
              | t :: ts' => v ← allocLit t; vs ← elems ts'; mret (v :: vs)
              end) ts;
      l ← alloc vs;
      mret (JRef l)
  end.

Definition row_lit (ns : list Z) : lit := LArr (LNum <$> ns).

(** const PIECES = [ ... ]: the I entry is a flat array, the six others
    are arrays of rows. *)
Definition PIECES_literal : lit :=
  LArr [ row_lit [1; 1; 1; 1];                            (* I *)
         LArr [row_lit [1; 1; 1]; row_lit [0; 1; 0]];     (* T *)
         LArr [row_lit [1; 1]; row_lit [1; 1]];           (* O *)
         LArr [row_lit [1; 1; 0]; row_lit [0; 1; 1]];     (* S *)
         LArr [row_lit [0; 1; 1]; row_lit [1; 1; 0]];     (* Z *)
         LArr [row_lit [1; 0; 0]; row_lit [1; 1; 1]];     (* L *)
         LArr [row_lit [0; 0; 1]; row_lit [1; 1; 1]] ].   (* J *)

(** Before the declarations run nothing is allocated.  [currentPiece],
    [currentX] and [currentY] are declared without a value; the
    placeholders below are overwritten by [newPiece] before any read (a
    read of [currentPiece.shape] before that is a [TypeError] in the script
    and, through [asArray JUndef], in the model). *)
Definition blank : state :=
  State ∅ 0%nat 0%nat 0 (Piece JUndef "") 0 0 [].

(** let score = 0; let board = []; ...; const PIECES = [...] *)
Definition globals : M jsval :=
  _ ← modifyM (set_score 0);
  b ← alloc [];
  _ ← modifyM (set_board b);
  allocLit PIECES_literal.

Definition boot : state := fst (globals blank).

Definition PIECES : jsval :=
  Eval vm_compute in
    match snd (globals blank) with Ok v => v | Throw _ => JUndef end.

(** *** createBoard (lines 25-32) *)

Definition createBoard : M unit :=
  forUp (Z.to_nat ROWS) 0 (λ row,
    l ← alloc [];
    s ← getM;
    _ ← setIndex (JRef (board s)) row (JRef l);
    forUp (Z.to_nat COLS) 0 (λ col,
      r ← liftM (λ s, getIndex (store s) (JRef (board s)) row);
      setIndex r col EMPTY)).

(** *** newPiece (lines 67-75)

    [i] is [Math.floor(Math.random() * PIECES.length)] and [c] is
    [Math.floor(Math.random() * 16777215)]. *)

(** `#${c.toString(16)}` *)
Definition colorString (c : N) : string :=
  "#" +:+ NilZero.string_of_uint (N.to_hex_uint c).

(** Array.isArray(v): arrays are the only objects of the store. *)
Definition isArray (v : jsval) : bool :=
  match v with JRef _ => true | _ => false end.

Definition newPiece (i : Z) (c : N) : M unit :=
  randomPiece ← liftM (λ s, getIndex (store s) PIECES i);
  first ← liftM (λ s, getIndex (store s) randomPiece 0);
  sh ← (if isArray first then mret randomPiece
        else l ← alloc [randomPiece]; mret (JRef l));
  _ ← modifyM (set_currentPiece (Piece sh (colorString c)));
  row0 ← liftM (λ s, getIndex (store s) (shape (currentPiece s)) 0);
  len ← liftM (λ s, getLength (store s) row0);
  _ ← modifyM (set_currentX (COLS / 2 - len / 2));
  modifyM (set_currentY 0).

(** *** isValidMove (lines 77-88) *)

(** newX >= 0 && newX < COLS && newY < ROWS && board[newY][newX] === EMPTY *)
Definition cellFree (s : state) (newX newY : Z) : R bool :=
  if negb (0 <=? newX) then mret false
  else if negb (newX <? COLS) then mret false
  else if negb (newY <? ROWS) then mret false
  else
    _ ← tellR newY newX;
    r ← liftR (getIndex (store s) (JRef (board s)) newY);
    cell ← liftR (getIndex (store s) r newX);
    mret (strict_eq cell EMPTY).

Definition isValidMove (s : state) (x y : Z) (p : piece) : R bool :=
  rows ← liftR (asArray (store s) (shape p));
  everyR (λ row dy,
    cells ← liftR (asArray (store s) row);
    everyR (λ value dx,
      let newX := x + dx in
      let newY := y + dy in
      if negb (truthy value) then mret true else cellFree s newX newY)
      0 cells)
    0 rows.

(** The call inside the engine: the lookups are not part of the state. *)
Definition checkMove (x y : Z) (p : piece) : M bool :=
  liftM (λ s, snd (isValidMove s x y p)).

(** *** clearLines (lines 105-118) *)

(** cell => cell !== EMPTY *)
Definition nonEmpty (cell : jsval) : bool := negb (strict_eq cell EMPTY).

(** board[row].every(cell => cell !== EMPTY), on the cells of the row *)
Definition rowFull (cells : list jsval) : bool := forallb nonEmpty cells.

(** The body of the [if]: board.splice(row, 1);
    board.unshift(new Array(COLS).fill(EMPTY)) *)
Definition clearRow (row : Z) : M unit :=
  s ← getM;
  _ ← updArray (board s) (λ a, asplice1 a row);
  l ← alloc (replicate (Z.to_nat COLS) EMPTY);
  updArray (board s) (λ a, JRef l :: a).

(** The [for] loop, from [row = n - 1] down to 0. *)
Fixpoint clearLoop (n : nat) (linesCleared : Z) : M Z :=
  match n with
  | O => mret linesCleared
  | S k =>
      let row := Z.of_nat k in
      r ← liftM (λ s, getIndex (store s) (JRef (board s)) row);
      cells ← liftM (λ s, asArray (store s) r);
      if rowFull cells then
        _ ← clearRow row;
        clearLoop k (linesCleared + 1)
      else clearLoop k linesCleared
  end.

Definition clearLines : M unit :=
  linesCleared ← clearLoop (Z.to_nat ROWS) 0;
  if 0 <? linesCleared then
    _ ← modifyM (λ s, set_score (score s + linesCleared * 10) s);
    modifyM (λ s, emit (ScoreText (score s)) s)
  else mret tt.

(** *** gameOver (lines 120-126) *)

Definition gameOverMessage : string := "游戏结束!".

Definition gameOver : M unit :=
  _ ← modifyM (emit (Alert gameOverMessage));
  b ← alloc [];
  _ ← modifyM (set_board b);
  _ ← createBoard;
  _ ← modifyM (set_score 0);
  modifyM (λ s, emit (ScoreText (score s)) s).

(** *** placePiece (lines 90-103) *)

(** The two nested [forEach] of lines 91-97. *)
Definition placeCells : M unit :=
  rows ← liftM (λ s, asArray (store s) (shape (currentPiece s)));
  forEachM (λ row y,
    cells ← liftM (λ s, asArray (store s) row);
    forEachM (λ value x,
      if truthy value then
        s ← getM;
        r ← liftM (λ s, getIndex (store s) (JRef (board s)) (currentY s + y));
        setIndex r (currentX s + x) (JStr (color (currentPiece s)))
      else mret tt)
      0 cells)
    0 rows.

Definition placePiece (i : Z) (c : N) : M unit :=
  _ ← placeCells;
  _ ← clearLines;
  _ ← newPiece i c;
  s ← getM;
  ok ← checkMove (currentX s) (currentY s) (currentPiece s);
  if negb ok then gameOver else mret tt.

(** *** drop, movePiece, rotatePiece (lines 128-149) *)

Definition drop (i : Z) (c : N) : M unit :=
  s ← getM;
  ok ← checkMove (currentX s) (currentY s + 1) (currentPiece s);
  if (ok : bool) then modifyM (λ s, set_currentY (currentY s + 1) s)
  else placePiece i c.

Definition movePiece (dx : Z) : M unit :=
  s ← getM;
  ok ← checkMove (currentX s + dx) (currentY s) (currentPiece s);
  if (ok : bool) then modifyM (λ s, set_currentX (currentX s + dx) s)
  else mret tt.

(** (_, i) => currentPiece.shape.map(row => row[i]).reverse():
    [map] makes a fresh array and [reverse] reverses that array in place. *)
Definition rotatedRow (i : Z) : M jsval :=
  rows ← liftM (λ s, asArray (store s) (shape (currentPiece s)));
  col ← liftM (λ s, mapM (λ row, getIndex (store s) row i) rows);
  l ← alloc col;
  _ ← updArray l reverse;
  mret (JRef l).

(** currentPiece.shape[0].map((_, i) =>
      currentPiece.shape.map(row => row[i]).reverse()) *)
Definition buildRotated : M jsval :=
  first ← liftM (λ s, getIndex (store s) (shape (currentPiece s)) 0);
  row0 ← liftM (λ s, asArray (store s) first);
  rot ← mapM_idx (λ _ i, rotatedRow i) 0 row0;
  l ← alloc rot;
  mret (JRef l).

Definition rotatePiece : M unit :=
  rotated ← buildRotated;
  s ← getM;
  ok ← checkMove (currentX s) (currentY s)
         (Piece rotated (color (currentPiece s)));
  if (ok : bool) then
    modifyM (λ s, set_currentPiece (Piece rotated (color (currentPiece s))) s)
  else mret tt.

(** *** The key handler, the timer and the start of the script
    (lines 151-172) *)

Inductive input :=
| ArrowLeft
| ArrowRight
| ArrowDown (i : Z) (c : N)
| ArrowUp
| OtherKey                    (* any other key: only draw() *)
| Tick (i : Z) (c : N).       (* one round of gameLoop *)

Definition handle (inp : input) : M unit :=
  match inp with
  | ArrowLeft => movePiece (-1)
  | ArrowRight => movePiece 1
  | ArrowDown i c => drop i c
  | ArrowUp => rotatePiece
  | OtherKey => mret tt
  | Tick i c => drop i c
  end.

(** createBoard(); newPiece(); and then the first round of the loop is a
    [Tick]. *)
Definition start (i : Z) (c : N) : state * result unit :=
  (_ ← createBoard; newPiece i c) boot.

(** The draws [Math.random] can produce. *)
Definition draw_ok (i : Z) (c : N) : Prop :=
  0 ≤ i < 7 ∧ (c < 16777215)%N.

Definition input_ok (inp : input) : Prop :=
  match inp with
  | ArrowDown i c | Tick i c => draw_ok i c
  | _ => True
  end.

(** The states of the running game.  A handler that throws leaves the
    state it reached, and the page goes on from there. *)
Inductive reachable : state → Prop :=
| reach_start i c s r :
    draw_ok i c → start i c = (s, r) → reachable s
| reach_step s inp s' r :
    reachable s → input_ok inp → handle inp s = (s', r) → reachable s'.

(** Running a list of inputs, stopping at the first exception. *)
Fixpoint run (inps : list input) : M unit :=
  match inps with
  | [] => mret tt
  | inp :: rest => _ ← handle inp; run rest
  end.

(** *** Drawing (lines 34-65) and its two callers (lines 151-168)

    The script writes to the canvas and never reads it back: a frame is the
    list of the calls made on [context], in the order they are made. *)

(** const BLOCK_SIZE = 30; *)
Definition BLOCK_SIZE : Z := 30.

Inductive canvas_call :=
| FillStyle (v : jsval)          (* context.fillStyle = v *)
| FillRect (x y w h : Z)         (* context.fillRect(x, y, w, h) *)
| StrokeStyle (v : jsval)        (* context.strokeStyle = v *)
| StrokeRect (x y w h : Z)       (* context.strokeRect(x, y, w, h) *)
| ClearRect (x y w h : Z).       (* context.clearRect(x, y, w, h) *)

Definition frame := list canvas_call.

(** The drawing functions read the state and write to the canvas. *)
Definition D (A : Type) : Type := frame * result A.

#[global] Instance D_ret : MRet D := λ A a, ([], Ok a).
#[global] Instance D_bind : MBind D := λ A B f r,
  match r with
  | (w, Ok a) => let '(w', r') := f a in (w ++ w', r')
  | (w, Throw e) => (w, Throw e)
  end.

Definition liftD {A} (r : result A) : D A := ([], r).
Definition callD (c : canvas_call) : D unit := ([c], Ok tt).

(** for (let i = lo; i < lo + n; i++) body(i) *)
Fixpoint forUpD (n : nat) (i : Z) (body : Z → D unit) : D unit :=
  match n with
  | O => mret tt
  | S k => _ ← body i; forUpD k (i + 1) body
  end.

(** [a.forEach((v, i) => f v i)] over the elements of [a], from index [i]. *)
Fixpoint forEachD {A} (f : A → Z → D unit) (i : Z) (a : list A) : D unit :=
  match a with
  | [] => mret tt
  | v :: a' => _ ← f v i; forEachD f (i + 1) a'
  end.

Definition drawBlock (x y : Z) (color : jsval) : D unit :=
  _ ← callD (FillStyle color);
  _ ← callD (FillRect (x * BLOCK_SIZE) (y * BLOCK_SIZE) BLOCK_SIZE BLOCK_SIZE);
  _ ← callD (StrokeStyle (JStr "#000"));
  callD (StrokeRect (x * BLOCK_SIZE) (y * BLOCK_SIZE) BLOCK_SIZE BLOCK_SIZE).

(** board[row][col] is read for the test and again for the argument. *)
Definition drawBoard (s : state) : D unit :=
  forUpD (Z.to_nat ROWS) 0 (λ row,
    forUpD (Z.to_nat COLS) 0 (λ col,
      r ← liftD (getIndex (store s) (JRef (board s)) row);
      cell ← liftD (getIndex (store s) r col);
      if negb (strict_eq cell EMPTY) then
        r' ← liftD (getIndex (store s) (JRef (board s)) row);
        cell' ← liftD (getIndex (store s) r' col);
        drawBlock col row cell'
      else mret tt)).

Definition drawPiece (s : state) : D unit :=
  rows ← liftD (asArray (store s) (shape (currentPiece s)));
  forEachD (λ row y,
    cells ← liftD (asArray (store s) row);
    forEachD (λ value x,
      if truthy value then
        drawBlock (currentX s + x) (currentY s + y)
                  (JStr (color (currentPiece s)))
      else mret tt)
      0 cells)
    0 rows.

(** [canvas.width] and [canvas.height] are attributes of the canvas element
    of the page; the script does not set them. *)
Definition draw (width height : Z) (s : state) : D unit :=
  _ ← callD (ClearRect 0 0 width height);
  _ ← drawBoard s;
  drawPiece s.

(** The listener of keydown, for the key [inp]: the handler of the key,
    then draw().  An exception of the handler ends the listener before
    draw(). *)
Definition keydown (width height : Z) (inp : input) (s : state) : state * D unit :=
  match handle inp s with
  | (s', Ok _) => (s', draw width height s')
  | (s', Throw e) => (s', ([], Throw e))
  end.

(** The delay of [setTimeout(gameLoop, 1000)]. *)
Definition LOOP_DELAY : Z := 1000.

(** One round of gameLoop: drop(); draw(); setTimeout(gameLoop, 1000).  The
    result is the delay of the timer that was set; after an exception no
    timer is set, and the loop has ended. *)
Definition gameLoop (width height : Z) (i : Z) (c : N) (s : state) : state * D Z :=
  match drop i c s with
  | (s', Ok _) => (s', (_ ← draw width height s'; mret LOOP_DELAY))
  | (s', Throw e) => (s', ([], Throw e))
  end.

(** ** Views: the matrices behind the references *)

(** The rows of the two-level array at [v], by value. *)
Definition matrix (st : gmap loc (list jsval)) (v : jsval) : option (list (list jsval)) :=
  match v with
  | JRef l => rows ← st !! l;
              mapM (λ r, match r with JRef l' => st !! l' | _ => None end) rows
  | _ => None
  end.

Definition boardView (s : state) : option (list (list jsval)) :=
  matrix (store s) (JRef (board s)).

Definition maskView (s : state) : option (list (list jsval)) :=
  matrix (store s) (shape (currentPiece s)).

(** ** Functions by value

    What the script computes, on the rows read through the references
    (the views).  The lemmas below relate the script to them. *)

Definition emptyRow : list jsval := replicate (Z.to_nat COLS) EMPTY.
Definition emptyBoard : list (list jsval) := replicate (Z.to_nat ROWS) emptyRow.

(** The row of index [i] of a matrix, as [aget] sees it. *)
Definition rowOf (bv : list (list jsval)) (i : Z) : list jsval :=
  default [] (bv !! Z.to_nat i).

(** [everyR] when no callback throws. *)
Fixpoint forall_idx {A} (g : A → Z → bool) (i : Z) (a : list A) : bool :=
  match a with
  | [] => true
  | v :: a' => g v i && forall_idx g (i + 1) a'
  end.

(** [cellFree] without the exceptions: for rows that exist. *)
Definition cellFreeB (bv : list (list jsval)) (newX newY : Z) : bool :=
  (0 <=? newX) && (newX <? COLS) && (newY <? ROWS) &&
  strict_eq (aget (rowOf bv newY) newX) EMPTY.

Definition fits (bv mv : list (list jsval)) (x y : Z) : bool :=
  forall_idx (λ row dy,
    forall_idx (λ value dx,
      negb (truthy value) || cellFreeB bv (x + dx) (y + dy)) 0 row) 0 mv.

Definition in_grid (rc : Z * Z) : Prop :=
  0 ≤ rc.1 < ROWS ∧ 0 ≤ rc.2 < COLS.

(** The loop of [clearLines] on the rows by value: the board it leaves and
    the number of rows it cleared. *)
Fixpoint clearLoopV (n : nat) (bv : list (list jsval)) (linesCleared : Z)
    : list (list jsval) * Z :=
  match n with
  | O => (bv, linesCleared)
  | S k =>
      if rowFull (rowOf bv (Z.of_nat k))
      then clearLoopV k (emptyRow :: delete k bv) (linesCleared + 1)
      else clearLoopV k bv linesCleared
  end.

Definition clearLinesV (bv : list (list jsval)) : list (list jsval) * Z :=
  clearLoopV (Z.to_nat ROWS) bv 0.

(** The rows of the board that are full, as [clearLines] checks them. *)
Definition fullRows (s : state) : option (list bool) :=
  (λ bv : list (list jsval), rowFull <$> bv) <$> boardView s.

(** The rotated mask by value: row [i] is column [i] of the mask, read from
    the bottom row up. *)
Definition rotateV (mv : list (list jsval)) : list (list jsval) :=
  map_idx (λ (_ : jsval) i, reverse ((λ row, aget row i) <$> mv))
          0 (default [] (head mv)).

(** Transposition, in the words of the specification: rows and columns are
    swapped.  [w] is the width of the mask. *)
Fixpoint transpose (w : nat) (m : list (list jsval)) : list (list jsval) :=
  match m with
  | [] => replicate w []
  | r :: m' => zip_with cons r (transpose w m')
  end.

(** The mask a catalog entry stands for: the entry itself when it is an
    array of rows, and the one-row matrix around it when it is flat
    (Array.isArray(randomPiece[0]) ? randomPiece : [randomPiece]). *)
Definition lit_row (t : lit) : list jsval :=
  match t with
  | LArr ts => (λ t, match t with LNum n => JNum n | LArr _ => JUndef end) <$> ts
  | LNum _ => []
  end.

Definition lit_mask (t : lit) : list (list jsval) :=
  match t with
  | LArr (LArr r :: ts) => lit_row <$> (LArr r :: ts)
  | _ => [lit_row t]
  end.

(** The seven canonical masks: I, T, O, S, Z, L, J. *)
Definition canonical : list (list (list jsval)) :=
  match PIECES_literal with
  | LArr ts => lit_mask <$> ts
  | LNum _ => []
  end.

(** currentX of a fresh piece:
    Math.floor(COLS / 2) - Math.floor(shape[0].length / 2) *)
Definition spawnX (mask : list (list jsval)) : Z :=
  COLS / 2 - Z.of_nat (length (default [] (head mask))) / 2.

(** The array literal a value stands for, read back from the store. *)
Fixpoint readLit (fuel : nat) (st : gmap loc (list jsval)) (v : jsval) : option lit :=
  match fuel with
  | O => None
  | S fuel' =>
      match v with
      | JNum n => Some (LNum n)
      | JRef l => a ← st !! l; ts ← mapM (readLit fuel' st) a; Some (LArr ts)
      | _ => None
      end
  end.

(** The number of alerts so far. *)
Fixpoint alerts (evs : list event) : nat :=
  match evs with
  | [] => 0
  | Alert _ :: evs' => S (alerts evs')
  | ScoreText _ :: evs' => alerts evs'
  end.

(** The state of [placePiece] right after its call of [newPiece]
    (lines 91-99), before the check of the spawn position. *)
Definition respawned (i : Z) (c : N) (s : state) : state :=
  (newPiece i c (clearLines (placeCells s).1).1).1.

(** ** Invariants *)

(** Nothing is stored at or above the next fresh reference. *)
Definition store_wf (s : state) : Prop :=
  ∀ l : loc, (next s ≤ l)%nat → store s !! l = None.

(** The global variables agree; the store and [next] may differ. *)
Definition same_globals (s s' : state) : Prop :=
  board s' = board s ∧ score s' = score s ∧
  currentPiece s' = currentPiece s ∧
  currentX s' = currentX s ∧ currentY s' = currentY s ∧
  events s' = events s.

(** The arrays at [ls] are the rows [m]. *)
Definition rows_at (st : gmap loc (list jsval)) (ls : list loc)
    (m : list (list jsval)) : Prop :=
  Forall2 (λ l a, st !! l = Some a) ls m.

(** The arrays of the catalog: the references allocated by the literal
    [PIECES], after the first board array (at 0) and before [next boot]. *)
Definition is_catalog (l : loc) : Prop := (1 ≤ l ≤ 20)%nat.

Definition catalog_intact (st : gmap loc (list jsval)) : Prop :=
  ∀ l : loc, is_catalog l → st !! l = store boot !! l.

(** The twenty arrays of the catalog, in the order of their references
    1, ..., 20; the last one is [PIECES] itself. *)
Definition catalog_arrays : list (list jsval) :=
  Eval vm_compute in omap (λ l : loc, store boot !! l) (seq 1 20).

(** A colour made by [newPiece]. *)
Definition is_color (v : jsval) : Prop :=
  ∃ c : N, (c < 16777215)%N ∧ v = JStr (colorString c).

Definition is_cell (v : jsval) : Prop := v = EMPTY ∨ is_color v.

(** ROWS rows of COLS cells, each the empty marker or a colour. *)
Definition grid (bv : list (list jsval)) : Prop :=
  Z.of_nat (length bv) = ROWS ∧
  Forall (λ row, Z.of_nat (length row) = COLS ∧ Forall is_cell row) bv.

(** The board: the outer array at [board s] holds the references [rl] to
    the rows [bv]; these arrays are pairwise distinct and none of them
    belongs to the catalog. *)
Record BInv (s : state) (rl : list loc) (bv : list (list jsval)) : Prop := {
  b_wf : store_wf s;
  b_catalog : catalog_intact (store s);
  b_next : (21 ≤ next s)%nat;
  b_board : store s !! board s = Some (JRef <$> rl);
  b_rows : rows_at (store s) rl bv;
  b_nodup : NoDup (board s :: rl);
  b_fresh : Forall (λ l, ¬ is_catalog l) (board s :: rl);
  b_grid : grid bv
}.

(** The current piece: its shape is the array at [sl] of the references
    [ml] to the rows [mv]; none of these arrays is an array of the board
    (some are arrays of the catalog); the piece fits where it is. *)
Record MInv (s : state) (rl : list loc) (bv : list (list jsval))
    (sl : loc) (ml : list loc) (mv : list (list jsval)) : Prop := {
  m_shape : shape (currentPiece s) = JRef sl;
  m_outer : store s !! sl = Some (JRef <$> ml);
  m_rows : rows_at (store s) ml mv;
  m_sep : Forall (λ l, l ∉ board s :: rl) (sl :: ml);
  m_nonempty : ∃ r mv', mv = r :: mv' ∧ r ≠ [];
  m_rect : ∃ w : nat, Forall (λ r, length r = w) mv;
  m_color : is_color (JStr (color (currentPiece s)));
  m_y : 0 ≤ currentY s;
  m_fits : fits bv mv (currentX s) (currentY s) = true
}.

Definition Inv (s : state) : Prop :=
  ∃ rl bv sl ml mv, BInv s rl bv ∧ MInv s rl bv sl ml mv.

(** ** The game by value

    The state as the player sees it: the rows of the board, the mask and
    the colour of the piece, its position, the score and the events.
    [handleV] is the engine on these values; the lemmas show that the
    script, which works through references, computes the same. *)

Record game := Game {
  g_board : list (list jsval);
  g_mask : list (list jsval);
  g_color : string;
  g_x : Z;
  g_y : Z;
  g_score : Z;
  g_events : list event
}.

Definition view (s : state) : option game :=
  bv ← boardView s;
  mv ← maskView s;
  Some (Game bv mv (color (currentPiece s)) (currentX s) (currentY s)
             (score s) (events s)).

(** [forEach] with a callback that only updates a value. *)
Fixpoint foldl_idx {A B} (f : B → A → Z → B) (i : Z) (a : list A) (b : B) : B :=
  match a with
  | [] => b
  | v :: a' => foldl_idx f (i + 1) a' (f b v i)
  end.

(** board[Y][X] = v on the rows, for a row that exists (on a row that does
    not exist the script throws). *)
Definition setCellV (bv : list (list jsval)) (X Y : Z) (v : jsval)
    : list (list jsval) :=
  if decide (0 ≤ Y < Z.of_nat (length bv))
  then <[Z.to_nat Y := aset (rowOf bv Y) X v]> bv
  else bv.

(** The two nested [forEach] of placePiece. *)
Definition placeCellsV (bv mv : list (list jsval)) (x y : Z) (v : jsval)
    : list (list jsval) :=
  foldl_idx (λ bv row dy,
    foldl_idx (λ bv value dx,
      if truthy value then setCellV bv (x + dx) (y + dy) v else bv)
      0 row bv)
    0 mv bv.

(** Whether the mask is occupied at its row [r] and column [c]. *)
Definition maskAt (mv : list (list jsval)) (r c : Z) : bool :=
  (0 <=? r) && truthy (aget (rowOf mv r) c).

(** The loop of clearLines, seen from the bottom row up: a full row is
    removed, and the row above it is then not checked.  The result is the
    rows that stay (bottom row first) and the number of rows removed. *)
Fixpoint sweep (rows : list (list jsval)) : list (list jsval) * nat :=
  match rows with
  | [] => ([], 0%nat)
  | r :: rest =>
      if rowFull r then
        match rest with
        | [] => ([], 1%nat)
        | r' :: rest' => let '(kept, n) := sweep rest' in (r' :: kept, S n)
        end
      else let '(kept, n) := sweep rest in (r :: kept, n)
  end.

(** No two full rows are next to each other. *)
Fixpoint apart (rows : list (list jsval)) : bool :=
  match rows with
  | [] => true
  | r :: rest =>
      match rest with
      | [] => true
      | r' :: _ => negb (rowFull r && rowFull r') && apart rest
      end
  end.

Definition moveV (dx : Z) (g : game) : game :=
  if fits (g_board g) (g_mask g) (g_x g + dx) (g_y g)
  then Game (g_board g) (g_mask g) (g_color g) (g_x g + dx) (g_y g)
            (g_score g) (g_events g)
  else g.

Definition rotateG (g : game) : game :=
  if fits (g_board g) (rotateV (g_mask g)) (g_x g) (g_y g)
  then Game (g_board g) (rotateV (g_mask g)) (g_color g) (g_x g) (g_y g)
            (g_score g) (g_events g)
  else g.

Definition placeV (i : Z) (c : N) (g : game) : game :=
  let b1 := placeCellsV (g_board g) (g_mask g) (g_x g) (g_y g) (JStr (g_color g)) in
  let b2 := (clearLinesV b1).1 in
  let n := (clearLinesV b1).2 in
  let sc := g_score g + n * 10 in
  let ev := g_events g ++ (if 0 <? n then [ScoreText sc] else []) in
  let mask := default [] (canonical !! Z.to_nat i) in
  if fits b2 mask (spawnX mask) 0
  then Game b2 mask (colorString c) (spawnX mask) 0 sc ev
  else Game emptyBoard mask (colorString c) (spawnX mask) 0 0
            (ev ++ [Alert gameOverMessage; ScoreText 0]).

Definition dropV (i : Z) (c : N) (g : game) : game :=
  if fits (g_board g) (g_mask g) (g_x g) (g_y g + 1)
  then Game (g_board g) (g_mask g) (g_color g) (g_x g) (g_y g + 1)
            (g_score g) (g_events g)
  else placeV i c g.

Definition handleV (inp : input) (g : game) : game :=
  match inp with
  | ArrowLeft => moveV (-1) g
  | ArrowRight => moveV 1 g
  | ArrowDown i c => dropV i c g
  | ArrowUp => rotateG g
  | OtherKey => g
  | Tick i c => dropV i c g
  end.

Definition startV (i : Z) (c : N) : game :=
  let mask := default [] (canonical !! Z.to_nat i) in
  Game emptyBoard mask (colorString c) (spawnX mask) 0 0 [].

(** The references to the rows of the board, read from the store. *)
Definition rowRefs (s : state) : list loc :=
  omap (λ v, match v with JRef l => Some l | _ => None end)
       (default [] (store s !! board s)).

(** The inputs that are key presses. *)
Definition is_key (inp : input) : Prop :=
  match inp with Tick _ _ => False | _ => True end.

(** The inputs that call drop(). *)
Definition is_drop (inp : input) : Prop :=
  match inp with ArrowDown _ _ | Tick _ _ => True | _ => False end.

(** A list of inputs, one after the other. *)
Definition runV (inps : list input) (g : game) : game :=
  foldl (λ g inp, handleV inp g) g inps.

(** What the invariants of the script say about the game by value. *)
Definition playable (g : game) : Prop :=
  grid (g_board g) ∧ 0 ≤ g_y g ∧
  fits (g_board g) (g_mask g) (g_x g) (g_y g) = true ∧
  (∃ r mv', g_mask g = r :: mv' ∧ r ≠ []) ∧
  (∃ w : nat, Forall (λ r, length r = w) (g_mask g)) ∧
  is_color (JStr (g_color g)).

(** The width of a mask: the length of its first row. *)
Definition width (mv : list (list jsval)) : nat := length (default [] (head mv)).

(** The mask fills its bounding box: its first and last row and its first
    and last column each hold an occupied cell. *)
Definition tight (mv : list (list jsval)) : bool :=
  existsb truthy (default [] (head mv)) &&
  existsb truthy (default [] (last mv)) &&
  existsb (λ row, truthy (aget row 0)) mv &&
  existsb (λ row, truthy (aget row (Z.of_nat (width mv) - 1))) mv.

(** The masks rotatePiece can make of the catalog: each canonical mask,
    rotated 0 to 3 times. *)
Definition orientations : list (list (list jsval)) :=
  m ← canonical; (λ k : nat, Nat.iter k rotateV m) <$> [0; 1; 2; 3]%nat.

(** Rounds of the timer with the given draws, and no key in between. *)
Definition ticks (draws : list (Z * N)) : list input :=
  (λ d, Tick d.1 d.2) <$> draws.

(** Every block of the board is in one of the columns 3 to 6, where a
    piece that is neither moved nor rotated comes down. *)
Definition spawn_columns (bv : list (list jsval)) : Prop :=
  Forall (λ row : list jsval,
    ∀ (j : nat) v, row !! j = Some v → nonEmpty v = true → (3 ≤ j ≤ 6)%nat) bv.

(** The game of a player who presses no key. *)
Definition idle (g : game) : Prop :=
  g_mask g ∈ canonical ∧ g_x g = spawnX (g_mask g) ∧ spawn_columns (g_board g).

(** The number of occupied cells of a mask, and of blocks on a board. *)
Definition occupied (mv : list (list jsval)) : nat :=
  length (filter (λ v, truthy v) (concat mv)).

Definition blocks (bv : list (list jsval)) : nat :=
  length (filter (λ v, nonEmpty v) (concat bv)).

(** What is left before the board is full in the columns 3 to 6: five
    rounds for each free cell, and the rows the piece can still fall. *)
Definition rounds_left (g : game) : Z :=
  5 * (80 - Z.of_nat (blocks (g_board g))) + (ROWS - g_y g).

(** The score the page shows: the last text written to the score element,
    if any was written. *)
Fixpoint shownScore (evs : list event) : option Z :=
  match evs with
  | [] => None
  | e :: evs' =>
      match shownScore evs' with
      | Some n => Some n
      | None => match e with ScoreText n => Some n | Alert _ => None end
      end
  end.

(** The frame of [draw], by value. *)
Definition blockV (x y : Z) (color : jsval) : frame :=
  [ FillStyle color;
    FillRect (x * BLOCK_SIZE) (y * BLOCK_SIZE) BLOCK_SIZE BLOCK_SIZE;
    StrokeStyle (JStr "#000");
    StrokeRect (x * BLOCK_SIZE) (y * BLOCK_SIZE) BLOCK_SIZE BLOCK_SIZE ].

Definition boardFrameV (bv : list (list jsval)) : frame :=
  concat (map_idx (λ cells row,
    concat (map_idx (λ cell col,
      if nonEmpty cell then blockV col row cell else []) 0 cells)) 0 bv).

Definition pieceFrameV (mv : list (list jsval)) (x y : Z) (color : jsval) : frame :=
  concat (map_idx (λ cells dy,
    concat (map_idx (λ value dx,
      if truthy value then blockV (x + dx) (y + dy) color else []) 0 cells)) 0 mv).

(** Both, as one function: a block for each cell of [m] that satisfies
    [P], where the top left cell of [m] is at column [x] and row [y]. *)
Definition blocksFrameV (P : jsval → bool) (paint : jsval → jsval)
    (m : list (list jsval)) (x y : Z) : frame :=
  concat (map_idx (λ cells dy,
    concat (map_idx (λ v dx,
      if P v then blockV (x + dx) (y + dy) (paint v) else []) 0 cells)) 0 m).

Definition frameV (width height : Z) (g : game) : frame :=
  ClearRect 0 0 width height ::
  boardFrameV (g_board g) ++
  pieceFrameV (g_mask g) (g_x g) (g_y g) (JStr (g_color g)).

(** The cells painted by a frame: the corners of its filled rectangles. *)
Definition filled (fr : frame) : list (Z * Z) :=
  omap (λ c, match c with FillRect x y _ _ => Some (x, y) | _ => None end) fr.

(** A call that draws a rectangle draws one block of the grid; the colours
    set are colours of pieces and the black of the outline. *)
Definition block_call (c : canvas_call) : Prop :=
  match c with
  | FillRect x y w h | StrokeRect x y w h =>
      ∃ col row : Z, 0 ≤ col < COLS ∧ 0 ≤ row < ROWS ∧
        x = col * BLOCK_SIZE ∧ y = row * BLOCK_SIZE ∧
        w = BLOCK_SIZE ∧ h = BLOCK_SIZE
  | FillStyle v => is_color v
  | StrokeStyle v => v = JStr "#000"
  | ClearRect _ _ _ _ => False
  end.

(** ** Games used as examples *)

(** The I piece, upright in column 9, cannot be rotated there; it would fit
    three columns to the left, and no such offset is tried. *)
Definition upright_at_wall : state :=
  (run (ArrowUp :: replicate 6 ArrowRight) (start 0 0xabc%N).1).1.

(** A stack of O pieces in columns 4 and 5 up to row 2, and a tenth O piece
    at its spawn position: it cannot move down. *)
Definition topped_out : state :=
  (run (replicate 99 (ArrowDown 2 0xabc%N)) (start 2 0xabc%N).1).1.

(** Four O pieces on the floor in columns 0-7, and a fifth O piece at
    column 8, row 18, about to be placed: rows 18 and 19 will both be
    full. *)
Definition two_rows_play : list input :=
  let down := ArrowDown 2 0xabc%N in
  replicate 4 ArrowLeft ++ replicate 19 down ++
  replicate 2 ArrowLeft ++ replicate 19 down ++
  replicate 19 down ++
  replicate 2 ArrowRight ++ replicate 19 down ++
  replicate 4 ArrowRight ++ replicate 18 down.

Definition two_rows_ready : state :=
  (run two_rows_play (start 2 0xabc%N).1).1.

(** The example of the specification: row 19 is filled in columns 0-8 (two
    I pieces lying in columns 0-7, one standing in column 8) and an I piece
    stands in column 9 above rows 16-19, about to be placed. *)
Definition one_row_play : list input :=
  let down := ArrowDown 0 0xabc%N in
  replicate 3 ArrowLeft ++ replicate 20 down ++
  [ArrowRight] ++ replicate 20 down ++
  [ArrowUp] ++ replicate 5 ArrowRight ++ replicate 17 down ++
  [ArrowUp] ++ replicate 6 ArrowRight ++ replicate 16 down.

Definition one_row_ready : state :=
  (run one_row_play (start 0 0xabc%N).1).1.

(** ** Tactics and decision procedures *)

(** Reduce the projections of an updated state, and nothing else. *)
Ltac simpl_state :=
  unfold set_store, set_board, set_score, set_currentPiece, set_currentX,
    set_currentY, emit in *;
  cbn [store next board score currentPiece currentX currentY events
       shape color fst snd] in *.

#[global] Instance draw_ok_dec i c : Decision (draw_ok i c).
Proof. unfold draw_ok. apply _. Defined.

#[global] Instance input_ok_dec inp : Decision (input_ok inp).
Proof. destruct inp; cbn [input_ok]; apply _. Defined.

(** A decidable fact about concrete data, by evaluation. *)
Ltac decide_by_compute := apply (bool_decide_unpack _); vm_compute; exact I.

(** [boot] is a closed term; proofs read it through [boot_lookup] and
    evaluate it with [vm_compute] only. *)
#[global] Opaque boot.

(** * Lemmas *)

(** ** Reasoning about the monads *)

Lemma bindM_ok {A B} (m : M A) (f : A → M B) s s' a :
  m s = (s', Ok a) → (m ≫= f) s = f a s'.
Proof. intros H. unfold mbind, M_bind. by rewrite H. Qed.

Lemma bindM_get {B} (f : state → M B) s : (getM ≫= f) s = f s s.
Proof. reflexivity. Qed.

Lemma bindM_modify {B} (g : state → state) (f : unit → M B) s :
  (modifyM g ≫= f) s = f tt (g s).
Proof. reflexivity. Qed.

Lemma bindM_lift {A B} (g : state → result A) (f : A → M B) s a :
  g s = Ok a → (liftM g ≫= f) s = f a s.
Proof. intros H. unfold mbind, M_bind, liftM. by rewrite H. Qed.

(** A loop that keeps an invariant, indexed by the number of rounds. *)
Lemma forUp_inv (P : nat → state → Prop) (body : Z → M unit) (n : nat) (i : Z) s :
  P 0%nat s →
  (∀ (k : nat) s0, (k < n)%nat → P k s0 →
     ∃ s1, body (i + Z.of_nat k) s0 = (s1, Ok tt) ∧ P (S k) s1) →
  ∃ s', forUp n i body s = (s', Ok tt) ∧ P n s'.
Proof.
  revert P i s. induction n as [|n IH]; intros P i s H0 Hstep.
  - exists s. done.
  - destruct (Hstep 0%nat s) as (s1 & E1 & P1); [lia | done |].
    rewrite Z.add_0_r in E1.
    destruct (IH (λ k, P (S k)) (i + 1) s1) as (s' & E' & P'); [done | |].
    + intros k s0 Hk Pk. destruct (Hstep (S k) s0) as (s2 & E2 & P2); [lia | done |].
      exists s2. split; [|done]. rewrite <- E2. f_equal. lia.
    + exists s'. split; [|done]. simpl. by rewrite (bindM_ok _ _ _ _ _ E1).
Qed.

Lemma forEachM_inv {A} (P : nat → state → Prop) (f : A → Z → M unit)
    (a : list A) (i : Z) s :
  P 0%nat s →
  (∀ (k : nat) v s0, a !! k = Some v → P k s0 →
     ∃ s1, f v (i + Z.of_nat k) s0 = (s1, Ok tt) ∧ P (S k) s1) →
  ∃ s', forEachM f i a s = (s', Ok tt) ∧ P (length a) s'.
Proof.
  revert P i s. induction a as [|v a IH]; intros P i s H0 Hstep.
  - exists s. done.
  - destruct (Hstep 0%nat v s) as (s1 & E1 & P1); [done | done |].
    rewrite Z.add_0_r in E1.
    destruct (IH (λ k, P (S k)) (i + 1) s1) as (s' & E' & P'); [done | |].
    + intros k w s0 Hk Pk. destruct (Hstep (S k) w s0) as (s2 & E2 & P2); [done | done |].
      exists s2. split; [|done]. rewrite <- E2. f_equal. lia.
    + exists s'. split; [|done]. simpl. by rewrite (bindM_ok _ _ _ _ _ E1).
Qed.

(** ** The store and the arrays *)

Lemma same_globals_refl s : same_globals s s.
Proof. by repeat split. Qed.

Lemma same_globals_trans s1 s2 s3 :
  same_globals s1 s2 → same_globals s2 s3 → same_globals s1 s3.
Proof.
  unfold same_globals. intros (?&?&?&?&?&?) (?&?&?&?&?&?).
  repeat split; congruence.
Qed.

Lemma store_wf_lt s l a : store_wf s → store s !! l = Some a → (l < next s)%nat.
Proof.
  intros Hwf Hl. destruct (decide (l < next s)%nat) as [|Hge]; [done|].
  rewrite Hwf in Hl; [done | lia].
Qed.

Lemma aset_push (a : list jsval) v : aset a (Z.of_nat (length a)) v = a ++ [v].
Proof.
  unfold aset. rewrite decide_False by lia. rewrite decide_False by lia.
  by replace (Z.to_nat (Z.of_nat (length a)) - length a)%nat with 0%nat by lia.
Qed.

Lemma aget_lookup (a : list jsval) (k : nat) v :
  a !! k = Some v → aget a (Z.of_nat k) = v.
Proof.
  intros H. unfold aget. rewrite decide_True by lia. by rewrite Nat2Z.id, H.
Qed.

Lemma aget_neg (a : list jsval) (i : Z) : i < 0 → aget a i = JUndef.
Proof. intros H. unfold aget. by rewrite decide_False by lia. Qed.

(** *** createBoard *)

(** The inner loop of [createBoard] on the fresh row [l] of index [row]. *)
Lemma fillRow_spec (n j : nat) (row : Z) (l : loc) (a : list jsval) s :
  store s !! board s = Some a → aget a row = JRef l → l ≠ board s →
  store s !! l = Some (replicate j EMPTY) →
  forUp n (Z.of_nat j)
    (λ col, r ← liftM (λ s, getIndex (store s) (JRef (board s)) row);
            setIndex r col EMPTY) s
  = (set_store <[l := replicate (j + n) EMPTY]> s, Ok tt).
Proof.
  revert j s. induction n as [|n IH]; intros j s Hb Ha Hne Hl.
  - simpl. rewrite Nat.add_0_r. destruct s as [st nx b sc p x y ev]; simpl in *.
    unfold set_store; simpl. by rewrite insert_id.
  - simpl forUp.
    erewrite bindM_ok; last first.
    { erewrite bindM_lift; [| simpl; rewrite Hb, Ha; reflexivity].
      unfold setIndex. rewrite Hl. reflexivity. }
    replace (Z.of_nat j + 1) with (Z.of_nat (S j)) by lia.
    rewrite IH.
    + destruct s as [st nx b sc p x y ev]; unfold set_store; simpl in *.
      rewrite insert_insert_eq. by replace (j + S n)%nat with (S (j + n)) by lia.
    + simpl. by rewrite lookup_insert_ne.
    + done.
    + done.
    + simpl. rewrite lookup_insert_eq. f_equal.
      replace j with (length (replicate j EMPTY)) at 2 by apply length_replicate.
      rewrite aset_push. symmetry. apply replicate_cons_app.
Qed.

Lemma createBoard_spec s :
  store_wf s → store s !! board s = Some [] →
  ∃ s', createBoard s = (s', Ok tt) ∧ same_globals s s' ∧ store_wf s' ∧
    next s' = (next s + Z.to_nat ROWS)%nat ∧
    store s' !! board s = Some (JRef <$> seq (next s) (Z.to_nat ROWS)) ∧
    (∀ l : loc, (next s ≤ l < next s + Z.to_nat ROWS)%nat →
       store s' !! l = Some emptyRow) ∧
    (∀ l : loc, (l < next s)%nat → l ≠ board s → store s' !! l = store s !! l).
Proof.
  intros Hwf Hb.
  pose proof (store_wf_lt _ _ _ Hwf Hb) as Hblt.
  unfold createBoard.
  edestruct (forUp_inv (λ k s0,
      same_globals s s0 ∧ store_wf s0 ∧ next s0 = (next s + k)%nat ∧
      store s0 !! board s = Some (JRef <$> seq (next s) k) ∧
      (∀ l : loc, (next s ≤ l < next s + k)%nat → store s0 !! l = Some emptyRow) ∧
      (∀ l : loc, (l < next s)%nat → l ≠ board s → store s0 !! l = store s !! l)))
    as (s' & E & HP); [| | exists s'; split; [exact E | exact HP]].
  - split; [apply same_globals_refl|]. split; [done|]. split; [lia|].
    split; [done|]. split; [intros; lia | done].
  - intros k s0 Hk (Hg & Hwf0 & Hn & Hb0 & Hrows & Hframe).
    assert (Hbs : board s0 = board s) by apply Hg.
    rewrite Z.add_0_l.
    set (l := next s0).
    set (s1 := State (<[l := []]> (store s0)) (S l) (board s0) (score s0)
                     (currentPiece s0) (currentX s0) (currentY s0) (events s0)).
    set (s2 := set_store <[board s := JRef <$> seq (next s) (S k)]> s1).
    exists (set_store <[l := replicate (0 + Z.to_nat COLS) EMPTY]> s2).
    assert (Hlb : l ≠ board s) by (unfold l; lia).
    split.
    + erewrite bindM_ok; [| reflexivity]. fold l s1.
      rewrite bindM_get.
      erewrite bindM_ok; last first.
      { unfold setIndex. simpl. rewrite Hbs. rewrite lookup_insert_ne by done.
        rewrite Hb0.
        replace (Z.of_nat k) with (Z.of_nat (length (JRef <$> seq (next s) k)))
          by (by rewrite length_fmap, length_seq).
        rewrite aset_push. reflexivity. }
      assert (Es2 : set_store <[board s := (JRef <$> seq (next s) k) ++ [JRef l]]> s1 = s2).
      { unfold s2. do 3 f_equal. rewrite seq_S, fmap_app. simpl. unfold l. by rewrite Hn. }
      rewrite Es2.
      apply (fillRow_spec _ 0%nat _ l (JRef <$> seq (next s) (S k))).
      * simpl. rewrite Hbs. by rewrite lookup_insert_eq.
      * apply aget_lookup. rewrite list_lookup_fmap, lookup_seq_lt by lia.
        simpl. unfold l. by rewrite Hn.
      * simpl. by rewrite Hbs.
      * simpl. rewrite lookup_insert_ne by done. by rewrite lookup_insert_eq.
    + unfold s2, s1, store_wf, same_globals. simpl_state.
      split; [apply Hg|]. split.
      { intros l' Hl'. unfold l in *.
        rewrite lookup_insert_ne by lia. rewrite lookup_insert_ne by lia.
        rewrite lookup_insert_ne by lia. apply Hwf0. lia. }
      split; [unfold l; lia|]. split.
      { rewrite lookup_insert_ne by done. by rewrite lookup_insert_eq. }
      split.
      { intros l' Hl'. destruct (decide (l' = l)) as [->|Hne].
        - by rewrite lookup_insert_eq.
        - rewrite lookup_insert_ne by done. rewrite lookup_insert_ne by lia.
          rewrite lookup_insert_ne by done. apply Hrows. unfold l in *. lia. }
      { intros l' Hl' Hne. unfold l in *.
        rewrite lookup_insert_ne by lia. rewrite lookup_insert_ne by done.
        rewrite lookup_insert_ne by lia. by apply Hframe. }
Qed.

(** ** Matrices behind references *)

Lemma matrix_intro st l ls m :
  st !! l = Some (JRef <$> ls) → rows_at st ls m → matrix st (JRef l) = Some m.
Proof.
  intros Hl Hrows. unfold matrix. rewrite Hl. simpl.
  apply mapM_Some. apply Forall2_fmap_l. exact Hrows.
Qed.

Lemma rows_of_refs st (rows : list jsval) m :
  Forall2 (λ r a, match r with JRef l' => st !! l' | _ => None end = Some a) rows m →
  ∃ ls, rows = JRef <$> ls ∧ rows_at st ls m.
Proof.
  induction 1 as [|r a rows m Hr _ (ls & -> & Hls)].
  - exists []. split; [done | constructor].
  - destruct r as [| | |l']; try done.
    exists (l' :: ls). split; [done | by constructor].
Qed.

Lemma matrix_inv st v m :
  matrix st v = Some m →
  ∃ l ls, v = JRef l ∧ st !! l = Some (JRef <$> ls) ∧ rows_at st ls m.
Proof.
  unfold matrix. destruct v as [| | |l]; try done.
  destruct (st !! l) as [rows|] eqn:Hl; [|done]. simpl.
  intros Hm. apply mapM_Some in Hm.
  destruct (rows_of_refs _ _ _ Hm) as (ls & -> & Hls).
  by exists l, ls.
Qed.

Lemma rows_at_length st ls m : rows_at st ls m → length ls = length m.
Proof. apply Forall2_length. Qed.

Lemma rows_at_lookup st ls m (k : nat) a :
  rows_at st ls m → m !! k = Some a → ∃ l, ls !! k = Some l ∧ st !! l = Some a.
Proof.
  intros H Hk. destruct (Forall2_lookup_r _ _ _ _ _ H Hk) as (l & ? & ?). eauto.
Qed.

(** The store changed, but not under the rows. *)
Lemma rows_at_frame st st' ls m :
  rows_at st ls m → (∀ l, l ∈ ls → st' !! l = st !! l) → rows_at st' ls m.
Proof.
  intros H Hf. unfold rows_at in *. induction H as [|l a ls m Hl Hrest IH].
  - constructor.
  - constructor.
    + rewrite Hf; [done | by left].
    + apply IH. intros l' Hl'. apply Hf. by right.
Qed.

(** ** isValidMove on the views *)

Lemma bindR_lift {A B} (a : A) (f : A → R B) : liftR (Ok a) ≫= f = f a.
Proof. unfold mbind, R_bind, liftR. by destruct (f a). Qed.

Lemma forall_idx_true {A} (g : A → Z → bool) i a :
  forall_idx g i a = true ↔
  ∀ (k : nat) v, a !! k = Some v → g v (i + Z.of_nat k) = true.
Proof.
  revert i. induction a as [|w a IH]; intros i; simpl.
  - split; [intros _ k v Hk; done | done].
  - rewrite andb_true_iff, IH. split.
    + intros [H0 Hr] [|k] v Hk; simpl in Hk.
      * injection Hk as <-. by rewrite Z.add_0_r.
      * specialize (Hr k v Hk). rewrite <- Hr. f_equal. lia.
    + intros H. split.
      * specialize (H 0%nat w eq_refl). by rewrite Z.add_0_r in H.
      * intros k v Hk. specialize (H (S k) v Hk). rewrite <- H. f_equal. lia.
Qed.

Lemma forall_idx_false {A} (g : A → Z → bool) i a (k : nat) v :
  a !! k = Some v → g v (i + Z.of_nat k) = false → forall_idx g i a = false.
Proof.
  intros Hk Hg. destruct (forall_idx g i a) eqn:E; [|done].
  rewrite forall_idx_true in E. rewrite (E k v Hk) in Hg. done.
Qed.

Lemma everyR_ok {A B} (rel : A → B → Prop) (Q : Z * Z → Prop)
    (f : A → Z → R bool) (g : B → Z → bool) a b i :
  Forall2 rel a b →
  (∀ v w j, rel v w → i ≤ j →
     snd (f v j) = Ok (g w j) ∧ Forall Q (fst (f v j))) →
  snd (everyR f i a) = Ok (forall_idx g i b) ∧ Forall Q (fst (everyR f i a)).
Proof.
  intros HF. revert i. induction HF as [|v w a b Hvw _ IH]; intros i H.
  - split; [done | constructor].
  - cbn [everyR forall_idx].
    destruct (H v w i Hvw) as [H1 H2]; [lia|].
    destruct (IH (i + 1)) as [H3 H4]. { intros; apply H; [done | lia]. }
    unfold mbind, R_bind. destruct (f v i) as [w1 r1]. cbn [fst snd] in *. subst r1.
    destruct (g w i); cbn [andb].
    + destruct (everyR f (i + 1) a) as [w2 r2]. cbn [fst snd] in *. subst r2.
      split; [done | by apply Forall_app].
    + cbn. split; [done|]. by rewrite app_nil_r.
Qed.

Section ValidMove.
Variable s : state.
Variable rl : list loc.
Variable bv : list (list jsval).
Hypothesis Hboard : store s !! board s = Some (JRef <$> rl).
Hypothesis Hrows : rows_at (store s) rl bv.

Lemma board_row (newY : Z) :
  0 ≤ newY < Z.of_nat (length bv) →
  ∃ l, aget (JRef <$> rl) newY = JRef l ∧ store s !! l = Some (rowOf bv newY).
Proof.
  intros Hy. destruct (lookup_lt_is_Some_2 bv (Z.to_nat newY)) as [a Ha]; [lia|].
  destruct (rows_at_lookup _ _ _ _ _ Hrows Ha) as (l & Hl & Hst).
  exists l. split.
  - unfold aget. rewrite decide_True by lia.
    by rewrite list_lookup_fmap, Hl.
  - unfold rowOf. by rewrite Ha.
Qed.

Lemma cellFree_spec (newX newY : Z) :
  0 ≤ newY → Z.of_nat (length bv) = ROWS →
  snd (cellFree s newX newY) = Ok (cellFreeB bv newX newY) ∧
  Forall in_grid (fst (cellFree s newX newY)).
Proof.
  intros Hy Hlen. unfold cellFree, cellFreeB.
  destruct (0 <=? newX) eqn:E1; simpl; [|split; [done | constructor]].
  destruct (newX <? COLS) eqn:E2; simpl; [|split; [done | constructor]].
  destruct (newY <? ROWS) eqn:E3; simpl; [|split; [done | constructor]].
  destruct (board_row newY) as (l & Hl & Hst); [lia|].
  rewrite Hboard, Hl. simpl. rewrite Hst. simpl. split; [done|].
  repeat constructor; simpl; lia.
Qed.

(** A cell above the board, in a column of the board: [board[newY]] is
    looked up, it is [undefined], and indexing it throws. *)
Lemma cellFree_above (newX newY : Z) :
  newY < 0 → 0 ≤ newX < COLS →
  cellFree s newX newY = ([(newY, newX)], Throw TypeError).
Proof.
  intros Hy Hx. unfold cellFree.
  rewrite (proj2 (Z.leb_le _ _)) by lia.
  rewrite (proj2 (Z.ltb_lt _ _)) by lia.
  rewrite (proj2 (Z.ltb_lt newY ROWS)) by (unfold ROWS; lia).
  simpl. rewrite Hboard. by rewrite aget_neg.
Qed.

Lemma isValidMove_fits (x y : Z) (p : piece) (mv : list (list jsval)) :
  Z.of_nat (length bv) = ROWS → matrix (store s) (shape p) = Some mv → 0 ≤ y →
  snd (isValidMove s x y p) = Ok (fits bv mv x y) ∧
  Forall in_grid (fst (isValidMove s x y p)).
Proof.
  intros Hlen Hm Hy.
  destruct (matrix_inv _ _ _ Hm) as (sl & ml & Esh & Hsl & Hml).
  unfold isValidMove, fits. rewrite Esh. cbn [asArray]. rewrite Hsl.
  rewrite bindR_lift.
  match goal with |- context [everyR ?ff 0 (JRef <$> ml)] =>
    destruct (everyR_ok (λ (r : jsval) (a : list jsval),
                           ∃ l, r = JRef l ∧ store s !! l = Some a)
                in_grid ff
                (λ row dy, forall_idx (λ value dx,
                   negb (truthy value) || cellFreeB bv (x + dx) (y + dy)) 0 row)
                (JRef <$> ml) mv 0) as [H1 H2]
  end.
  - apply Forall2_fmap_l. eapply Forall2_impl; [exact Hml|].
    intros l a Hl. by exists l.
  - intros r a dy (l & -> & Hl) Hdy. cbn beta. cbn [asArray]. rewrite Hl.
    rewrite bindR_lift.
    match goal with |- context [everyR ?ff 0 a] =>
      destruct (everyR_ok eq in_grid ff
                  (λ value dx, negb (truthy value) || cellFreeB bv (x + dx) (y + dy))
                  a a 0) as [Ha1 Ha2]
    end.
    + by apply Forall_Forall2_diag, Forall_true.
    + intros v ? dx <- Hdx. destruct (truthy v); cbn [negb orb].
      * apply cellFree_spec; [lia | done].
      * split; [done | constructor].
    + destruct (everyR _ 0 a) as [w r]. cbn [fst snd app] in *. done.
  - destruct (everyR _ 0 (JRef <$> ml)) as [w r]. cbn [fst snd app] in *. done.
Qed.
End ValidMove.

(** ** The steps of the script under the invariants *)

Lemma boot_bounds : board boot = 0%nat ∧ next boot = 21%nat.
Proof. by vm_compute. Qed.

Lemma BInv_boardView s rl bv : BInv s rl bv → boardView s = Some bv.
Proof.
  intros H. unfold boardView.
  exact (matrix_intro _ _ _ _ (b_board _ _ _ H) (b_rows _ _ _ H)).
Qed.

Lemma MInv_maskView s rl bv sl ml mv :
  MInv s rl bv sl ml mv → maskView s = Some mv.
Proof.
  intros H. unfold maskView. rewrite (m_shape _ _ _ _ _ _ H).
  exact (matrix_intro _ _ _ _ (m_outer _ _ _ _ _ _ H) (m_rows _ _ _ _ _ _ H)).
Qed.

Lemma rows_at_insert st rl bv (k : nat) r a :
  rows_at st rl bv → NoDup rl → rl !! k = Some r →
  rows_at (<[r := a]> st) rl (<[k := a]> bv).
Proof.
  intros H Hnd Hk. unfold rows_at in *.
  apply Forall2_same_length_lookup. split.
  - rewrite length_insert. by eapply Forall2_length.
  - intros i x y Hx Hy. destruct (decide (i = k)) as [->|Hne].
    + assert (x = r) as -> by congruence.
      assert (Hlt : (k < length bv)%nat).
      { rewrite <- (Forall2_length _ _ _ H). by eapply lookup_lt_Some. }
      rewrite list_lookup_insert_eq in Hy by done.
      injection Hy as <-. apply lookup_insert_eq.
    + rewrite list_lookup_insert_ne in Hy by done.
      rewrite lookup_insert_ne.
      * exact (Forall2_lookup_lr _ _ _ _ _ _ H Hx Hy).
      * intros <-. apply Hne. symmetry. eapply NoDup_lookup; eauto.
Qed.

Lemma grid_insert bv (k : nat) row (X : Z) v :
  grid bv → bv !! k = Some row → is_cell v →
  grid (<[k := <[Z.to_nat X := v]> row]> bv).
Proof.
  intros [Hlen Hall] Hk Hv. split.
  - by rewrite length_insert.
  - apply Forall_insert; [done|].
    destruct (Forall_lookup_1 _ _ _ _ Hall Hk) as [Hl Hc].
    split; [by rewrite length_insert | by apply Forall_insert].
Qed.

Lemma grid_row bv (k : nat) row :
  grid bv → bv !! k = Some row → Z.of_nat (length row) = COLS.
Proof. intros [_ Hall] Hk. by destruct (Forall_lookup_1 _ _ _ _ Hall Hk). Qed.

(** *** placePiece, first part: the cells of the piece *)

(** board[Y][X] = v, inside the grid. *)
Lemma setCell_spec s rl bv (X Y : Z) v :
  BInv s rl bv → 0 ≤ Y < ROWS → 0 ≤ X < COLS → is_cell v →
  ∃ s' bv',
    (r ← liftM (λ s, getIndex (store s) (JRef (board s)) Y); setIndex r X v) s
      = (s', Ok tt) ∧
    BInv s' rl bv' ∧ same_globals s s' ∧ next s' = next s ∧
    (∀ l : loc, l ∉ rl → store s' !! l = store s !! l).
Proof.
  intros HB HY HX Hv.
  pose proof (b_grid _ _ _ HB) as Hg. pose proof Hg as [Hlen Hall].
  destruct (board_row s rl bv (b_rows _ _ _ HB) Y) as (r & Hr & Hst);
    [lia|].
  destruct (lookup_lt_is_Some_2 bv (Z.to_nat Y)) as [row Hrow]; [lia|].
  assert (Hrl : rl !! Z.to_nat Y = Some r).
  { destruct (rows_at_lookup _ _ _ _ _ (b_rows _ _ _ HB) Hrow) as (r' & Hr' & _).
    unfold aget in Hr. rewrite decide_True in Hr by lia.
    rewrite list_lookup_fmap, Hr' in Hr. simpl in Hr. congruence. }
  assert (rowOf bv Y = row) as Erow by (unfold rowOf; by rewrite Hrow).
  rewrite Erow in Hst.
  pose proof (grid_row _ _ _ Hg Hrow) as Hrowlen.
  pose proof (b_nodup _ _ _ HB) as Hnd. apply NoDup_cons in Hnd as [Hbnot Hnd].
  assert (Hin : r ∈ rl) by (eapply list_elem_of_lookup_2; eauto).
  assert (Hrb : r ≠ board s) by (intros ->; done).
  exists (set_store <[r := <[Z.to_nat X := v]> row]> s),
         (<[Z.to_nat Y := <[Z.to_nat X := v]> row]> bv).
  split.
  { erewrite bindM_lift; [| cbn [getIndex]; rewrite (b_board _ _ _ HB), Hr; reflexivity].
    unfold setIndex. rewrite Hst. unfold aset.
    rewrite decide_False by lia. rewrite decide_True by lia. reflexivity. }
  split.
  { constructor; unfold store_wf, catalog_intact; simpl_state.
    - intros l Hl. rewrite lookup_insert_ne.
      + by apply (b_wf _ _ _ HB).
      + intros <-. pose proof (store_wf_lt _ _ _ (b_wf _ _ _ HB) Hst). lia.
    - intros l Hl. rewrite lookup_insert_ne; [by apply (b_catalog _ _ _ HB)|].
      intros <-. pose proof (b_fresh _ _ _ HB) as Hf.
      apply Forall_cons in Hf as [_ Hf]. rewrite Forall_forall in Hf.
      by apply (Hf r).
    - exact (b_next _ _ _ HB).
    - rewrite lookup_insert_ne by done. exact (b_board _ _ _ HB).
    - apply rows_at_insert; [exact (b_rows _ _ _ HB) | done | done].
    - exact (b_nodup _ _ _ HB).
    - exact (b_fresh _ _ _ HB).
    - by apply grid_insert. }
  split; [by repeat split|]. split; [done|].
  intros l Hl. simpl_state. rewrite lookup_insert_ne; [done|]. by intros <-.
Qed.

Lemma cellFreeB_true bv X Y :
  cellFreeB bv X Y = true →
  0 ≤ X < COLS ∧ Y < ROWS ∧ aget (rowOf bv Y) X = EMPTY.
Proof.
  unfold cellFreeB, strict_eq. rewrite !andb_true_iff.
  intros [[[H1 H2] H3] H4]. apply bool_decide_eq_true in H4.
  apply Z.leb_le in H1. apply Z.ltb_lt in H2. apply Z.ltb_lt in H3. done.
Qed.

(** Where the piece fits, every occupied cell of its mask is over an
    empty cell of the grid. *)
Lemma fits_cell bv mv x y (k j : nat) row v :
  fits bv mv x y = true → mv !! k = Some row → row !! j = Some v →
  truthy v = true →
  0 ≤ x + Z.of_nat j < COLS ∧ y + Z.of_nat k < ROWS ∧
  aget (rowOf bv (y + Z.of_nat k)) (x + Z.of_nat j) = EMPTY.
Proof.
  intros Hf Hk Hj Hv. unfold fits in Hf.
  rewrite forall_idx_true in Hf. specialize (Hf k row Hk). cbn beta in Hf.
  rewrite forall_idx_true in Hf. specialize (Hf j v Hj). cbn beta in Hf.
  rewrite Hv in Hf. cbn [negb orb] in Hf. rewrite !Z.add_0_l in Hf.
  by apply cellFreeB_true.
Qed.

Lemma placeCells_spec s rl bv sl ml mv :
  BInv s rl bv → MInv s rl bv sl ml mv →
  ∃ s' bv',
    placeCells s = (s', Ok tt) ∧ BInv s' rl bv' ∧ same_globals s s' ∧
    next s' = next s ∧ (∀ l : loc, l ∉ rl → store s' !! l = store s !! l).
Proof.
  intros HB HM.
  set (P := λ (_ : nat) (s0 : state), ∃ bv0,
    BInv s0 rl bv0 ∧ same_globals s s0 ∧ next s0 = next s ∧
    (∀ l : loc, l ∉ rl → store s0 !! l = store s !! l)).
  assert (HP0 : P 0%nat s).
  { exists bv. split; [done|]. split; [apply same_globals_refl | done]. }
  pose proof (m_sep _ _ _ _ _ _ HM) as Hsep.
  apply Forall_cons in Hsep as [_ Hsep]. rewrite Forall_forall in Hsep.
  unfold placeCells.
  erewrite bindM_lift;
    [| rewrite (m_shape _ _ _ _ _ _ HM); cbn [asArray];
       rewrite (m_outer _ _ _ _ _ _ HM); reflexivity].
  match goal with |- context [forEachM ?ff 0 (JRef <$> ml) s] =>
    destruct (forEachM_inv P ff (JRef <$> ml) 0 s HP0) as (s' & E & bv' & HP')
  end; [| exists s', bv'; split; [exact E | exact HP']].
  intros k v s0 Hk HPk.
  rewrite list_lookup_fmap in Hk.
  destruct (ml !! k) as [l|] eqn:Hl; [|done]. injection Hk as <-.
  destruct (Forall2_lookup_l _ _ _ _ _ (m_rows _ _ _ _ _ _ HM) Hl) as (row & Hrow & Hst).
  assert (Hlrl : l ∉ rl).
  { intros Hin. apply (Hsep l); [by eapply list_elem_of_lookup_2 | by right]. }
  assert (Hst0 : store s0 !! l = Some row).
  { destruct HPk as (bv0 & _ & _ & _ & Hfr). by rewrite Hfr. }
  erewrite bindM_lift; [| cbn [asArray]; rewrite Hst0; reflexivity].
  match goal with |- context [forEachM ?ff 0 row s0] =>
    destruct (forEachM_inv P ff row 0 s0 HPk) as (s1 & E1 & HP1)
  end; [| exists s1; split; [exact E1 | exact HP1]].
  intros j value s2 Hj (bv2 & HB2 & Hg2 & Hn2 & Hfr2).
  destruct (truthy value) eqn:Hv.
  - destruct (fits_cell _ _ _ _ _ _ _ _ (m_fits _ _ _ _ _ _ HM) Hrow Hj Hv)
      as (HX & HY & _).
    pose proof (m_y _ _ _ _ _ _ HM) as Hy.
    destruct Hg2 as (Eb & Esc & Ep & Ex & Ey & Eev).
    rewrite bindM_get.
    destruct (setCell_spec s2 rl bv2 (currentX s2 + (0 + Z.of_nat j))
                (currentY s2 + (0 + Z.of_nat k))
                (JStr (color (currentPiece s2))) HB2)
      as (s3 & bv3 & E3 & HB3 & Hg3 & Hn3 & Hfr3).
    + rewrite Ey. lia.
    + rewrite Ex. lia.
    + right. rewrite Ep. exact (m_color _ _ _ _ _ _ HM).
    + exists s3. split; [exact E3|]. exists bv3. split; [done|].
      split; [eapply same_globals_trans; [|exact Hg3]; by repeat split|].
      split; [congruence|].
      intros l' Hl'. rewrite Hfr3 by done. by apply Hfr2.
  - exists s2. split; [done|]. by exists bv2.
Qed.

(** *** clearLines *)

Lemma asplice1_delete (ls : list loc) (row : nat) :
  (row < length ls)%nat →
  asplice1 (JRef <$> ls) (Z.of_nat row) = JRef <$> delete row ls.
Proof.
  intros Hrow. unfold asplice1. rewrite decide_False by lia.
  rewrite length_fmap. rewrite Z.min_l by lia. rewrite Nat2Z.id.
  by rewrite list_fmap_delete, delete_take_drop.
Qed.

Lemma emptyRow_grid : Z.of_nat (length emptyRow) = COLS ∧ Forall is_cell emptyRow.
Proof.
  split; [done|]. apply Forall_forall. intros v Hv.
  apply elem_of_replicate in Hv as [-> _]. by left.
Qed.

(** One cleared row: the row leaves the outer array, a fresh empty row
    enters in front. *)
Lemma clearRow_spec s rl bv (row : nat) :
  BInv s rl bv → (row < length rl)%nat →
  ∃ s', clearRow (Z.of_nat row) s = (s', Ok tt) ∧
    BInv s' (next s :: delete row rl) (emptyRow :: delete row bv) ∧
    same_globals s s' ∧ next s' = S (next s) ∧
    (∀ l : loc, l ≠ board s → (l < next s)%nat → store s' !! l = store s !! l).
Proof.
  intros HB Hrow.
  pose proof (b_wf _ _ _ HB) as Hwf.
  pose proof (b_board _ _ _ HB) as Hb.
  pose proof (store_wf_lt _ _ _ Hwf Hb) as Hblt.
  pose proof (b_nodup _ _ _ HB) as Hnd. apply NoDup_cons in Hnd as [Hbnot Hnd].
  pose proof (b_fresh _ _ _ HB) as Hfr. apply Forall_cons in Hfr as [Hbc Hfr].
  pose proof (b_next _ _ _ HB) as Hnext.
  assert (Hrl_lt : ∀ l, l ∈ rl → (l < next s)%nat).
  { intros l Hl. apply list_elem_of_lookup in Hl as [k Hk].
    destruct (Forall2_lookup_l _ _ _ _ _ (b_rows _ _ _ HB) Hk) as (a & _ & Ha).
    by eapply store_wf_lt. }
  set (l := next s).
  set (st1 := <[board s := JRef <$> delete row rl]> (store s)).
  set (st2 := <[l := emptyRow]> st1).
  set (st3 := <[board s := JRef l :: (JRef <$> delete row rl)]> st2).
  exists (State st3 (S l) (board s) (score s) (currentPiece s)
            (currentX s) (currentY s) (events s)).
  split.
  { unfold clearRow. rewrite bindM_get.
    erewrite bindM_ok; last first.
    { unfold updArray. rewrite Hb. rewrite asplice1_delete by done. reflexivity. }
    erewrite bindM_ok; [| reflexivity].
    unfold updArray. simpl_state. rewrite lookup_insert_ne by (unfold l; lia).
    rewrite lookup_insert_eq. reflexivity. }
  split.
  { constructor; unfold store_wf, catalog_intact; simpl_state; unfold st3, st2, st1.
    - intros l' Hl'. rewrite !lookup_insert_ne by (unfold l in *; lia).
      apply Hwf. unfold l in *. lia.
    - intros l' Hl'. rewrite lookup_insert_ne by (intros <-; done).
      rewrite lookup_insert_ne by (unfold is_catalog, l in *; lia).
      rewrite lookup_insert_ne by (intros <-; done).
      by apply (b_catalog _ _ _ HB).
    - unfold l. lia.
    - by rewrite lookup_insert_eq.
    - constructor.
      + rewrite lookup_insert_ne by (unfold l; lia). by rewrite lookup_insert_eq.
      + eapply rows_at_frame.
        * apply Forall2_delete. exact (b_rows _ _ _ HB).
        * intros l' Hl'. apply list_elem_of_delete_inv in Hl'.
          pose proof (Hrl_lt l' Hl').
          rewrite lookup_insert_ne by (intros <-; done).
          rewrite lookup_insert_ne by (unfold l; lia).
          rewrite lookup_insert_ne by (intros <-; done). done.
    - apply NoDup_cons. split.
      + rewrite not_elem_of_cons. split; [unfold l; lia|].
        intros Hin. by apply list_elem_of_delete_inv in Hin.
      + apply NoDup_cons. split.
        * intros Hin. apply list_elem_of_delete_inv in Hin.
          apply Hrl_lt in Hin. unfold l in Hin. lia.
        * eapply sublist_NoDup; [exact Hnd | apply sublist_delete].
    - apply Forall_cons. split; [done|]. apply Forall_cons. split.
      + unfold is_catalog, l. lia.
      + by apply Forall_delete.
    - destruct (b_grid _ _ _ HB) as [Hlen Hall]. split.
      + cbn [length]. rewrite length_delete.
        * rewrite <- Hlen. pose proof (rows_at_length _ _ _ (b_rows _ _ _ HB)). lia.
        * apply lookup_lt_is_Some_2.
          rewrite <- (rows_at_length _ _ _ (b_rows _ _ _ HB)). done.
      + apply Forall_cons. split; [apply emptyRow_grid | by apply Forall_delete]. }
  split; [by repeat split|]. split; [done|].
  intros l' Hne Hlt. simpl_state. unfold st3, st2, st1.
  rewrite lookup_insert_ne by done.
  rewrite lookup_insert_ne by (unfold l; lia).
  by rewrite lookup_insert_ne by done.
Qed.

Lemma clearLoop_spec (n : nat) s rl bv (cnt : Z) :
  BInv s rl bv → (n ≤ length rl)%nat →
  ∃ s' rl',
    clearLoop n cnt s = (s', Ok (clearLoopV n bv cnt).2) ∧
    BInv s' rl' (clearLoopV n bv cnt).1 ∧
    same_globals s s' ∧ (next s ≤ next s')%nat ∧
    (∀ l : loc, l ≠ board s → (l < next s)%nat → store s' !! l = store s !! l) ∧
    (∀ l : loc, l ∈ rl' → l ∈ rl ∨ (next s ≤ l)%nat).
Proof.
  revert s rl bv cnt. induction n as [|k IH]; intros s rl bv cnt HB Hn.
  - exists s, rl. cbn [clearLoop clearLoopV fst snd].
    split; [done|]. split; [done|]. split; [apply same_globals_refl|].
    split; [lia|]. split; [done | by left].
  - cbn [clearLoop clearLoopV].
    pose proof (rows_at_length _ _ _ (b_rows _ _ _ HB)) as Hlen.
    destruct (board_row s rl bv (b_rows _ _ _ HB) (Z.of_nat k)) as (r & Hr & Hst);
      [lia|].
    erewrite bindM_lift;
      [| cbn [getIndex]; rewrite (b_board _ _ _ HB), Hr; reflexivity].
    erewrite bindM_lift; [| cbn [asArray]; rewrite Hst; reflexivity].
    destruct (rowFull (rowOf bv (Z.of_nat k))) eqn:Hfull.
    + destruct (clearRow_spec s rl bv k HB) as (s1 & E1 & HB1 & Hg1 & Hn1 & Hfr1); [lia|].
      erewrite bindM_ok; [| exact E1].
      destruct (IH s1 _ _ (cnt + 1) HB1) as (s' & rl' & E' & HB' & Hg' & Hn' & Hfr' & Hin').
      { cbn [length]. rewrite length_delete; [lia|]. apply lookup_lt_is_Some_2. lia. }
      exists s', rl'. split; [exact E'|]. split; [done|].
      split; [by eapply same_globals_trans|]. split; [lia|].
      assert (Hb1 : board s1 = board s) by apply Hg1.
      split.
      * intros l Hne Hlt. rewrite Hfr'; [by apply Hfr1 | by rewrite Hb1 | lia].
      * intros l Hl. destruct (Hin' l Hl) as [Hl'|Hl']; [|right; lia].
        apply elem_of_cons in Hl' as [->|Hl']; [right; lia|].
        left. by eapply list_elem_of_delete_inv.
    + destruct (IH s rl bv cnt HB) as (s' & rl' & E' & H'); [lia|].
      by exists s', rl'.
Qed.

Lemma clearLines_spec s rl bv :
  BInv s rl bv →
  ∃ s' rl',
    clearLines s = (s', Ok tt) ∧ BInv s' rl' (clearLinesV bv).1 ∧
    score s' = score s + (clearLinesV bv).2 * 10 ∧
    events s' = events s ++
      (if 0 <? (clearLinesV bv).2 then [ScoreText (score s')] else []) ∧
    board s' = board s ∧ currentPiece s' = currentPiece s ∧
    currentX s' = currentX s ∧ currentY s' = currentY s ∧
    (next s ≤ next s')%nat ∧
    (∀ l : loc, l ≠ board s → (l < next s)%nat → store s' !! l = store s !! l) ∧
    (∀ l : loc, l ∈ rl' → l ∈ rl ∨ (next s ≤ l)%nat).
Proof.
  intros HB.
  pose proof (rows_at_length _ _ _ (b_rows _ _ _ HB)) as Hlen.
  destruct (b_grid _ _ _ HB) as [Hrows _].
  destruct (clearLoop_spec (Z.to_nat ROWS) s rl bv 0 HB)
    as (s1 & rl' & E1 & HB1 & Hg1 & Hn1 & Hfr1 & Hin1); [lia|].
  fold (clearLinesV bv) in E1, HB1.
  destruct Hg1 as (Eb & Esc & Ep & Ex & Ey & Eev).
  unfold clearLines. erewrite bindM_ok; [| exact E1].
  destruct (0 <? (clearLinesV bv).2) eqn:Hpos.
  - exists (emit (ScoreText (score s1 + (clearLinesV bv).2 * 10))
             (set_score (score s1 + (clearLinesV bv).2 * 10) s1)), rl'.
    split; [reflexivity|]. split.
    { destruct HB1. constructor; done. }
    simpl_state. rewrite Esc, Eev. done.
  - exists s1, rl'. split; [reflexivity|]. split; [done|].
    rewrite Esc, Eev, app_nil_r.
    assert ((clearLinesV bv).2 = 0) as ->; [|repeat split; try done; lia].
    assert (∀ n bv' c, c ≤ (clearLoopV n bv' c).2) as Hmono.
    { induction n as [|n IHn]; intros bv' c; cbn [clearLoopV snd]; [lia|].
      destruct (rowFull _); [specialize (IHn (emptyRow :: delete n bv') (c + 1)) |
                                specialize (IHn bv' c)]; lia. }
    specialize (Hmono (Z.to_nat ROWS) bv 0). fold (clearLinesV bv) in Hmono.
    apply Z.ltb_ge in Hpos. lia.
Qed.

(** *** The catalog and newPiece *)

Lemma boot_lookup (k : nat) a :
  catalog_arrays !! k = Some a → store boot !! S k = Some a.
Proof.
  do 20 (destruct k as [|k]; [intros [= <-]; by vm_compute|]).
  intros H. by vm_compute in H.
Qed.

Lemma catalog_lookup st (k : nat) a :
  catalog_intact st → catalog_arrays !! k = Some a → st !! S k = Some a.
Proof.
  intros Hc Hk. rewrite Hc; [by apply boot_lookup|].
  apply lookup_lt_Some in Hk. change (length catalog_arrays) with 20%nat in Hk.
  unfold is_catalog. lia.
Qed.

(** An entry that is an array of rows is used as it is. *)
Lemma newPiece_rows s i c (entries rows row0 : list jsval) (p r0 : loc) :
  store s !! 20%nat = Some entries → aget entries i = JRef p →
  store s !! p = Some rows → aget rows 0 = JRef r0 →
  store s !! r0 = Some row0 →
  newPiece i c s =
    (State (store s) (next s) (board s) (score s)
           (Piece (JRef p) (colorString c))
           (COLS / 2 - Z.of_nat (length row0) / 2) 0 (events s), Ok tt).
Proof.
  intros H20 Hi Hp H0 Hr0. unfold newPiece, PIECES.
  erewrite bindM_lift; [| cbn [getIndex]; rewrite H20, Hi; reflexivity].
  erewrite bindM_lift; [| cbn [getIndex]; rewrite Hp, H0; reflexivity].
  cbn [isArray]. erewrite bindM_ok; [| reflexivity].
  rewrite bindM_modify.
  erewrite bindM_lift; [| simpl_state; cbn [getIndex]; rewrite Hp, H0; reflexivity].
  erewrite bindM_lift; [| simpl_state; cbn [getLength]; rewrite Hr0; reflexivity].
  reflexivity.
Qed.

(** A flat entry is wrapped in a fresh one-element array. *)
Lemma newPiece_flat s i c (entries flat : list jsval) (p : loc) :
  store_wf s →
  store s !! 20%nat = Some entries → aget entries i = JRef p →
  store s !! p = Some flat → isArray (aget flat 0) = false →
  newPiece i c s =
    (State (<[next s := [JRef p]]> (store s)) (S (next s)) (board s) (score s)
           (Piece (JRef (next s)) (colorString c))
           (COLS / 2 - Z.of_nat (length flat) / 2) 0 (events s), Ok tt).
Proof.
  intros Hwf H20 Hi Hp H0. unfold newPiece, PIECES.
  pose proof (store_wf_lt _ _ _ Hwf Hp) as Hlt.
  erewrite bindM_lift; [| cbn [getIndex]; rewrite H20, Hi; reflexivity].
  erewrite bindM_lift; [| cbn [getIndex]; rewrite Hp; reflexivity].
  rewrite H0. erewrite bindM_ok; [| reflexivity].
  rewrite bindM_modify.
  erewrite bindM_lift;
    [| simpl_state; cbn [getIndex]; rewrite lookup_insert_eq; reflexivity].
  erewrite bindM_lift;
    [| simpl_state; change (aget [JRef p] 0) with (JRef p); cbn [getLength];
       rewrite lookup_insert_ne by lia; rewrite Hp; reflexivity].
  reflexivity.
Qed.

Lemma newPiece_spec s i c :
  store_wf s → catalog_intact (store s) → (21 ≤ next s)%nat → draw_ok i c →
  ∃ s' mask sl ml,
    newPiece i c s = (s', Ok tt) ∧
    canonical !! Z.to_nat i = Some mask ∧
    currentPiece s' = Piece (JRef sl) (colorString c) ∧
    store s' !! sl = Some (JRef <$> ml) ∧ rows_at (store s') ml mask ∧
    (is_catalog sl ∨ sl = next s) ∧ Forall is_catalog ml ∧
    currentX s' = spawnX mask ∧ currentY s' = 0 ∧
    board s' = board s ∧ score s' = score s ∧ events s' = events s ∧
    (next s ≤ next s')%nat ∧ store_wf s' ∧
    (∀ l : loc, (l < next s)%nat → store s' !! l = store s !! l).
Proof.
  intros Hwf Hcat Hnext [Hi Hc].
  pose proof (catalog_lookup _ 19 _ Hcat eq_refl) as H20.
  assert (i = 0 ∨ i = 1 ∨ i = 2 ∨ i = 3 ∨ i = 4 ∨ i = 5 ∨ i = 6)
    as [->|[->|[->|[->|[->|[->| ->]]]]]] by lia.
  - (* I *)
    pose proof (catalog_lookup _ 0 _ Hcat eq_refl) as Hp.
    eexists _, _, (next s), [1%nat].
    split; [eapply newPiece_flat; [done | exact H20 | reflexivity | exact Hp | reflexivity]|].
    split; [reflexivity|]. split; [reflexivity|]. simpl_state.
    split; [by rewrite lookup_insert_eq|].
    split.
    { repeat constructor. rewrite lookup_insert_ne by lia. exact Hp. }
    split; [by right|]. split; [repeat constructor; unfold is_catalog; lia|].
    unfold store_wf. simpl_state. repeat split; try done; try lia.
    + intros l Hl. rewrite lookup_insert_ne by lia. apply Hwf. lia.
    + intros l Hl. by rewrite lookup_insert_ne by lia.
  - (* T *)
    pose proof (catalog_lookup _ 3 _ Hcat eq_refl) as Hp.
    pose proof (catalog_lookup _ 1 _ Hcat eq_refl) as Hr0.
    pose proof (catalog_lookup _ 2 _ Hcat eq_refl) as Hr1.
    eexists _, _, 4%nat, [2%nat; 3%nat].
    split; [eapply newPiece_rows; [exact H20 | reflexivity | exact Hp | reflexivity | exact Hr0]|].
    split; [reflexivity|]. split; [reflexivity|]. simpl_state.
    split; [exact Hp|]. split; [by repeat constructor|].
    split; [left; unfold is_catalog; lia|].
    split; [repeat constructor; unfold is_catalog; lia|].
    repeat split; try done; lia.
  - (* O *)
    pose proof (catalog_lookup _ 6 _ Hcat eq_refl) as Hp.
    pose proof (catalog_lookup _ 4 _ Hcat eq_refl) as Hr0.
    pose proof (catalog_lookup _ 5 _ Hcat eq_refl) as Hr1.
    eexists _, _, 7%nat, [5%nat; 6%nat].
    split; [eapply newPiece_rows; [exact H20 | reflexivity | exact Hp | reflexivity | exact Hr0]|].
    split; [reflexivity|]. split; [reflexivity|]. simpl_state.
    split; [exact Hp|]. split; [by repeat constructor|].
    split; [left; unfold is_catalog; lia|].
    split; [repeat constructor; unfold is_catalog; lia|].
    repeat split; try done; lia.
  - (* S *)
    pose proof (catalog_lookup _ 9 _ Hcat eq_refl) as Hp.
    pose proof (catalog_lookup _ 7 _ Hcat eq_refl) as Hr0.
    pose proof (catalog_lookup _ 8 _ Hcat eq_refl) as Hr1.
    eexists _, _, 10%nat, [8%nat; 9%nat].
    split; [eapply newPiece_rows; [exact H20 | reflexivity | exact Hp | reflexivity | exact Hr0]|].
    split; [reflexivity|]. split; [reflexivity|]. simpl_state.
    split; [exact Hp|]. split; [by repeat constructor|].
    split; [left; unfold is_catalog; lia|].
    split; [repeat constructor; unfold is_catalog; lia|].
    repeat split; try done; lia.
  - (* Z *)
    pose proof (catalog_lookup _ 12 _ Hcat eq_refl) as Hp.
    pose proof (catalog_lookup _ 10 _ Hcat eq_refl) as Hr0.
    pose proof (catalog_lookup _ 11 _ Hcat eq_refl) as Hr1.
    eexists _, _, 13%nat, [11%nat; 12%nat].
    split; [eapply newPiece_rows; [exact H20 | reflexivity | exact Hp | reflexivity | exact Hr0]|].
    split; [reflexivity|]. split; [reflexivity|]. simpl_state.
    split; [exact Hp|]. split; [by repeat constructor|].
    split; [left; unfold is_catalog; lia|].
    split; [repeat constructor; unfold is_catalog; lia|].
    repeat split; try done; lia.
  - (* L *)
    pose proof (catalog_lookup _ 15 _ Hcat eq_refl) as Hp.
    pose proof (catalog_lookup _ 13 _ Hcat eq_refl) as Hr0.
    pose proof (catalog_lookup _ 14 _ Hcat eq_refl) as Hr1.
    eexists _, _, 16%nat, [14%nat; 15%nat].
    split; [eapply newPiece_rows; [exact H20 | reflexivity | exact Hp | reflexivity | exact Hr0]|].
    split; [reflexivity|]. split; [reflexivity|]. simpl_state.
    split; [exact Hp|]. split; [by repeat constructor|].
    split; [left; unfold is_catalog; lia|].
    split; [repeat constructor; unfold is_catalog; lia|].
    repeat split; try done; lia.
  - (* J *)
    pose proof (catalog_lookup _ 18 _ Hcat eq_refl) as Hp.
    pose proof (catalog_lookup _ 16 _ Hcat eq_refl) as Hr0.
    pose proof (catalog_lookup _ 17 _ Hcat eq_refl) as Hr1.
    eexists _, _, 19%nat, [17%nat; 18%nat].
    split; [eapply newPiece_rows; [exact H20 | reflexivity | exact Hp | reflexivity | exact Hr0]|].
    split; [reflexivity|]. split; [reflexivity|]. simpl_state.
    split; [exact Hp|]. split; [by repeat constructor|].
    split; [left; unfold is_catalog; lia|].
    split; [repeat constructor; unfold is_catalog; lia|].
    repeat split; try done; lia.
Qed.

(** *** gameOver *)

Lemma emptyBoard_grid : grid emptyBoard.
Proof.
  split; [done|]. apply Forall_forall. intros row Hrow.
  apply elem_of_replicate in Hrow as [-> _]. apply emptyRow_grid.
Qed.

Lemma rows_at_seq st (n : loc) (k : nat) a :
  (∀ l : loc, (n ≤ l < n + k)%nat → st !! l = Some a) →
  rows_at st (seq n k) (replicate k a).
Proof.
  intros H. apply Forall2_same_length_lookup. split.
  - by rewrite length_seq, length_replicate.
  - intros i l a' Hl Ha. apply lookup_seq in Hl as [-> Hi].
    apply lookup_replicate in Ha as [-> _]. apply H. lia.
Qed.

Lemma gameOver_spec s :
  store_wf s → catalog_intact (store s) → (21 ≤ next s)%nat →
  ∃ s' rl',
    gameOver s = (s', Ok tt) ∧ BInv s' rl' emptyBoard ∧ score s' = 0 ∧
    events s' = events s ++ [Alert gameOverMessage; ScoreText 0] ∧
    currentPiece s' = currentPiece s ∧
    currentX s' = currentX s ∧ currentY s' = currentY s ∧
    (next s ≤ next s')%nat ∧
    (∀ l : loc, (l < next s)%nat → store s' !! l = store s !! l) ∧
    Forall (λ l : loc, (next s ≤ l)%nat) (board s' :: rl').
Proof.
  intros Hwf Hcat Hnext.
  set (s1 := State (<[next s := []]> (store s)) (S (next s)) (next s) (score s)
                   (currentPiece s) (currentX s) (currentY s)
                   (events s ++ [Alert gameOverMessage])).
  destruct (createBoard_spec s1) as (s2 & E2 & Hg2 & Hwf2 & Hn2 & Hb2 & Hrows2 & Hfr2).
  { intros l Hl. unfold s1 in *. simpl_state.
    rewrite lookup_insert_ne by lia. apply Hwf. lia. }
  { unfold s1. simpl_state. by rewrite lookup_insert_eq. }
  destruct Hg2 as (Eb & Esc & Ep & Ex & Ey & Eev).
  unfold s1 in Eb, Esc, Ep, Ex, Ey, Eev, Hn2, Hb2, Hrows2, Hfr2. simpl_state.
  exists (emit (ScoreText 0) (set_score 0 s2)), (seq (S (next s)) (Z.to_nat ROWS)).
  split.
  { unfold gameOver. rewrite bindM_modify.
    erewrite bindM_ok; [| reflexivity]. rewrite bindM_modify.
    erewrite bindM_ok; [| exact E2]. rewrite bindM_modify. reflexivity. }
  split.
  { constructor; unfold store_wf, catalog_intact; simpl_state.
    - exact Hwf2.
    - intros l Hl. unfold is_catalog in Hl. rewrite Hfr2 by lia.
      rewrite lookup_insert_ne by lia. by apply Hcat.
    - lia.
    - by rewrite Eb.
    - apply rows_at_seq. exact Hrows2.
    - rewrite Eb. change (NoDup (seq (next s) (S (Z.to_nat ROWS)))). apply NoDup_seq.
    - rewrite Eb. apply Forall_forall. intros l Hl.
      change (l ∈ seq (next s) (S (Z.to_nat ROWS))) in Hl.
      apply elem_of_seq in Hl. unfold is_catalog. lia.
    - apply emptyBoard_grid. }
  simpl_state. split; [done|]. split; [by rewrite Eev, <- app_assoc|].
  split; [done|]. split; [done|]. split; [done|]. split; [lia|]. split.
  - intros l Hl. rewrite Hfr2 by lia. by rewrite lookup_insert_ne by lia.
  - rewrite Eb. apply Forall_forall. intros l Hl.
    change (l ∈ seq (next s) (S (Z.to_nat ROWS))) in Hl.
    apply elem_of_seq in Hl. lia.
Qed.

(** *** rotatePiece *)

Lemma mapM_getIndex st ml mv (i : Z) :
  rows_at st ml mv →
  mapM (λ row, getIndex st row i) (JRef <$> ml) = Ok ((λ a, aget a i) <$> mv).
Proof.
  induction 1 as [|l a ml mv Hl _ IH]; [done|].
  rewrite !fmap_cons. cbn [mapM]. cbn [getIndex]. rewrite Hl.
  cbn [mbind result_bind]. rewrite IH. reflexivity.
Qed.

Lemma rotatedRow_spec s sl ml mv (i : Z) :
  store_wf s → shape (currentPiece s) = JRef sl →
  store s !! sl = Some (JRef <$> ml) → rows_at (store s) ml mv →
  rotatedRow i s =
    (State (<[next s := reverse ((λ a, aget a i) <$> mv)]> (store s))
           (S (next s)) (board s) (score s) (currentPiece s)
           (currentX s) (currentY s) (events s),
     Ok (JRef (next s))).
Proof.
  intros Hwf Hsh Hsl Hml. unfold rotatedRow.
  erewrite bindM_lift; [| rewrite Hsh; cbn [asArray]; rewrite Hsl; reflexivity].
  erewrite bindM_lift; [| by apply mapM_getIndex].
  erewrite bindM_ok; [| reflexivity].
  erewrite bindM_ok; last first.
  { unfold updArray. simpl_state. rewrite lookup_insert_eq. reflexivity. }
  simpl_state. rewrite insert_insert_eq. reflexivity.
Qed.

Lemma rotate_loop sl ml mv (cells : list jsval) (i : Z) s :
  store_wf s → shape (currentPiece s) = JRef sl →
  store s !! sl = Some (JRef <$> ml) → rows_at (store s) ml mv →
  ∃ s' ls,
    mapM_idx (λ _ i, rotatedRow i) i cells s = (s', Ok (JRef <$> ls)) ∧
    same_globals s s' ∧ store_wf s' ∧ (next s ≤ next s')%nat ∧
    (∀ l : loc, (l < next s)%nat → store s' !! l = store s !! l) ∧
    rows_at (store s') ls
      (map_idx (λ (_ : jsval) i, reverse ((λ row, aget row i) <$> mv)) i cells) ∧
    Forall (λ l : loc, (next s ≤ l < next s')%nat) ls.
Proof.
  revert i s. induction cells as [|v cells IH]; intros i s Hwf Hsh Hsl Hml.
  - exists s, []. cbn [mapM_idx map_idx].
    split; [done|]. split; [apply same_globals_refl|]. split; [done|].
    split; [lia|]. split; [done|]. split; constructor.
  - cbn [mapM_idx map_idx].
    pose proof (store_wf_lt _ _ _ Hwf Hsl) as Hsl_lt.
    assert (Hml_lt : ∀ l, l ∈ ml → (l < next s)%nat).
    { intros l Hl. apply list_elem_of_lookup in Hl as [k Hk].
      destruct (Forall2_lookup_l _ _ _ _ _ Hml Hk) as (a & _ & Ha).
      by eapply store_wf_lt. }
    set (s1 := State (<[next s := reverse ((λ a, aget a i) <$> mv)]> (store s))
                 (S (next s)) (board s) (score s) (currentPiece s)
                 (currentX s) (currentY s) (events s)).
    destruct (IH (i + 1) s1) as (s' & ls & E' & Hg' & Hwf' & Hn' & Hfr' & Hrows' & Hls').
    { intros l Hl. unfold s1 in *. simpl_state.
      rewrite lookup_insert_ne by lia. apply Hwf. lia. }
    { done. }
    { unfold s1. simpl_state. by rewrite lookup_insert_ne by lia. }
    { unfold s1. simpl_state. eapply rows_at_frame; [exact Hml|].
      intros l Hl. apply Hml_lt in Hl. by rewrite lookup_insert_ne by lia. }
    exists s', (next s :: ls).
    split.
    { erewrite bindM_ok; [| by eapply rotatedRow_spec]. fold s1.
      erewrite bindM_ok; [| exact E']. reflexivity. }
    unfold s1 in Hg', Hn', Hfr', Hls'. simpl_state.
    split; [exact Hg'|]. split; [done|]. split; [lia|]. split.
    { intros l Hl. rewrite Hfr' by lia. by rewrite lookup_insert_ne by lia. }
    split.
    { constructor; [|exact Hrows'].
      rewrite Hfr' by lia. by rewrite lookup_insert_eq. }
    constructor; [lia|]. eapply Forall_impl; [exact Hls'|].
    intros l Hl. cbn beta in Hl. lia.
Qed.

Lemma buildRotated_spec s sl ml mv :
  store_wf s → shape (currentPiece s) = JRef sl →
  store s !! sl = Some (JRef <$> ml) → rows_at (store s) ml mv → mv ≠ [] →
  ∃ s' sl' ml',
    buildRotated s = (s', Ok (JRef sl')) ∧
    same_globals s s' ∧ store_wf s' ∧ (next s ≤ next s')%nat ∧
    (∀ l : loc, (l < next s)%nat → store s' !! l = store s !! l) ∧
    store s' !! sl' = Some (JRef <$> ml') ∧
    rows_at (store s') ml' (rotateV mv) ∧
    Forall (λ l : loc, (next s ≤ l)%nat) (sl' :: ml').
Proof.
  intros Hwf Hsh Hsl Hml Hne.
  destruct Hml as [|l0 r ml mv Hl0 Hml]; [done|].
  assert (Hall : rows_at (store s) (l0 :: ml) (r :: mv)) by by constructor.
  destruct (rotate_loop sl (l0 :: ml) (r :: mv) r 0 s Hwf Hsh Hsl Hall)
    as (s1 & ls & E1 & Hg1 & Hwf1 & Hn1 & Hfr1 & Hrows1 & Hls1).
  exists (State (<[next s1 := JRef <$> ls]> (store s1)) (S (next s1)) (board s1)
            (score s1) (currentPiece s1) (currentX s1) (currentY s1) (events s1)),
         (next s1), ls.
  split.
  { unfold buildRotated.
    erewrite bindM_lift; [| rewrite Hsh; cbn [getIndex]; rewrite Hsl; reflexivity].
    erewrite bindM_lift;
      [| change (aget (JRef <$> l0 :: ml) 0) with (JRef l0); cbn [asArray];
         rewrite Hl0; reflexivity].
    erewrite bindM_ok; [| exact E1].
    erewrite bindM_ok; [| reflexivity]. reflexivity. }
  unfold store_wf. simpl_state.
  split; [exact Hg1|]. split.
  { intros l Hl. rewrite lookup_insert_ne by lia. apply Hwf1. lia. }
  split; [lia|]. split.
  { intros l Hl. rewrite lookup_insert_ne by lia. by apply Hfr1. }
  split; [by rewrite lookup_insert_eq|]. split.
  { eapply rows_at_frame; [exact Hrows1|].
    intros l Hl. rewrite Forall_forall in Hls1. specialize (Hls1 l Hl).
    by rewrite lookup_insert_ne by lia. }
  constructor; [lia|]. eapply Forall_impl; [exact Hls1|].
  intros l Hl. cbn beta in Hl. lia.
Qed.

(** ** The invariant is kept *)

(** The store grew, and the board did not move. *)
Lemma BInv_frame s s' rl bv :
  BInv s rl bv → board s' = board s → store_wf s' → (next s ≤ next s')%nat →
  (∀ l : loc, (l < next s)%nat → store s' !! l = store s !! l) →
  BInv s' rl bv.
Proof.
  intros HB Eb Hwf' Hn Hfr.
  pose proof (b_wf _ _ _ HB) as Hwf.
  assert (Hrl_lt : ∀ l, l ∈ rl → (l < next s)%nat).
  { intros l Hl. apply list_elem_of_lookup in Hl as [k Hk].
    destruct (Forall2_lookup_l _ _ _ _ _ (b_rows _ _ _ HB) Hk) as (a & _ & Ha).
    by eapply store_wf_lt. }
  pose proof (store_wf_lt _ _ _ Hwf (b_board _ _ _ HB)) as Hblt.
  pose proof (b_next _ _ _ HB) as Hnext.
  constructor.
  - done.
  - intros l Hl. unfold is_catalog in Hl. rewrite Hfr by lia.
    by apply (b_catalog _ _ _ HB).
  - lia.
  - rewrite Eb, Hfr by done. exact (b_board _ _ _ HB).
  - eapply rows_at_frame; [exact (b_rows _ _ _ HB)|].
    intros l Hl. apply Hfr. by apply Hrl_lt.
  - rewrite Eb. exact (b_nodup _ _ _ HB).
  - rewrite Eb. exact (b_fresh _ _ _ HB).
  - exact (b_grid _ _ _ HB).
Qed.

Lemma rows_at_lt s ls m :
  store_wf s → rows_at (store s) ls m → ∀ l : loc, l ∈ ls → (l < next s)%nat.
Proof.
  intros Hwf Hrows l Hl. apply list_elem_of_lookup in Hl as [k Hk].
  destruct (Forall2_lookup_l _ _ _ _ _ Hrows Hk) as (a & _ & Ha).
  by eapply store_wf_lt.
Qed.

Lemma canonical_facts mask :
  mask ∈ canonical →
  (∃ r mv', mask = r :: mv' ∧ r ≠ []) ∧
  (∃ w : nat, Forall (λ r, length r = w) mask) ∧
  fits emptyBoard mask (spawnX mask) 0 = true.
Proof.
  intros H. unfold canonical, PIECES_literal in H. cbn in H.
  repeat (apply elem_of_cons in H as [->|H]);
    try (split; [eexists _, _; split; [reflexivity | discriminate]|];
         split; [eexists; repeat constructor | by vm_compute]).
  by apply elem_of_nil in H.
Qed.

Lemma boot_wf : store_wf boot.
Proof.
  assert (H : map_Forall (λ (l : loc) (_ : list jsval), (l < 21)%nat) (store boot)).
  { apply (bool_decide_unpack _). by vm_compute. }
  intros l Hl. destruct (store boot !! l) as [a|] eqn:E; [|done].
  apply H in E. destruct boot_bounds as [_ Hn]. rewrite Hn in Hl. lia.
Qed.

Lemma boot_board : store boot !! board boot = Some [].
Proof. by vm_compute. Qed.

(** The piece that [newPiece] made fits, or the board has just been reset. *)
Lemma respawn_Inv s3 rl bv mask sl ml c s' :
  BInv s3 rl bv →
  mask ∈ canonical →
  currentPiece s3 = Piece (JRef sl) (colorString c) → (c < 16777215)%N →
  store s3 !! sl = Some (JRef <$> ml) → rows_at (store s3) ml mask →
  Forall (λ l : loc, l ∉ board s3 :: rl) (sl :: ml) →
  currentX s3 = spawnX mask → currentY s3 = 0 →
  (if negb (fits bv mask (currentX s3) (currentY s3)) then gameOver else mret tt) s3
    = (s', Ok tt) →
  Inv s'.
Proof.
  intros HB Hmask Hp Hc Hsl Hml Hsep Hx Hy E.
  destruct (canonical_facts mask Hmask) as (Hne & Hrect & Hfits0).
  destruct (fits bv mask (currentX s3) (currentY s3)) eqn:Hfits; cbn [negb] in E.
  - injection E as <-. exists rl, bv, sl, ml, mask. split; [exact HB|].
    constructor.
    + by rewrite Hp.
    + exact Hsl.
    + exact Hml.
    + exact Hsep.
    + exact Hne.
    + exact Hrect.
    + rewrite Hp. by exists c.
    + lia.
    + exact Hfits.
  - destruct (gameOver_spec s3 (b_wf _ _ _ HB) (b_catalog _ _ _ HB) (b_next _ _ _ HB))
      as (s4 & rl4 & E4 & HB4 & Hsc4 & Hev4 & Hp4 & Hx4 & Hy4 & Hn4 & Hfr4 & Hfresh4).
    rewrite E4 in E. injection E as <-.
    pose proof (store_wf_lt _ _ _ (b_wf _ _ _ HB) Hsl) as Hsl_lt.
    pose proof (rows_at_lt _ _ _ (b_wf _ _ _ HB) Hml) as Hml_lt.
    exists rl4, emptyBoard, sl, ml, mask. split; [exact HB4|].
    constructor.
    + by rewrite Hp4, Hp.
    + by rewrite Hfr4.
    + eapply rows_at_frame; [exact Hml|]. intros l Hl. apply Hfr4. by apply Hml_lt.
    + rewrite Forall_forall in Hfresh4. apply Forall_forall. intros l Hl Hin.
      specialize (Hfresh4 l Hin).
      apply elem_of_cons in Hl as [->|Hl]; [lia|]. apply Hml_lt in Hl. lia.
    + exact Hne.
    + exact Hrect.
    + rewrite Hp4, Hp. by exists c.
    + lia.
    + rewrite Hx4, Hy4, Hx, Hy. exact Hfits0.
Qed.

Lemma checkMove_fits s rl bv mv (x y : Z) (p : piece) :
  BInv s rl bv → matrix (store s) (shape p) = Some mv → 0 ≤ y →
  checkMove x y p s = (s, Ok (fits bv mv x y)).
Proof.
  intros HB Hm Hy. unfold checkMove, liftM. f_equal.
  apply (isValidMove_fits s rl bv (b_board _ _ _ HB) (b_rows _ _ _ HB));
    [apply (b_grid _ _ _ HB) | done | done].
Qed.

Lemma MInv_matrix s rl bv sl ml mv :
  MInv s rl bv sl ml mv → matrix (store s) (shape (currentPiece s)) = Some mv.
Proof. apply MInv_maskView. Qed.

(** movePiece, as an equation on the states of the game. *)
Lemma movePiece_eq s rl bv sl ml mv (dx : Z) :
  BInv s rl bv → MInv s rl bv sl ml mv →
  movePiece dx s =
    (if fits bv mv (currentX s + dx) (currentY s)
     then set_currentX (currentX s + dx) s else s, Ok tt).
Proof.
  intros HB HM. unfold movePiece. rewrite bindM_get.
  erewrite bindM_ok;
    [| eapply checkMove_fits; [done | by eapply MInv_matrix | exact (m_y _ _ _ _ _ _ HM)]].
  by destruct (fits _ _ _ _).
Qed.

Lemma movePiece_Inv s (dx : Z) :
  Inv s → ∃ s', movePiece dx s = (s', Ok tt) ∧ Inv s'.
Proof.
  intros (rl & bv & sl & ml & mv & HB & HM).
  rewrite (movePiece_eq _ _ _ _ _ _ dx HB HM).
  destruct (fits bv mv (currentX s + dx) (currentY s)) eqn:Hf.
  - eexists. split; [reflexivity|]. exists rl, bv, sl, ml, mv.
    split; [destruct HB; by constructor | destruct HM; by constructor].
  - exists s. split; [reflexivity|]. by exists rl, bv, sl, ml, mv.
Qed.

(** rotatePiece: the rotated matrix is built (the store grows), and the
    piece takes it when it fits. *)
Lemma rotatePiece_spec s rl bv sl ml mv :
  BInv s rl bv → MInv s rl bv sl ml mv →
  ∃ s1 sl' ml',
    buildRotated s = (s1, Ok (JRef sl')) ∧
    same_globals s s1 ∧ BInv s1 rl bv ∧ MInv s1 rl bv sl ml mv ∧
    (next s ≤ next s1)%nat ∧
    (∀ l : loc, (l < next s)%nat → store s1 !! l = store s !! l) ∧
    store s1 !! sl' = Some (JRef <$> ml') ∧
    rows_at (store s1) ml' (rotateV mv) ∧
    Forall (λ l : loc, (next s ≤ l)%nat) (sl' :: ml') ∧
    rotatePiece s =
      (if fits bv (rotateV mv) (currentX s) (currentY s)
       then set_currentPiece (Piece (JRef sl') (color (currentPiece s))) s1
       else s1, Ok tt).
Proof.
  intros HB HM.
  pose proof (b_wf _ _ _ HB) as Hwf.
  destruct (m_nonempty _ _ _ _ _ _ HM) as (r & mv' & Emv & Hr).
  destruct (buildRotated_spec s sl ml mv Hwf (m_shape _ _ _ _ _ _ HM)
              (m_outer _ _ _ _ _ _ HM) (m_rows _ _ _ _ _ _ HM))
    as (s1 & sl' & ml' & E1 & Hg1 & Hwf1 & Hn1 & Hfr1 & Hsl' & Hml' & Hfresh);
    [by rewrite Emv|].
  pose proof Hg1 as (Eb & Esc & Ep & Ex & Ey & Eev).
  assert (HB1 : BInv s1 rl bv) by by eapply BInv_frame.
  assert (HM1 : MInv s1 rl bv sl ml mv).
  { pose proof (store_wf_lt _ _ _ Hwf (m_outer _ _ _ _ _ _ HM)) as Hsl_lt.
    pose proof (rows_at_lt _ _ _ Hwf (m_rows _ _ _ _ _ _ HM)) as Hml_lt.
    constructor.
    - rewrite Ep. exact (m_shape _ _ _ _ _ _ HM).
    - rewrite Hfr1 by done. exact (m_outer _ _ _ _ _ _ HM).
    - eapply rows_at_frame; [exact (m_rows _ _ _ _ _ _ HM)|].
      intros l Hl. apply Hfr1. by apply Hml_lt.
    - rewrite Eb. exact (m_sep _ _ _ _ _ _ HM).
    - exact (m_nonempty _ _ _ _ _ _ HM).
    - exact (m_rect _ _ _ _ _ _ HM).
    - rewrite Ep. exact (m_color _ _ _ _ _ _ HM).
    - rewrite Ey. exact (m_y _ _ _ _ _ _ HM).
    - rewrite Ex, Ey. exact (m_fits _ _ _ _ _ _ HM). }
  exists s1, sl', ml'. repeat (split; [done|]).
  unfold rotatePiece. erewrite bindM_ok; [| exact E1]. rewrite bindM_get.
  erewrite bindM_ok; last first.
  { eapply checkMove_fits; [exact HB1 | | rewrite Ey; exact (m_y _ _ _ _ _ _ HM)].
    cbn [shape]. by eapply matrix_intro. }
  rewrite Ex, Ey. destruct (fits _ _ _ _); [|done].
  unfold modifyM. by rewrite Ep.
Qed.

Lemma rotateV_nonempty r mv :
  r ≠ [] → ∃ r' mv', rotateV (r :: mv) = r' :: mv' ∧ r' ≠ [].
Proof.
  intros Hr. unfold rotateV. cbn [head default].
  destruct r as [|v r]; [done|]. cbn [map_idx]. eexists _, _. split; [reflexivity|].
  rewrite fmap_cons. intros H. apply (f_equal length) in H.
  rewrite length_reverse in H. done.
Qed.

Lemma map_idx_Forall {A B} (P : B → Prop) (f : A → Z → B) (i : Z) (a : list A) :
  (∀ v j, P (f v j)) → Forall P (map_idx f i a).
Proof.
  intros H. revert i. induction a as [|v a IH]; intros i; cbn [map_idx]; by constructor.
Qed.

(** The rows of the rotated mask are as long as the mask is high. *)
Lemma rotateV_rect mv : ∃ w : nat, Forall (λ r, length r = w) (rotateV mv).
Proof.
  exists (length mv). apply map_idx_Forall. intros _ j.
  by rewrite length_reverse, length_fmap.
Qed.

Lemma rotatePiece_Inv s : Inv s → ∃ s', rotatePiece s = (s', Ok tt) ∧ Inv s'.
Proof.
  intros (rl & bv & sl & ml & mv & HB & HM).
  destruct (rotatePiece_spec s rl bv sl ml mv HB HM)
    as (s1 & sl' & ml' & E1 & Hg1 & HB1 & HM1 & Hn1 & Hfr1 & Hsl' & Hml' & Hfresh & E).
  rewrite E. destruct (fits bv (rotateV mv) (currentX s) (currentY s)) eqn:Hf.
  - eexists. split; [reflexivity|].
    exists rl, bv, sl', ml', (rotateV mv). split.
    + destruct HB1. by constructor.
    + destruct Hg1 as (Eb & Esc & Ep & Ex & Ey & Eev).
      pose proof (b_wf _ _ _ HB) as Hwf.
      pose proof (store_wf_lt _ _ _ Hwf (b_board _ _ _ HB)) as Hblt.
      pose proof (rows_at_lt _ _ _ Hwf (b_rows _ _ _ HB)) as Hrl_lt.
      constructor; simpl_state.
      * done.
      * done.
      * done.
      * rewrite Forall_forall in Hfresh. apply Forall_forall. intros l Hl Hin.
        specialize (Hfresh l Hl). rewrite Eb in Hin.
        apply elem_of_cons in Hin as [->|Hin]; [lia|]. apply Hrl_lt in Hin. lia.
      * destruct (m_nonempty _ _ _ _ _ _ HM) as (r & mv' & -> & Hr).
        by apply rotateV_nonempty.
      * apply rotateV_rect.
      * exact (m_color _ _ _ _ _ _ HM).
      * rewrite Ey. exact (m_y _ _ _ _ _ _ HM).
      * by rewrite Ex, Ey.
  - exists s1. split; [reflexivity|]. by exists rl, bv, sl, ml, mv.
Qed.

(** The arrays of a fresh piece are arrays of the catalog, or the one fresh
    wrapper: none of them is an array of the board. *)
Lemma mask_sep s (b : loc) rl sl ml :
  (∀ l : loc, l ∈ rl → (l < next s)%nat) → (board s < next s)%nat →
  Forall (λ l : loc, ¬ is_catalog l) (board s :: rl) →
  is_catalog sl ∨ sl = next s → Forall is_catalog ml → b = board s →
  Forall (λ l : loc, l ∉ b :: rl) (sl :: ml).
Proof.
  intros Hrl_lt Hblt Hfresh Hsl Hml ->. rewrite Forall_forall in Hfresh.
  rewrite Forall_forall in Hml. apply Forall_cons. split.
  - intros Hin. destruct Hsl as [Hc | ->]; [by apply (Hfresh sl)|].
    apply elem_of_cons in Hin as [Hin|Hin]; [lia|]. apply Hrl_lt in Hin. lia.
  - apply Forall_forall. intros l Hl Hin. apply (Hfresh l Hin). by apply Hml.
Qed.

(** placePiece: the three steps before the check, and the check. *)
Lemma placePiece_spec s (i : Z) (c : N) :
  Inv s → draw_ok i c →
  ∃ s1 s2 s3 rl3 bv3 mask,
    placeCells s = (s1, Ok tt) ∧ clearLines s1 = (s2, Ok tt) ∧
    newPiece i c s2 = (s3, Ok tt) ∧
    BInv s3 rl3 bv3 ∧ maskView s3 = Some mask ∧ mask ∈ canonical ∧
    canonical !! Z.to_nat i = Some mask ∧
    color (currentPiece s3) = colorString c ∧
    currentX s3 = spawnX mask ∧ currentY s3 = 0 ∧
    checkMove (currentX s3) (currentY s3) (currentPiece s3) s3
      = (s3, Ok (fits bv3 mask (currentX s3) (currentY s3))) ∧
    placePiece i c s =
      (if negb (fits bv3 mask (currentX s3) (currentY s3))
       then gameOver else mret tt) s3 ∧
    ∀ s', (if negb (fits bv3 mask (currentX s3) (currentY s3))
           then gameOver else mret tt) s3 = (s', Ok tt) → Inv s'.
Proof.
  intros (rl & bv & sl & ml & mv & HB & HM) Hdraw.
  destruct (placeCells_spec s rl bv sl ml mv HB HM)
    as (s1 & bv1 & E1 & HB1 & Hg1 & Hn1 & Hfr1).
  destruct (clearLines_spec s1 rl bv1 HB1)
    as (s2 & rl2 & E2 & HB2 & Hsc2 & Hev2 & Eb2 & Ep2 & Ex2 & Ey2 & Hn2 & Hfr2 & Hin2).
  destruct (newPiece_spec s2 i c (b_wf _ _ _ HB2) (b_catalog _ _ _ HB2)
              (b_next _ _ _ HB2) Hdraw)
    as (s3 & mask & sl3 & ml3 & E3 & Hcan & Hp3 & Hsl3 & Hml3 & Hsl_alias & Hml_alias
        & Hx3 & Hy3 & Eb3 & Esc3 & Eev3 & Hn3 & Hwf3 & Hfr3).
  assert (HB3 : BInv s3 rl2 (clearLinesV bv1).1) by by eapply BInv_frame.
  assert (Hmask : mask ∈ canonical) by by eapply list_elem_of_lookup_2.
  assert (Hm3 : matrix (store s3) (shape (currentPiece s3)) = Some mask).
  { rewrite Hp3. cbn [shape]. by eapply matrix_intro. }
  assert (Hchk : checkMove (currentX s3) (currentY s3) (currentPiece s3) s3
      = (s3, Ok (fits (clearLinesV bv1).1 mask (currentX s3) (currentY s3)))).
  { eapply checkMove_fits; [exact HB3 | exact Hm3 | lia]. }
  exists s1, s2, s3, rl2, (clearLinesV bv1).1, mask.
  split; [done|]. split; [done|]. split; [done|]. split; [done|].
  split; [done|]. split; [done|]. split; [done|].
  split; [by rewrite Hp3|]. split; [done|]. split; [done|]. split; [done|].
  split.
  { unfold placePiece. erewrite bindM_ok; [| exact E1].
    erewrite bindM_ok; [| exact E2]. erewrite bindM_ok; [| exact E3].
    rewrite bindM_get. erewrite bindM_ok; [| exact Hchk]. reflexivity. }
  intros s' E'.
  eapply (respawn_Inv s3 rl2 _ mask sl3 ml3 c); try done; [apply Hdraw|].
  pose proof (b_wf _ _ _ HB2) as Hwf2.
  pose proof (store_wf_lt _ _ _ Hwf2 (b_board _ _ _ HB2)) as Hblt.
  pose proof (rows_at_lt _ _ _ Hwf2 (b_rows _ _ _ HB2)) as Hrl_lt.
  pose proof (b_fresh _ _ _ HB2) as Hfresh.
  by eapply (mask_sep s2).
Qed.

Lemma placePiece_Inv s (i : Z) (c : N) :
  Inv s → draw_ok i c → ∃ s', placePiece i c s = (s', Ok tt) ∧ Inv s'.
Proof.
  intros HI Hdraw.
  destruct (placePiece_spec s i c HI Hdraw)
    as (s1 & s2 & s3 & rl3 & bv3 & mask & _ & _ & _ & HB3 & _ & _ & _ & _ & _ & _ & _
        & E & Hinv).
  rewrite E. destruct (negb (fits bv3 mask (currentX s3) (currentY s3))).
  - destruct (gameOver_spec s3 (b_wf _ _ _ HB3) (b_catalog _ _ _ HB3) (b_next _ _ _ HB3))
      as (s4 & rl4 & E4 & _).
    exists s4. split; [done|]. by apply Hinv.
  - exists s3. split; [done|]. by apply Hinv.
Qed.

Lemma drop_eq s rl bv sl ml mv (i : Z) (c : N) :
  BInv s rl bv → MInv s rl bv sl ml mv →
  drop i c s =
    if fits bv mv (currentX s) (currentY s + 1)
    then (set_currentY (currentY s + 1) s, Ok tt)
    else placePiece i c s.
Proof.
  intros HB HM. unfold drop. rewrite bindM_get.
  erewrite bindM_ok; last first.
  { eapply checkMove_fits; [done | by eapply MInv_matrix|].
    pose proof (m_y _ _ _ _ _ _ HM). lia. }
  by destruct (fits _ _ _ _).
Qed.

Lemma drop_Inv s (i : Z) (c : N) :
  Inv s → draw_ok i c → ∃ s', drop i c s = (s', Ok tt) ∧ Inv s'.
Proof.
  intros HI Hdraw. pose proof HI as (rl & bv & sl & ml & mv & HB & HM).
  rewrite (drop_eq _ _ _ _ _ _ i c HB HM).
  destruct (fits bv mv (currentX s) (currentY s + 1)) eqn:Hf.
  - eexists. split; [reflexivity|]. exists rl, bv, sl, ml, mv.
    split; [destruct HB; by constructor|].
    destruct HM. constructor; simpl_state; try done. lia.
  - by apply placePiece_Inv.
Qed.

Lemma handle_Inv s inp :
  Inv s → input_ok inp → ∃ s', handle inp s = (s', Ok tt) ∧ Inv s'.
Proof.
  intros HI Hok. destruct inp; cbn [handle input_ok] in *.
  - by apply movePiece_Inv.
  - by apply movePiece_Inv.
  - by apply drop_Inv.
  - by apply rotatePiece_Inv.
  - by exists s.
  - by apply drop_Inv.
Qed.

Lemma start_Inv (i : Z) (c : N) :
  draw_ok i c → ∃ s, start i c = (s, Ok tt) ∧ Inv s.
Proof.
  intros Hdraw. destruct boot_bounds as [Hb0 Hn0].
  destruct (createBoard_spec boot boot_wf boot_board)
    as (s1 & E1 & Hg1 & Hwf1 & Hn1 & Hb1 & Hrows1 & Hfr1).
  pose proof Hg1 as (Eb & Esc & Ep & Ex & Ey & Eev).
  rewrite Hb0 in Hb1, Hfr1. rewrite Hn0 in Hn1, Hb1, Hrows1, Hfr1.
  assert (HB1 : BInv s1 (seq 21 (Z.to_nat ROWS)) emptyBoard).
  { constructor.
    - done.
    - intros l Hl. unfold is_catalog in Hl. apply Hfr1; lia.
    - lia.
    - by rewrite Eb, Hb0.
    - apply rows_at_seq. exact Hrows1.
    - rewrite Eb, Hb0. apply NoDup_cons. split; [|apply NoDup_seq].
      intros Hin. apply elem_of_seq in Hin. lia.
    - rewrite Eb, Hb0. apply Forall_cons. split; [unfold is_catalog; lia|].
      apply Forall_forall. intros l Hl. apply elem_of_seq in Hl.
      unfold is_catalog. lia.
    - apply emptyBoard_grid. }
  destruct (newPiece_spec s1 i c Hwf1 (b_catalog _ _ _ HB1) (b_next _ _ _ HB1) Hdraw)
    as (s3 & mask & sl3 & ml3 & E3 & Hcan & Hp3 & Hsl3 & Hml3 & Hsl_alias & Hml_alias
        & Hx3 & Hy3 & Eb3 & Esc3 & Eev3 & Hn3 & Hwf3 & Hfr3).
  exists s3. split.
  { unfold start. erewrite bindM_ok; [| exact E1]. exact E3. }
  assert (HB3 : BInv s3 (seq 21 (Z.to_nat ROWS)) emptyBoard) by by eapply BInv_frame.
  assert (Hmask : mask ∈ canonical) by by eapply list_elem_of_lookup_2.
  destruct (canonical_facts mask Hmask) as (Hne & Hrect & Hfits0).
  exists (seq 21 (Z.to_nat ROWS)), emptyBoard, sl3, ml3, mask. split; [exact HB3|].
  constructor.
  - by rewrite Hp3.
  - exact Hsl3.
  - exact Hml3.
  - pose proof (store_wf_lt _ _ _ Hwf1 (b_board _ _ _ HB1)) as Hblt.
    pose proof (rows_at_lt _ _ _ Hwf1 (b_rows _ _ _ HB1)) as Hrl_lt.
    pose proof (b_fresh _ _ _ HB1) as Hfresh.
    by eapply (mask_sep s1).
  - exact Hne.
  - exact Hrect.
  - rewrite Hp3. exists c. split; [apply Hdraw | reflexivity].
  - lia.
  - rewrite Hx3, Hy3. exact Hfits0.
Qed.

(** Every state of the running game satisfies the invariant, and no
    handler throws. *)
Lemma reachable_Inv s : reachable s → Inv s.
Proof.
  induction 1 as [i c s r Hdraw E | s inp s' r _ IH Hok E].
  - destruct (start_Inv i c Hdraw) as (s0 & E0 & HI). congruence.
  - destruct (handle_Inv s inp IH Hok) as (s0 & E0 & HI). congruence.
Qed.

Lemma run_reachable inps s s' r :
  reachable s → Forall input_ok inps → run inps s = (s', r) → reachable s'.
Proof.
  revert s. induction inps as [|inp rest IH]; intros s Hs Hok E.
  - cbn [run] in E. injection E as <- _. done.
  - apply Forall_cons in Hok as [Hinp Hrest]. cbn [run] in E.
    unfold mbind, M_bind in E.
    destruct (handle inp s) as [s1 [[]|e]] eqn:E1.
    + eapply (IH s1); [by eapply reach_step | done | done].
    + injection E as <- _. by eapply reach_step.
Qed.

Lemma start_run_reachable (i : Z) (c : N) inps :
  draw_ok i c → Forall input_ok inps →
  reachable (run inps (start i c).1).1.
Proof.
  intros Hd Hok.
  eapply (run_reachable inps (start i c).1 _ (run inps (start i c).1).2).
  - apply (reach_start i c _ (start i c).2 Hd). by destruct (start i c).
  - done.
  - by destruct (run inps (start i c).1).
Qed.

Lemma boardView_inv s bv :
  boardView s = Some bv →
  ∃ rl, store s !! board s = Some (JRef <$> rl) ∧ rows_at (store s) rl bv.
Proof.
  intros H. destruct (matrix_inv _ _ _ H) as (l & rl & [= <-] & Hl & Hrows).
  by exists rl.
Qed.

(** The references and the rows of the board are determined by the store. *)
Lemma BInv_unique s rl bv rl' bv' :
  BInv s rl bv → store s !! board s = Some (JRef <$> rl') →
  boardView s = Some bv' → BInv s rl' bv'.
Proof.
  intros HB Hb' Hv'.
  pose proof (b_board _ _ _ HB) as Hb. rewrite Hb' in Hb. injection Hb as Hrl.
  assert (Inj (=) (=) JRef) by (intros x y; congruence).
  apply (inj (fmap JRef)) in Hrl. subst rl'.
  pose proof (BInv_boardView _ _ _ HB) as Hv. rewrite Hv' in Hv.
  by injection Hv as <-.
Qed.

(** ** The example of the specification *)

Lemma one_row_ready_reachable : reachable one_row_ready.
Proof. apply start_run_reachable; decide_by_compute. Qed.

(** Placing it completes row 19 only: that row is cleared, the rows above
    move down by one, row 0 is empty, and the score grows by 10. *)
Lemma one_row_example :
  let s := one_row_ready in
  let s1 := (placeCells s).1 in
  let s' := (handle (Tick 0 0xabc%N) s).1 in
  currentX s = 9 ∧ currentY s = 16 ∧
  maskView s = Some [[JNum 1]; [JNum 1]; [JNum 1]; [JNum 1]] ∧
  fullRows s1 = Some (replicate 19 false ++ [true]) ∧
  (handle (Tick 0 0xabc%N) s).2 = Ok tt ∧
  score s' = score s + 10 ∧
  boardView s' = (λ bv, emptyRow :: take 19 bv) <$> boardView s1 ∧
  fullRows s' = Some (replicate 20 false).
Proof.
  intros s s1 s'.
  do 7 (split; [vm_compute; reflexivity|]). vm_compute. reflexivity.
Qed.

(** * The claims *)

(** ** C9: a fresh board *)

(** C9. A freshly created board ([createBoard] run on [board = []], as at
    the start of the script and in [gameOver]) has ROWS rows of COLS cells,
    every cell is the empty marker, and the row-fullness check of
    [clearLines] is false on every row. *)
Theorem C9_fresh_board_empty (s : state) :
  store_wf s → store s !! board s = Some [] →
  ∃ s' bv,
    createBoard s = (s', Ok tt) ∧ boardView s' = Some bv ∧
    Z.of_nat (length bv) = ROWS ∧
    ∀ (r : nat) row, bv !! r = Some row →
      Z.of_nat (length row) = COLS ∧ Forall (λ cell, cell = EMPTY) row ∧
      rowFull row = false.
Proof.
  intros Hwf Hb.
  destruct (createBoard_spec s Hwf Hb)
    as (s' & E & Hg & Hwf' & Hn & Hb' & Hrows & Hfr).
  exists s', emptyBoard. split; [done|]. split.
  - unfold boardView. destruct Hg as (-> & _).
    eapply matrix_intro; [exact Hb'|]. by apply rows_at_seq.
  - split; [done|]. intros r row Hr. apply lookup_replicate in Hr as [-> _].
    split; [done|]. split; [|done].
    apply Forall_forall. intros cell Hc. by apply elem_of_replicate in Hc as [-> _].
Qed.

Lemma C9_fresh_board_empty_witness :
  store_wf boot ∧ store boot !! board boot = Some [] ∧
  ∃ s' bv,
    createBoard boot = (s', Ok tt) ∧ boardView s' = Some bv ∧
    Z.of_nat (length bv) = ROWS ∧
    ∀ (r : nat) row, bv !! r = Some row →
      Z.of_nat (length row) = COLS ∧ Forall (λ cell, cell = EMPTY) row ∧
      rowFull row = false.
Proof.
  split; [exact boot_wf|]. split; [exact boot_board|].
  apply (C9_fresh_board_empty boot); [exact boot_wf | exact boot_board].
Defined.

(** ** C4: one cleared row *)

(** C4. Clearing row [row] ([board.splice(row, 1)] followed by
    [board.unshift(new Array(COLS).fill(EMPTY))]) removes exactly that row:
    afterwards row 0 is a fresh all-empty row, every row that was above
    [row] is one position lower with its contents unchanged, the rows
    below [row] are where they were, and the board has as many rows as
    before.  Score, piece and position are not touched. *)
Theorem C4_clearRow_shifts_down (s : state) (rl : list loc)
    (bv : list (list jsval)) (row : nat) :
  BInv s rl bv → (Z.of_nat row < ROWS) →
  ∃ s' bv',
    clearRow (Z.of_nat row) s = (s', Ok tt) ∧ boardView s' = Some bv' ∧
    same_globals s s' ∧
    length bv' = length bv ∧
    bv' !! 0%nat = Some emptyRow ∧
    (∀ i : nat, (i < row)%nat → bv' !! S i = bv !! i) ∧
    (∀ i : nat, (row < i)%nat → bv' !! i = bv !! i).
Proof.
  intros HB Hrow.
  pose proof (rows_at_length _ _ _ (b_rows _ _ _ HB)) as Hlen.
  destruct (b_grid _ _ _ HB) as [Hrows _].
  destruct (clearRow_spec s rl bv row HB) as (s' & E & HB' & Hg & _); [lia|].
  exists s', (emptyRow :: delete row bv).
  split; [done|]. split; [by eapply BInv_boardView|]. split; [done|].
  split.
  { cbn [length]. rewrite length_delete; [lia|]. apply lookup_lt_is_Some_2. lia. }
  split; [done|]. split.
  - intros i Hi. cbn [lookup list_lookup]. by apply list_lookup_delete_lt.
  - intros i Hi. destruct i as [|i]; [lia|]. cbn [lookup list_lookup].
    apply list_lookup_delete_ge. lia.
Qed.

(** The board of the example [one_row_ready] once the cells of the piece
    are written: row 19 is full, and it is cleared. *)
Lemma C4_clearRow_shifts_down_witness :
  let s := (placeCells one_row_ready).1 in
  let bv := default [] (boardView s) in
  let rl := omap (λ v, match v with JRef l => Some l | _ => None end)
                 (default [] (store s !! board s)) in
  BInv s rl bv ∧ Z.of_nat 19 < ROWS ∧ rowFull (rowOf bv 19) = true ∧
  ∃ s' bv',
    clearRow (Z.of_nat 19) s = (s', Ok tt) ∧ boardView s' = Some bv' ∧
    same_globals s s' ∧
    length bv' = length bv ∧
    bv' !! 0%nat = Some emptyRow ∧
    (∀ i : nat, (i < 19)%nat → bv' !! S i = bv !! i) ∧
    (∀ i : nat, (19 < i)%nat → bv' !! i = bv !! i).
Proof.
  intros s bv rl.
  assert (HB : BInv s rl bv).
  { destruct (reachable_Inv _ one_row_ready_reachable)
      as (rl0 & bv0 & sl & ml & mv & HB0 & HM0).
    destruct (placeCells_spec _ _ _ _ _ _ HB0 HM0) as (s1 & bv1 & E1 & HB1 & _).
    assert (s1 = s) as -> by (unfold s; by rewrite E1).
    apply (BInv_unique s rl0 bv1 rl bv HB1); vm_compute; reflexivity. }
  split; [exact HB|]. split; [unfold ROWS; lia|].
  split; [vm_compute; reflexivity|].
  apply (C4_clearRow_shifts_down s rl bv 19 HB). unfold ROWS. lia.
Defined.

(** ** C8: the board invariant *)

(** C8. In every state of the running game the board has exactly ROWS rows
    of exactly COLS cells and every cell is the empty marker or a colour;
    every handler (move, rotate, drop) returns without an exception in such
    a state; and inside a placement the board has this form after each of
    its steps: the cells of the piece are written, the full rows are
    cleared, the next piece is made, the game-over reset has run. *)
Theorem C8_board_invariant (s : state) :
  reachable s →
  (∃ bv, boardView s = Some bv ∧ grid bv) ∧
  (∀ inp, input_ok inp →
     ∃ s' bv', handle inp s = (s', Ok tt) ∧ boardView s' = Some bv' ∧ grid bv') ∧
  (∀ i c, draw_ok i c →
     let s1 := (placeCells s).1 in
     let s2 := (clearLines s1).1 in
     let s3 := (newPiece i c s2).1 in
     let s4 := (gameOver s3).1 in
     Forall (λ t, ∃ bv, boardView t = Some bv ∧ grid bv) [s1; s2; s3; s4]).
Proof.
  intros Hs. pose proof (reachable_Inv s Hs) as HI.
  split; [|split].
  - destruct HI as (rl & bv & _ & _ & _ & HB & _).
    exists bv. split; [by eapply BInv_boardView | exact (b_grid _ _ _ HB)].
  - intros inp Hok. destruct (handle_Inv s inp HI Hok) as (s' & E & HI').
    destruct HI' as (rl & bv & _ & _ & _ & HB & _).
    exists s', bv. split; [done|].
    split; [by eapply BInv_boardView | exact (b_grid _ _ _ HB)].
  - intros i c Hdraw. pose proof HI as (rl & bv & sl & ml & mv & HB & HM).
    destruct (placeCells_spec s rl bv sl ml mv HB HM)
      as (s1 & bv1 & E1 & HB1 & _).
    destruct (clearLines_spec s1 rl bv1 HB1) as (s2 & rl2 & E2 & HB2 & _).
    destruct (placePiece_spec s i c HI Hdraw)
      as (s1' & s2' & s3 & rl3 & bv3 & mask & E1' & E2' & E3 & HB3 & _).
    assert (s1' = s1) as -> by congruence.
    assert (s2' = s2) as -> by congruence.
    destruct (gameOver_spec s3 (b_wf _ _ _ HB3) (b_catalog _ _ _ HB3) (b_next _ _ _ HB3))
      as (s4 & rl4 & E4 & HB4 & _).
    cbn zeta. rewrite E1. cbn [fst]. rewrite E2. cbn [fst]. rewrite E3. cbn [fst].
    rewrite E4. cbn [fst].
    repeat apply Forall_cons_2; [| | | |apply Forall_nil_2].
    + exists bv1. split; [by eapply BInv_boardView | exact (b_grid _ _ _ HB1)].
    + eexists. split; [by eapply BInv_boardView | exact (b_grid _ _ _ HB2)].
    + exists bv3. split; [by eapply BInv_boardView | exact (b_grid _ _ _ HB3)].
    + exists emptyBoard. split; [by eapply BInv_boardView | exact (b_grid _ _ _ HB4)].
Qed.

Lemma C8_board_invariant_witness :
  let s := (start 1 0xabc%N).1 in
  reachable s ∧
  (∃ bv, boardView s = Some bv ∧ grid bv) ∧
  (∀ inp, input_ok inp →
     ∃ s' bv', handle inp s = (s', Ok tt) ∧ boardView s' = Some bv' ∧ grid bv') ∧
  (∀ i c, draw_ok i c →
     let s1 := (placeCells s).1 in
     let s2 := (clearLines s1).1 in
     let s3 := (newPiece i c s2).1 in
     let s4 := (gameOver s3).1 in
     Forall (λ t, ∃ bv, boardView t = Some bv ∧ grid bv) [s1; s2; s3; s4]).
Proof.
  intros s.
  assert (Hs : reachable s).
  { apply (reach_start 1 0xabc%N s (start 1 0xabc%N).2); [decide_by_compute|].
    unfold s. by destruct (start 1 0xabc%N). }
  split; [exact Hs|]. exact (C8_board_invariant s Hs).
Defined.

(** ** C10: the catalog is never written *)

Lemma readLit_catalog st :
  catalog_intact st → readLit 4 st PIECES = Some PIECES_literal.
Proof.
  intros Hcat.
  assert (Hboot : readLit 4 (store boot) PIECES = Some PIECES_literal) by (vm_compute; reflexivity).
  rewrite <- Hboot.
  assert (Hclosed : ∀ (l : loc) a, is_catalog l → store boot !! l = Some a →
            Forall (λ v, match v with
                         | JRef l' => is_catalog l'
                         | _ => True
                         end) a).
  { intros l a [Hl1 Hl2] Ha.
    destruct l as [|k]; [lia|].
    destruct (lookup_lt_is_Some_2 catalog_arrays k) as [a' Ha'].
    { change (length catalog_arrays) with 20%nat. lia. }
    rewrite (boot_lookup k a' Ha') in Ha. injection Ha as <-.
    assert (Hall : Forall (Forall (λ v, match v with
                                        | JRef l' => is_catalog l'
                                        | _ => True
                                        end)) catalog_arrays).
    { unfold catalog_arrays, is_catalog. repeat constructor; lia. }
    by eapply Forall_lookup_1. }
  assert (Hgen : ∀ fuel v,
            match v with JRef l => is_catalog l | _ => True end →
            readLit fuel st v = readLit fuel (store boot) v).
  { induction fuel as [|fuel IH]; intros v Hv; [reflexivity|].
    cbn [readLit]. destruct v as [| | |l]; [reflexivity | reflexivity | reflexivity |].
    rewrite (Hcat l Hv). destruct (store boot !! l) as [a|] eqn:Ha; [|reflexivity].
    cbn [mbind option_bind].
    assert (mapM (readLit fuel st) a = mapM (readLit fuel (store boot)) a) as ->;
      [|reflexivity].
    pose proof (Hclosed l a Hv Ha) as Hall. clear Ha.
    induction Hall as [|w a' Hw _ IHa]; [reflexivity|].
    cbn [mapM]. rewrite (IH w Hw). rewrite IHa. reflexivity. }
  apply Hgen. unfold PIECES, is_catalog. lia.
Qed.

(** C10. In every state of the running game the arrays of the catalog are
    what the declaration of [PIECES] made them: each of the twenty arrays
    (the mask rows, the six two-row entries, the flat I entry and [PIECES]
    itself) holds its initial contents, and [PIECES] read back from the
    store is the literal of the script. *)
Theorem C10_catalog_never_written (s : state) :
  reachable s →
  (∀ l : loc, is_catalog l → store s !! l = store boot !! l) ∧
  readLit 4 (store s) PIECES = Some PIECES_literal.
Proof.
  intros Hs. destruct (reachable_Inv s Hs) as (rl & bv & _ & _ & _ & HB & _).
  pose proof (b_catalog _ _ _ HB) as Hcat.
  split; [exact Hcat | by apply readLit_catalog].
Qed.

Lemma C10_catalog_never_written_witness :
  let s := (run [ArrowUp; ArrowLeft; ArrowUp; ArrowDown 3 7%N; ArrowUp]
                (start 0 0xabc%N).1).1 in
  reachable s ∧
  (∀ l : loc, is_catalog l → store s !! l = store boot !! l) ∧
  readLit 4 (store s) PIECES = Some PIECES_literal.
Proof.
  intros s.
  assert (Hs : reachable s).
  { apply start_run_reachable; decide_by_compute. }
  split; [exact Hs|]. exact (C10_catalog_never_written s Hs).
Defined.

(** ** C2: lookups of isValidMove *)

(** Cells that are not occupied pass without a lookup; the first occupied
    one decides when its check throws. *)
Lemma everyR_first_throw {A} (f : A → Z → R bool) (i : Z) (pre : list A)
    (v : A) (post : list A) (w : lookup_log) (e : error) :
  (∀ (k : nat) u, pre !! k = Some u → f u (i + Z.of_nat k) = ([], Ok true)) →
  f v (i + Z.of_nat (length pre)) = (w, Throw e) →
  everyR f i (pre ++ v :: post) = (w, Throw e).
Proof.
  revert i. induction pre as [|u pre IH]; intros i Hpre Hv.
  - cbn [app everyR length] in *. rewrite Z.add_0_r in Hv. by rewrite Hv.
  - cbn [app everyR]. pose proof (Hpre 0%nat u eq_refl) as Hu.
    rewrite Z.add_0_r in Hu. rewrite Hu.
    change (([], Ok true) ≫= _) with
      (let '(w', r') := everyR f (i + 1) (pre ++ v :: post) in ([] ++ w', r')).
    rewrite (IH (i + 1)).
    + reflexivity.
    + intros k u' Hk. specialize (Hpre (S k) u' Hk).
      rewrite <- Hpre. f_equal. lia.
    + rewrite <- Hv. f_equal. cbn [length]. lia.
Qed.

(** C2, as amended.  On a board of ROWS rows:
    - for a candidate position with [y ≥ 0] (the engine has no other:
      [currentY] starts at 0 and only grows) isValidMove returns a boolean
      and every board lookup [board[newY][newX]] it performs is inside the
      grid;
    - there is no guard for rows above the board: when [y < 0] and the
      first occupied cell of the first mask row maps to a column of the
      board, [board[newY]] is looked up for it, it is [undefined], and the
      check throws a TypeError instead of treating the cell as open. *)
Theorem C2_lookups_inside_grid (s : state) (bv mv : list (list jsval))
    (x y : Z) (p : piece) :
  boardView s = Some bv → Z.of_nat (length bv) = ROWS →
  matrix (store s) (shape p) = Some mv →
  (0 ≤ y →
     ∃ b, snd (isValidMove s x y p) = Ok b ∧
          Forall in_grid (fst (isValidMove s x y p))) ∧
  (y < 0 →
     ∀ pre v post mv',
       mv = (pre ++ v :: post) :: mv' →
       Forall (λ u, truthy u = false) pre → truthy v = true →
       0 ≤ x + Z.of_nat (length pre) < COLS →
       isValidMove s x y p = ([(y, x + Z.of_nat (length pre))], Throw TypeError)).
Proof.
  intros Hbv Hlen Hm.
  destruct (boardView_inv _ _ Hbv) as (rl & Hb & Hrows).
  split.
  - intros Hy. exists (fits bv mv x y).
    by apply (isValidMove_fits s rl bv Hb Hrows).
  - intros Hy pre v post mv' -> Hpre Hv Hx.
    destruct (matrix_inv _ _ _ Hm) as (sl & ml & Esh & Hsl & Hml).
    inversion Hml as [|l0 a ml' mv'' Hl0 Hrest]; subst.
    unfold isValidMove. rewrite Esh. cbn [asArray]. rewrite Hsl.
    rewrite bindR_lift. rewrite fmap_cons. cbn [everyR asArray]. rewrite Hl0.
    rewrite bindR_lift.
    rewrite (everyR_first_throw _ 0 pre v post [(y, x + Z.of_nat (length pre))] TypeError).
    + reflexivity.
    + intros k u Hk. rewrite Forall_forall in Hpre.
      rewrite (Hpre u); [reflexivity | by eapply list_elem_of_lookup_2].
    + rewrite Hv. cbn [negb]. rewrite Z.add_0_l, Z.add_0_r.
      by apply (cellFree_above s rl Hb).
Qed.

Lemma C2_lookups_inside_grid_witness :
  let s := (start 4 0xabc%N).1 in
  let mv := [[JNum 0; JNum 1; JNum 1]; [JNum 1; JNum 1; JNum 0]] in
  boardView s = Some emptyBoard ∧ Z.of_nat (length emptyBoard) = ROWS ∧
  matrix (store s) (shape (currentPiece s)) = Some mv ∧ 0 ≤ 0 ∧ -1 < 0 ∧
  (∃ b, snd (isValidMove s 4 0 (currentPiece s)) = Ok b ∧
        Forall in_grid (fst (isValidMove s 4 0 (currentPiece s)))) ∧
  isValidMove s 4 (-1) (currentPiece s) = ([(-1, 5)], Throw TypeError).
Proof.
  intros s mv.
  assert (H1 : boardView s = Some emptyBoard) by (vm_compute; reflexivity).
  assert (H2 : Z.of_nat (length emptyBoard) = ROWS) by (vm_compute; reflexivity).
  assert (H3 : matrix (store s) (shape (currentPiece s)) = Some mv)
    by (vm_compute; reflexivity).
  split; [exact H1|]. split; [exact H2|]. split; [exact H3|].
  split; [lia|]. split; [lia|]. split.
  - apply (proj1 (C2_lookups_inside_grid s emptyBoard mv 4 0 (currentPiece s) H1 H2 H3)).
    lia.
  - apply (proj2 (C2_lookups_inside_grid s emptyBoard mv 4 (-1) (currentPiece s) H1 H2 H3)
             ltac:(lia) [JNum 0] (JNum 1) [JNum 1] [[JNum 1; JNum 1; JNum 0]]).
    + reflexivity.
    + repeat constructor.
    + reflexivity.
    + cbn. unfold COLS. lia.
Defined.

(** C2, as stated, fails.  The T piece over the empty board at column 4
    and row -1: its first cell is occupied and maps to row -1, column 4.
    isValidMove looks up [board[-1]] and throws; it does not report the
    move as valid, although no cell of the board is occupied. *)
Lemma C2_counterexample :
  let s := (start 1 0xabc%N).1 in
  boardView s = Some emptyBoard ∧
  maskView s = Some [[JNum 1; JNum 1; JNum 1]; [JNum 0; JNum 1; JNum 0]] ∧
  isValidMove s 4 (-1) (currentPiece s) = ([(-1, 4)], Throw TypeError) ∧
  ¬ (((-1, 4) ∉ fst (isValidMove s 4 (-1) (currentPiece s))) ∧
     snd (isValidMove s 4 (-1) (currentPiece s)) = Ok true).
Proof.
  intros s.
  assert (E : isValidMove s 4 (-1) (currentPiece s) = ([(-1, 4)], Throw TypeError))
    by (vm_compute; reflexivity).
  split; [vm_compute; reflexivity|]. split; [vm_compute; reflexivity|].
  split; [exact E|].
  rewrite E. intros [_ H]. discriminate H.
Qed.

(** ** C5: cells outside the columns or below the bottom *)

Lemma fits_outside bv mv (x y : Z) (k j : nat) row v :
  mv !! k = Some row → row !! j = Some v → truthy v = true →
  (x + Z.of_nat j < 0 ∨ COLS ≤ x + Z.of_nat j ∨ ROWS ≤ y + Z.of_nat k) →
  fits bv mv x y = false.
Proof.
  intros Hk Hj Hv Hout. unfold fits.
  eapply forall_idx_false; [exact Hk|]. cbn beta.
  eapply forall_idx_false; [exact Hj|]. cbn beta.
  rewrite Hv. cbn [negb orb]. rewrite !Z.add_0_l. unfold cellFreeB.
  destruct Hout as [H|[H|H]].
  - rewrite (proj2 (Z.leb_gt _ _)) by lia. done.
  - rewrite (proj2 (Z.ltb_ge _ _) H). by rewrite andb_false_r.
  - rewrite (proj2 (Z.ltb_ge _ _) H). by rewrite !andb_false_r.
Qed.

(** C5, as amended.  On a board of ROWS rows and for a candidate position
    with [y ≥ 0]: if an occupied cell of the mask maps to a column outside
    [0, COLS) or to a row [≥ ROWS], isValidMove returns [false]; so a
    [movePiece] towards such a position (a cell at column -1 or COLS)
    returns with the state, and the position in it, unchanged. *)
Theorem C5_outside_is_invalid (s : state) (bv mv : list (list jsval))
    (x y : Z) (p : piece) (k j : nat) (row : list jsval) (v : jsval) :
  boardView s = Some bv → Z.of_nat (length bv) = ROWS →
  matrix (store s) (shape p) = Some mv → 0 ≤ y →
  mv !! k = Some row → row !! j = Some v → truthy v = true →
  (x + Z.of_nat j < 0 ∨ COLS ≤ x + Z.of_nat j ∨ ROWS ≤ y + Z.of_nat k) →
  snd (isValidMove s x y p) = Ok false ∧
  (∀ dx, p = currentPiece s → x = currentX s + dx → y = currentY s →
     movePiece dx s = (s, Ok tt)).
Proof.
  intros Hbv Hlen Hm Hy Hk Hj Hv Hout.
  destruct (boardView_inv _ _ Hbv) as (rl & Hb & Hrows).
  destruct (isValidMove_fits s rl bv Hb Hrows x y p mv Hlen Hm Hy) as [E _].
  rewrite (fits_outside bv mv x y k j row v Hk Hj Hv Hout) in E.
  split; [exact E|].
  intros dx -> -> ->. unfold movePiece. rewrite bindM_get.
  unfold checkMove. erewrite bindM_lift; [| exact E]. reflexivity.
Qed.

Lemma C5_outside_is_invalid_witness :
  let s := (run (replicate 4 ArrowLeft) (start 1 0xabc%N).1).1 in
  let mv := [[JNum 1; JNum 1; JNum 1]; [JNum 0; JNum 1; JNum 0]] in
  boardView s = Some emptyBoard ∧ Z.of_nat (length emptyBoard) = ROWS ∧
  matrix (store s) (shape (currentPiece s)) = Some mv ∧ 0 ≤ 0 ∧
  mv !! 0%nat = Some [JNum 1; JNum 1; JNum 1] ∧
  [JNum 1; JNum 1; JNum 1] !! 0%nat = Some (JNum 1) ∧ truthy (JNum 1) = true ∧
  (-1 + Z.of_nat 0 < 0 ∨ COLS ≤ -1 + Z.of_nat 0 ∨ ROWS ≤ 0 + Z.of_nat 0) ∧
  currentX s = 0 ∧ currentY s = 0 ∧
  snd (isValidMove s (-1) 0 (currentPiece s)) = Ok false ∧
  (∀ dx, currentPiece s = currentPiece s → -1 = currentX s + dx → 0 = currentY s →
     movePiece dx s = (s, Ok tt)).
Proof.
  intros s mv.
  assert (H1 : boardView s = Some emptyBoard) by (vm_compute; reflexivity).
  assert (H2 : Z.of_nat (length emptyBoard) = ROWS) by (vm_compute; reflexivity).
  assert (H3 : matrix (store s) (shape (currentPiece s)) = Some mv) by (vm_compute; reflexivity).
  assert (H4 : -1 + Z.of_nat 0 < 0 ∨ COLS ≤ -1 + Z.of_nat 0 ∨ ROWS ≤ 0 + Z.of_nat 0)
    by (left; lia).
  split; [exact H1|]. split; [exact H2|]. split; [exact H3|].
  split; [lia|]. split; [reflexivity|]. split; [reflexivity|].
  split; [reflexivity|]. split; [exact H4|].
  split; [vm_compute; reflexivity|]. split; [vm_compute; reflexivity|].
  apply (C5_outside_is_invalid s emptyBoard mv (-1) 0 (currentPiece s) 0 0
           [JNum 1; JNum 1; JNum 1] (JNum 1) H1 H2 H3);
    [lia | reflexivity | reflexivity | reflexivity | exact H4].
Defined.

(** C5, as stated, fails.  The T piece over the empty board at column 8
    and row -1: the occupied cell (row 0, column 2) of its mask maps to
    column 10, outside [0, COLS), and isValidMove does not return [false]:
    the first cell maps to row -1, [board[-1]] is [undefined], and the
    check throws. *)
Lemma C5_counterexample :
  let s := (start 1 0xabc%N).1 in
  let mv := [[JNum 1; JNum 1; JNum 1]; [JNum 0; JNum 1; JNum 0]] in
  maskView s = Some mv ∧
  (∃ row v, mv !! 0%nat = Some row ∧ row !! 2%nat = Some v ∧ truthy v = true ∧
            COLS ≤ 8 + Z.of_nat 2) ∧
  isValidMove s 8 (-1) (currentPiece s) = ([(-1, 8)], Throw TypeError) ∧
  snd (isValidMove s 8 (-1) (currentPiece s)) ≠ Ok false.
Proof.
  intros s mv.
  assert (E : isValidMove s 8 (-1) (currentPiece s) = ([(-1, 8)], Throw TypeError))
    by (vm_compute; reflexivity).
  split; [vm_compute; reflexivity|]. split.
  - exists [JNum 1; JNum 1; JNum 1], (JNum 1).
    split; [reflexivity|]. split; [reflexivity|]. split; [reflexivity|].
    unfold COLS. lia.
  - split; [exact E|]. rewrite E. discriminate.
Qed.

(** ** C7: rejected requests *)

(** C7. In every state of the running game the validity check of a move
    and the construction and check of a rotation return without an
    exception.  When the check of a horizontal move is [false],
    [movePiece] returns with the state unchanged.  When the check of the
    rotated matrix is [false], [rotatePiece] returns and all the global
    variables (board, score, piece, position, events) are as before, the
    board and the mask of the piece read as before, and every array that
    existed is unchanged; the rotated matrix was only built in fresh
    arrays, the check was made at the current position only. *)
Theorem C7_rejected_request_is_noop (s : state) :
  reachable s →
  (∀ dx, ∃ b,
     snd (isValidMove s (currentX s + dx) (currentY s) (currentPiece s)) = Ok b ∧
     (b = false → movePiece dx s = (s, Ok tt))) ∧
  (∃ s1 rotated b,
     buildRotated s = (s1, Ok rotated) ∧
     snd (isValidMove s1 (currentX s) (currentY s)
            (Piece rotated (color (currentPiece s)))) = Ok b ∧
     same_globals s s1 ∧ boardView s1 = boardView s ∧ maskView s1 = maskView s ∧
     (∀ l : loc, (l < next s)%nat → store s1 !! l = store s !! l) ∧
     (b = false → rotatePiece s = (s1, Ok tt))).
Proof.
  intros Hs. destruct (reachable_Inv s Hs) as (rl & bv & sl & ml & mv & HB & HM).
  split.
  - intros dx. exists (fits bv mv (currentX s + dx) (currentY s)).
    pose proof (checkMove_fits s rl bv mv (currentX s + dx) (currentY s)
                  (currentPiece s) HB (MInv_matrix _ _ _ _ _ _ HM)
                  (m_y _ _ _ _ _ _ HM)) as E.
    unfold checkMove, liftM in E. injection E as E. split; [exact E|].
    intros Hf. rewrite (movePiece_eq _ _ _ _ _ _ dx HB HM). by rewrite Hf.
  - destruct (rotatePiece_spec s rl bv sl ml mv HB HM)
      as (s1 & sl' & ml' & E1 & Hg1 & HB1 & HM1 & Hn1 & Hfr1 & Hsl' & Hml' & Hfresh & E).
    exists s1, (JRef sl'), (fits bv (rotateV mv) (currentX s) (currentY s)).
    split; [done|]. split.
    { pose proof (checkMove_fits s1 rl bv (rotateV mv) (currentX s) (currentY s)
                    (Piece (JRef sl') (color (currentPiece s))) HB1) as E2.
      unfold checkMove, liftM in E2.
      assert (Hy := m_y _ _ _ _ _ _ HM).
      specialize (E2 (matrix_intro _ _ _ _ Hsl' Hml') Hy). by injection E2 as E2. }
    split; [done|].
    split; [by rewrite (BInv_boardView _ _ _ HB1), (BInv_boardView _ _ _ HB)|].
    split; [by rewrite (MInv_maskView _ _ _ _ _ _ HM1), (MInv_maskView _ _ _ _ _ _ HM)|].
    split; [done|]. intros Hf. rewrite E. by rewrite Hf.
Qed.

Lemma upright_at_wall_reachable : reachable upright_at_wall.
Proof.
  apply start_run_reachable; decide_by_compute.
Qed.

Lemma no_wall_kick :
  let s := upright_at_wall in
  let s1 := (buildRotated s).1 in
  currentX s = 9 ∧ maskView s = Some [[JNum 1]; [JNum 1]; [JNum 1]; [JNum 1]] ∧
  (∃ rotated,
     (buildRotated s).2 = Ok rotated ∧
     snd (isValidMove s1 9 (currentY s) (Piece rotated (color (currentPiece s)))) = Ok false ∧
     snd (isValidMove s1 6 (currentY s) (Piece rotated (color (currentPiece s)))) = Ok true) ∧
  rotatePiece s = (s1, Ok tt) ∧ currentX s1 = 9 ∧ maskView s1 = maskView s.
Proof.
  intros s s1. split; [vm_compute; reflexivity|].
  split; [vm_compute; reflexivity|]. split.
  - eexists. split; [vm_compute; reflexivity|]. split; vm_compute; reflexivity.
  - split; [vm_compute; reflexivity|]. split; vm_compute; reflexivity.
Qed.

Lemma C7_rejected_request_is_noop_witness :
  let s := upright_at_wall in
  reachable s ∧
  (∀ dx, ∃ b,
     snd (isValidMove s (currentX s + dx) (currentY s) (currentPiece s)) = Ok b ∧
     (b = false → movePiece dx s = (s, Ok tt))) ∧
  (∃ s1 rotated b,
     buildRotated s = (s1, Ok rotated) ∧
     snd (isValidMove s1 (currentX s) (currentY s)
            (Piece rotated (color (currentPiece s)))) = Ok b ∧
     same_globals s s1 ∧ boardView s1 = boardView s ∧ maskView s1 = maskView s ∧
     (∀ l : loc, (l < next s)%nat → store s1 !! l = store s !! l) ∧
     (b = false → rotatePiece s = (s1, Ok tt))).
Proof.
  intros s. split; [exact upright_at_wall_reachable|].
  exact (C7_rejected_request_is_noop s upright_at_wall_reachable).
Defined.

(** ** C6: game over *)

Lemma alerts_app evs1 evs2 : alerts (evs1 ++ evs2) = (alerts evs1 + alerts evs2)%nat.
Proof.
  induction evs1 as [|[msg|n] evs1 IH]; cbn [app alerts]; [done | | done].
  by rewrite IH.
Qed.

(** C6. A placement in a state of the running game, with [s3] the state
    right after its [newPiece]:
    - when the spawn position of the fresh piece is invalid, [placePiece]
      alerts once and returns with the board all-empty, the score 0, and
      the fresh piece in play at its spawn position, which is now valid;
    - when it is valid, [placePiece] returns in [s3], without an alert;
    - no other step of the engine alerts or resets: the respawn itself, a
      horizontal move, a rotation and a drop that moves the piece down
      leave the number of alerts as it was. *)
Theorem C6_spawn_collision_resets (s : state) (i : Z) (c : N) :
  reachable s → draw_ok i c →
  let s3 := respawned i c s in
  (∃ mask, canonical !! Z.to_nat i = Some mask ∧ maskView s3 = Some mask ∧
           currentX s3 = spawnX mask ∧ currentY s3 = 0) ∧
  (snd (isValidMove s3 (currentX s3) (currentY s3) (currentPiece s3)) = Ok false →
     ∃ s', placePiece i c s = (s', Ok tt) ∧
       boardView s' = Some emptyBoard ∧ score s' = 0 ∧
       currentPiece s' = currentPiece s3 ∧ maskView s' = maskView s3 ∧
       currentX s' = currentX s3 ∧ currentY s' = currentY s3 ∧
       snd (isValidMove s' (currentX s') (currentY s') (currentPiece s')) = Ok true ∧
       events s' = events s3 ++ [Alert gameOverMessage; ScoreText 0]) ∧
  (snd (isValidMove s3 (currentX s3) (currentY s3) (currentPiece s3)) = Ok true →
     placePiece i c s = (s3, Ok tt)) ∧
  alerts (events s3) = alerts (events s) ∧
  (∀ dx, events (movePiece dx s).1 = events s) ∧
  events (rotatePiece s).1 = events s ∧
  (snd (isValidMove s (currentX s) (currentY s + 1) (currentPiece s)) = Ok true →
     drop i c s = (set_currentY (currentY s + 1) s, Ok tt)).
Proof.
  intros Hs Hdraw s3. pose proof (reachable_Inv s Hs) as HI.
  pose proof HI as (rl & bv & sl & ml & mv & HB & HM).
  destruct (placePiece_spec s i c HI Hdraw)
    as (s1 & s2 & s3' & rl3 & bv3 & mask & E1 & E2 & E3 & HB3 & Hmv3 & Hmask & Hcan
        & Hcol & Hx3 & Hy3 & Hchk & Eplace & Hinv).
  assert (s3 = s3') as Es3.
  { unfold s3, respawned. rewrite E1. cbn [fst]. rewrite E2. cbn [fst]. by rewrite E3. }
  clearbody s3. subst s3'.
  unfold checkMove, liftM in Hchk. injection Hchk as Hchk.
  split; [by exists mask|]. split; [|split; [|split; [|split; [|split]]]].
  - intros Hfalse. rewrite Hchk in Hfalse. injection Hfalse as Hfalse.
    rewrite Eplace, Hfalse. cbn [negb].
    destruct (gameOver_spec s3 (b_wf _ _ _ HB3) (b_catalog _ _ _ HB3) (b_next _ _ _ HB3))
      as (s4 & rl4 & E4 & HB4 & Hsc4 & Hev4 & Hp4 & Hx4 & Hy4 & Hn4 & Hfr4 & Hfresh4).
    assert (HI4 : Inv s4) by (apply Hinv; by rewrite Hfalse).
    destruct HI4 as (rl4' & bv4' & sl4 & ml4 & mv4 & HB4' & HM4).
    pose proof (BInv_boardView _ _ _ HB4) as Hv4.
    pose proof (BInv_boardView _ _ _ HB4') as Hv4'.
    assert (bv4' = emptyBoard) as -> by congruence.
    pose proof (MInv_maskView _ _ _ _ _ _ HM4) as Hmv4.
    exists s4. split; [done|]. split; [done|]. split; [done|]. split; [done|].
    split.
    { rewrite Hmv3.
      destruct (matrix_inv _ _ _ Hmv3) as (l3 & ls3 & Esh3 & Hl3 & Hrows3).
      unfold maskView. rewrite Hp4, Esh3.
      pose proof (store_wf_lt _ _ _ (b_wf _ _ _ HB3) Hl3) as Hl3_lt.
      pose proof (rows_at_lt _ _ _ (b_wf _ _ _ HB3) Hrows3) as Hls3_lt.
      eapply matrix_intro; [by rewrite Hfr4|].
      eapply rows_at_frame; [exact Hrows3|]. intros l Hl. apply Hfr4. by apply Hls3_lt. }
    split; [done|]. split; [done|]. split; [|done].
    pose proof (checkMove_fits s4 rl4' emptyBoard mv4 (currentX s4) (currentY s4)
                  (currentPiece s4) HB4' (MInv_matrix _ _ _ _ _ _ HM4)
                  (m_y _ _ _ _ _ _ HM4)) as E.
    unfold checkMove, liftM in E. injection E as E.
    by rewrite E, (m_fits _ _ _ _ _ _ HM4).
  - intros Htrue. rewrite Hchk in Htrue. injection Htrue as Htrue.
    by rewrite Eplace, Htrue.
  - destruct (placeCells_spec s rl bv sl ml mv HB HM)
      as (s1' & bv1 & E1' & HB1 & Hg1 & _).
    assert (s1' = s1) as -> by congruence.
    destruct (clearLines_spec s1 rl bv1 HB1)
      as (s2' & rl2 & E2' & HB2 & Hsc2 & Hev2 & _).
    assert (s2' = s2) as -> by congruence.
    destruct (newPiece_spec s2 i c (b_wf _ _ _ HB2) (b_catalog _ _ _ HB2)
                (b_next _ _ _ HB2) Hdraw)
      as (s3' & mask' & sl3 & ml3 & E3' & _ & _ & _ & _ & _ & _ & _ & _ & _ & _ & Eev3 & _).
    assert (s3' = s3) as -> by congruence.
    rewrite Eev3, Hev2, alerts_app.
    destruct Hg1 as (_ & _ & _ & _ & _ & ->).
    destruct (0 <? _); cbn [alerts]; lia.
  - intros dx. rewrite (movePiece_eq _ _ _ _ _ _ dx HB HM).
    destruct (fits bv mv (currentX s + dx) (currentY s)); reflexivity.
  - destruct (rotatePiece_spec s rl bv sl ml mv HB HM)
      as (s1' & sl' & ml' & _ & Hg1 & _ & _ & _ & _ & _ & _ & _ & E).
    rewrite E. destruct Hg1 as (_ & _ & _ & _ & _ & Eev).
    destruct (fits bv (rotateV mv) (currentX s) (currentY s)); exact Eev.
  - intros Htrue.
    pose proof (checkMove_fits s rl bv mv (currentX s) (currentY s + 1)
                  (currentPiece s) HB (MInv_matrix _ _ _ _ _ _ HM)) as E.
    assert (Hy := m_y _ _ _ _ _ _ HM).
    specialize (E ltac:(lia)). unfold checkMove, liftM in E. injection E as E.
    rewrite E in Htrue. injection Htrue as Htrue.
    rewrite (drop_eq _ _ _ _ _ _ i c HB HM). by rewrite Htrue.
Qed.

Lemma topped_out_reachable : reachable topped_out.
Proof. apply start_run_reachable; decide_by_compute. Qed.

Lemma C6_spawn_collision_resets_witness :
  reachable topped_out ∧ draw_ok 2 7%N ∧
  (let s3 := respawned 2 7%N topped_out in
   snd (isValidMove s3 (currentX s3) (currentY s3) (currentPiece s3)) = Ok false) ∧
  ∃ s', placePiece 2 7%N topped_out = (s', Ok tt) ∧
    boardView s' = Some emptyBoard ∧ score s' = 0 ∧
    events s' = [Alert gameOverMessage; ScoreText 0].
Proof.
  assert (Hd : draw_ok 2 7%N) by decide_by_compute.
  assert (Hc : let s3 := respawned 2 7%N topped_out in
    snd (isValidMove s3 (currentX s3) (currentY s3) (currentPiece s3)) = Ok false)
    by (vm_compute; reflexivity).
  split; [exact topped_out_reachable|]. split; [exact Hd|]. split; [exact Hc|].
  destruct (C6_spawn_collision_resets topped_out 2 7%N topped_out_reachable Hd)
    as (_ & Hreset & _).
  destruct (Hreset Hc) as (s' & E & Hb & Hsc & _ & _ & _ & _ & _ & Hev).
  exists s'. split; [exact E|]. split; [exact Hb|]. split; [exact Hsc|].
  rewrite Hev. vm_compute. reflexivity.
Defined.

(** ** C3: rotation *)

Lemma map_idx_lookup {A B} (f : A → Z → B) (i : Z) (a : list A) (k : nat) :
  map_idx f i a !! k = (λ v, f v (i + Z.of_nat k)) <$> (a !! k).
Proof.
  revert i k. induction a as [|v a IH]; intros i k; [done|].
  destruct k as [|k]; cbn [map_idx lookup list_lookup fmap option_fmap option_map].
  - by rewrite Z.add_0_r.
  - rewrite IH. destruct (a !! k); [|done]. cbn. do 2 f_equal. lia.
Qed.

Lemma map_idx_length {A B} (f : A → Z → B) (i : Z) (a : list A) :
  length (map_idx f i a) = length a.
Proof. revert i. induction a as [|v a IH]; intros i; [done|]. cbn. by rewrite IH. Qed.

Lemma transpose_length (w : nat) m :
  Forall (λ r, length r = w) m → length (transpose w m) = w.
Proof.
  induction 1 as [|r m Hr _ IH]; cbn [transpose].
  - apply length_replicate.
  - rewrite length_zip_with. lia.
Qed.

Lemma transpose_lookup (w : nat) m (i : nat) :
  Forall (λ r, length r = w) m → (i < w)%nat →
  transpose w m !! i = Some ((λ row, aget row (Z.of_nat i)) <$> m).
Proof.
  intros Hall Hi. induction Hall as [|r m Hr _ IH]; cbn [transpose].
  - by rewrite lookup_replicate_2.
  - rewrite lookup_zip_with, IH.
    destruct (lookup_lt_is_Some_2 r i) as [v Hv]; [lia|].
    rewrite Hv. cbn. by rewrite (aget_lookup _ _ _ Hv).
Qed.

Lemma rotateV_lookup r mv (i : nat) :
  (i < length r)%nat →
  rotateV (r :: mv) !! i
    = Some (reverse ((λ row, aget row (Z.of_nat i)) <$> r :: mv)).
Proof.
  intros Hi. unfold rotateV. change (default [] (head (r :: mv))) with r.
  rewrite map_idx_lookup.
  destruct (lookup_lt_is_Some_2 r i) as [v Hv]; [lia|]. rewrite Hv. cbn.
  by rewrite Z.add_0_l.
Qed.

(** The code's rotation is transposition followed by the reversal of each
    row. *)
Lemma rotateV_transpose (w : nat) mv :
  mv ≠ [] → Forall (λ r, length r = w) mv →
  rotateV mv = reverse <$> transpose w mv.
Proof.
  intros Hne Hall. destruct mv as [|r mv]; [done|].
  assert (Hr : length r = w) by (by apply Forall_cons in Hall as [? _]).
  apply list_eq. intros i. rewrite list_lookup_fmap.
  destruct (decide (i < w)%nat) as [Hi|Hi].
  - rewrite rotateV_lookup by lia. by rewrite transpose_lookup.
  - rewrite (lookup_ge_None_2 (rotateV _)).
    + rewrite (lookup_ge_None_2 (transpose _ _)); [done|].
      rewrite transpose_length by done. lia.
    + unfold rotateV. change (default [] (head (r :: mv))) with r.
      rewrite map_idx_length. lia.
Qed.

(** The rotation is clockwise: the cell in row [i], column [j] of the
    rotated mask is the cell in column [i] of row [h - 1 - j], counted from
    the bottom, of the mask. *)
Lemma rotateV_clockwise (w : nat) mv (i j : Z) :
  Forall (λ r, length r = w) mv →
  0 ≤ i < Z.of_nat w → 0 ≤ j < Z.of_nat (length mv) →
  aget (rowOf (rotateV mv) i) j
    = aget (rowOf mv (Z.of_nat (length mv) - 1 - j)) i.
Proof.
  intros Hall Hi Hj. destruct mv as [|r mv]; [cbn in Hj; lia|].
  assert (Hr : length r = w) by (by apply Forall_cons in Hall as [? _]).
  set (m := r :: mv) in *.
  unfold rowOf at 1. unfold m at 1. rewrite rotateV_lookup by lia. cbn [default].
  fold m. rewrite Z2Nat.id by lia.
  set (col := (λ row, aget row i) <$> m).
  assert (Hcol : length col = length m) by apply length_fmap.
  unfold aget at 1. rewrite decide_True by lia. unfold id.
  rewrite reverse_lookup by lia. rewrite Hcol.
  unfold col. rewrite list_lookup_fmap.
  replace (length m - S (Z.to_nat j))%nat
    with (Z.to_nat (Z.of_nat (length m) - 1 - j)) by lia.
  unfold rowOf.
  destruct (lookup_lt_is_Some_2 m (Z.to_nat (Z.of_nat (length m) - 1 - j)))
    as [row Hrow]; [lia|].
  by rewrite Hrow.
Qed.

(** C3. For the mask of the piece in any state of the running game,
    which is a non-empty rectangle: the matrix [rotatePiece] builds is
    [rotateV] of the mask; it is the transposed mask with each row
    reversed; its cell (i, j) is the cell (h - 1 - j, i) of the mask, a
    quarter turn clockwise.  Four rotations of each of the seven canonical
    masks give the mask back, and the 1×4 mask of the I piece rotates to
    the 4×1 mask and back. *)
Theorem C3_rotation_is_clockwise (s : state) :
  reachable s →
  ∃ mv (w : nat),
    maskView s = Some mv ∧ mv ≠ [] ∧ (0 < w)%nat ∧
    Forall (λ r, length r = w) mv ∧
    (∃ s1 rotated,
       buildRotated s = (s1, Ok rotated) ∧
       matrix (store s1) rotated = Some (rotateV mv)) ∧
    rotateV mv = reverse <$> transpose w mv ∧
    (∀ i j : Z, 0 ≤ i < Z.of_nat w → 0 ≤ j < Z.of_nat (length mv) →
       aget (rowOf (rotateV mv) i) j
         = aget (rowOf mv (Z.of_nat (length mv) - 1 - j)) i) ∧
    Forall (λ m, rotateV (rotateV (rotateV (rotateV m))) = m) canonical ∧
    rotateV [[JNum 1; JNum 1; JNum 1; JNum 1]]
      = [[JNum 1]; [JNum 1]; [JNum 1]; [JNum 1]] ∧
    rotateV [[JNum 1]; [JNum 1]; [JNum 1]; [JNum 1]]
      = [[JNum 1; JNum 1; JNum 1; JNum 1]].
Proof.
  intros Hs. destruct (reachable_Inv s Hs) as (rl & bv & sl & ml & mv & HB & HM).
  destruct (m_rect _ _ _ _ _ _ HM) as [w Hw].
  destruct (m_nonempty _ _ _ _ _ _ HM) as (r & mv' & Emv & Hr).
  assert (Hne : mv ≠ []) by (by rewrite Emv).
  assert (Hwpos : (0 < w)%nat).
  { rewrite Emv in Hw. apply Forall_cons in Hw as [<- _].
    destruct r; [done | cbn; lia]. }
  exists mv, w. split; [by eapply MInv_maskView|]. split; [done|].
  split; [done|]. split; [done|]. split.
  { destruct (rotatePiece_spec s rl bv sl ml mv HB HM)
      as (s1 & sl' & ml' & E1 & _ & _ & _ & _ & _ & Hsl' & Hml' & _).
    exists s1, (JRef sl'). split; [done|]. by eapply matrix_intro. }
  split; [by apply rotateV_transpose|].
  split; [intros i j Hi Hj; by apply (rotateV_clockwise w)|].
  split; [|split; reflexivity].
  apply (bool_decide_unpack _). vm_compute. exact I.
Qed.

Lemma C3_rotation_is_clockwise_witness :
  let s := (start 0 0xabc%N).1 in
  reachable s ∧
  ∃ mv (w : nat),
    maskView s = Some mv ∧ mv ≠ [] ∧ (0 < w)%nat ∧
    Forall (λ r, length r = w) mv ∧
    (∃ s1 rotated,
       buildRotated s = (s1, Ok rotated) ∧
       matrix (store s1) rotated = Some (rotateV mv)) ∧
    rotateV mv = reverse <$> transpose w mv ∧
    (∀ i j : Z, 0 ≤ i < Z.of_nat w → 0 ≤ j < Z.of_nat (length mv) →
       aget (rowOf (rotateV mv) i) j
         = aget (rowOf mv (Z.of_nat (length mv) - 1 - j)) i) ∧
    Forall (λ m, rotateV (rotateV (rotateV (rotateV m))) = m) canonical ∧
    rotateV [[JNum 1; JNum 1; JNum 1; JNum 1]]
      = [[JNum 1]; [JNum 1]; [JNum 1]; [JNum 1]] ∧
    rotateV [[JNum 1]; [JNum 1]; [JNum 1]; [JNum 1]]
      = [[JNum 1; JNum 1; JNum 1; JNum 1]].
Proof.
  intros s.
  assert (Hs : reachable s).
  { apply (reach_start 0 0xabc%N s (start 0 0xabc%N).2); [decide_by_compute|].
    unfold s. by destruct (start 0 0xabc%N). }
  split; [exact Hs|]. exact (C3_rotation_is_clockwise s Hs).
Defined.

(** ** C1: the score of a placement *)

(** C1 fails on the code when two full rows are adjacent.  In the state
    [two_rows_ready], which the game reaches, the piece is placed: after
    its cells are written rows 18 and 19 are both full, and [clearLines]
    clears one row only, adds 10 to the score and leaves a full row at
    index 19; so does the whole handler. *)
Theorem C1_adjacent_full_rows_cleared_once :
  let s := two_rows_ready in
  let s1 := (placeCells s).1 in
  let s2 := (clearLines s1).1 in
  let s' := (handle (Tick 2 0xabc%N) s).1 in
  reachable s ∧ score s = 0 ∧
  fullRows s1 = Some (replicate 18 false ++ [true; true]) ∧
  clearLines s1 = (s2, Ok tt) ∧ score s2 = 10 ∧
  fullRows s2 = Some (replicate 19 false ++ [true]) ∧
  events s2 = [ScoreText 10] ∧
  (handle (Tick 2 0xabc%N) s).2 = Ok tt ∧ score s' = 10 ∧
  fullRows s' = Some (replicate 19 false ++ [true]).
Proof.
  intros s s1 s2 s'.
  split; [apply start_run_reachable; decide_by_compute|].
  split; [vm_compute; reflexivity|]. split; [vm_compute; reflexivity|].
  split; [unfold s2; by destruct (clearLines s1) as [? [[]|]] eqn:E;
          [| vm_compute in E; discriminate]|].
  split; [vm_compute; reflexivity|]. split; [vm_compute; reflexivity|].
  split; [vm_compute; reflexivity|]. split; [vm_compute; reflexivity|].
  split; vm_compute; reflexivity.
Qed.

(** The loop of [clearLines] by value, on two boards with two full rows:
    rows 17 and 19 are both cleared; of rows 18 and 19 only one is. *)
Lemma clearLinesV_two_rows :
  let full := replicate 10 (JStr "#abc") in
  clearLinesV (replicate 17 emptyRow ++ [full; emptyRow; full]) = (emptyBoard, 2) ∧
  clearLinesV (replicate 18 emptyRow ++ [full; full])
    = (replicate 19 emptyRow ++ [full], 1).
Proof. split; vm_compute; reflexivity. Qed.

(** On the empty board, at the spawn position, four presses of the rotate
    key bring each of the seven pieces back to its canonical mask. *)
Lemma four_rotations_at_spawn :
  Forall (λ i,
    let s := (start i 0xabc%N).1 in
    let r := run (replicate 4 ArrowUp) s in
    r.2 = Ok tt ∧ maskView r.1 = maskView s ∧
    maskView s = canonical !! Z.to_nat i ∧
    shape (currentPiece r.1) ≠ shape (currentPiece s))
    [0; 1; 2; 3; 4; 5; 6].
Proof.
  repeat (apply Forall_cons; split;
          [do 3 (split; [vm_compute; reflexivity|]); vm_compute; discriminate|]).
  apply Forall_nil_2.
Qed.

(** A fresh piece shares arrays with the catalog: the shape of the I piece
    is a fresh array around the catalog row [PIECES[0]], and the shape of
    each other piece is the catalog entry [PIECES[i]] itself. *)
Lemma spawn_aliases_catalog :
  (let s := (start 0 0xabc%N).1 in
   getIndex (store s) (shape (currentPiece s)) 0 = getIndex (store s) PIECES 0 ∧
   getIndex (store s) PIECES 0 = Ok (JRef 1%nat)) ∧
  Forall (λ i,
    let s := (start i 0xabc%N).1 in
    getIndex (store s) PIECES i = Ok (shape (currentPiece s)))
    [1; 2; 3; 4; 5; 6].
Proof.
  split; [split; vm_compute; reflexivity|].
  repeat (apply Forall_cons; split; [vm_compute; reflexivity|]).
  apply Forall_nil_2.
Qed.

(** * Further properties *)

(** ** isValidMove, exactly *)

Lemma cellFreeB_intro bv X Y :
  0 ≤ X < COLS → Y < ROWS → aget (rowOf bv Y) X = EMPTY →
  cellFreeB bv X Y = true.
Proof.
  intros HX HY HE. unfold cellFreeB, strict_eq. rewrite !andb_true_iff.
  split; [split; [split|]|].
  - apply Z.leb_le. lia.
  - apply Z.ltb_lt. lia.
  - by apply Z.ltb_lt.
  - by apply bool_decide_eq_true.
Qed.

Lemma fits_true_iff bv mv (x y : Z) :
  fits bv mv x y = true ↔
  ∀ (k j : nat) row v,
    mv !! k = Some row → row !! j = Some v → truthy v = true →
    0 ≤ x + Z.of_nat j < COLS ∧ y + Z.of_nat k < ROWS ∧
    aget (rowOf bv (y + Z.of_nat k)) (x + Z.of_nat j) = EMPTY.
Proof.
  split.
  - intros Hf k j row v. by apply fits_cell.
  - intros H. unfold fits. apply forall_idx_true. intros k row Hk. cbn beta.
    apply forall_idx_true. intros j v Hj. cbn beta.
    destruct (truthy v) eqn:Hv; [|reflexivity]. cbn [negb orb].
    rewrite !Z.add_0_l.
    destruct (H k j row v Hk Hj Hv) as (HX & HY & HE). by apply cellFreeB_intro.
Qed.

(** X1.  isValidMove (lines 77-88), for a candidate row [y >= 0] on a board
    of ROWS rows: the check returns a boolean, and it returns [true] exactly
    when every occupied cell of the mask maps to a column in [0, COLS), a
    row below ROWS and a cell of the board that holds EMPTY. *)
Theorem isValidMove_true_iff (s : state) (bv mv : list (list jsval))
    (x y : Z) (p : piece) :
  boardView s = Some bv → Z.of_nat (length bv) = ROWS →
  matrix (store s) (shape p) = Some mv → 0 ≤ y →
  ∃ b : bool,
    snd (isValidMove s x y p) = Ok b ∧
    (b = true ↔
     ∀ (k j : nat) row v,
       mv !! k = Some row → row !! j = Some v → truthy v = true →
       0 ≤ x + Z.of_nat j < COLS ∧ y + Z.of_nat k < ROWS ∧
       aget (rowOf bv (y + Z.of_nat k)) (x + Z.of_nat j) = EMPTY).
Proof.
  intros Hbv Hlen Hm Hy.
  destruct (boardView_inv s bv Hbv) as (rl & Hboard & Hrows).
  destruct (isValidMove_fits s rl bv Hboard Hrows x y p mv Hlen Hm Hy) as [E _].
  exists (fits bv mv x y). split; [exact E | apply fits_true_iff].
Qed.

Lemma isValidMove_true_iff_witness :
  let s := (start 1 0xabc%N).1 in
  let mv := [[JNum 1; JNum 1; JNum 1]; [JNum 0; JNum 1; JNum 0]] in
  boardView s = Some emptyBoard ∧ Z.of_nat (length emptyBoard) = ROWS ∧
  matrix (store s) (shape (currentPiece s)) = Some mv ∧ 0 ≤ 18 ∧
  ∃ b : bool,
    snd (isValidMove s 7 18 (currentPiece s)) = Ok b ∧
    (b = true ↔
     ∀ (k j : nat) row v,
       mv !! k = Some row → row !! j = Some v → truthy v = true →
       0 ≤ 7 + Z.of_nat j < COLS ∧ 18 + Z.of_nat k < ROWS ∧
       aget (rowOf emptyBoard (18 + Z.of_nat k)) (7 + Z.of_nat j) = EMPTY).
Proof.
  intros s mv.
  assert (H1 : boardView s = Some emptyBoard) by (vm_compute; reflexivity).
  assert (H2 : Z.of_nat (length emptyBoard) = ROWS) by (vm_compute; reflexivity).
  assert (H3 : matrix (store s) (shape (currentPiece s)) = Some mv)
    by (vm_compute; reflexivity).
  split; [exact H1|]. split; [exact H2|]. split; [exact H3|]. split; [lia|].
  apply (isValidMove_true_iff s emptyBoard mv 7 18 (currentPiece s) H1 H2 H3).
  lia.
Defined.

(** ** placePiece writes the cells of the piece, exactly *)

Lemma forEachM_fold {A B} (Rel : B → state → Prop) (f : A → Z → M unit)
    (g : B → A → Z → B) (a : list A) (i : Z) (b : B) s :
  Rel b s →
  (∀ (k : nat) v b0 s0, a !! k = Some v → Rel b0 s0 →
     ∃ s1, f v (i + Z.of_nat k) s0 = (s1, Ok tt) ∧
           Rel (g b0 v (i + Z.of_nat k)) s1) →
  ∃ s', forEachM f i a s = (s', Ok tt) ∧ Rel (foldl_idx g i a b) s'.
Proof.
  revert i b s. induction a as [|v a IH]; intros i b s H0 Hstep.
  - exists s. split; [reflexivity | exact H0].
  - destruct (Hstep 0%nat v b s eq_refl H0) as (s1 & E1 & H1).
    rewrite Z.add_0_r in E1, H1.
    destruct (IH (i + 1) (g b v i) s1 H1) as (s' & E' & H').
    { intros k w b0 s0 Hk Hr.
      destruct (Hstep (S k) w b0 s0 Hk Hr) as (s2 & E2 & H2).
      exists s2. replace (i + 1 + Z.of_nat k) with (i + Z.of_nat (S k)) by lia.
      split; [exact E2 | exact H2]. }
    exists s'. split; [|exact H']. cbn [forEachM].
    by rewrite (bindM_ok _ _ _ _ _ E1).
Qed.

(** board[Y][X] = v, inside the grid, on the rows. *)
Lemma setCell_exact s rl bv (X Y : Z) v :
  BInv s rl bv → 0 ≤ Y < ROWS → 0 ≤ X < COLS → is_cell v →
  ∃ s',
    (r ← liftM (λ s, getIndex (store s) (JRef (board s)) Y); setIndex r X v) s
      = (s', Ok tt) ∧
    BInv s' rl (setCellV bv X Y v) ∧ same_globals s s' ∧ next s' = next s ∧
    (∀ l : loc, l ∉ rl → store s' !! l = store s !! l).
Proof.
  intros HB HY HX Hv.
  pose proof (b_grid _ _ _ HB) as Hg. pose proof Hg as [Hlen Hall].
  destruct (board_row s rl bv (b_rows _ _ _ HB) Y) as (r & Hr & Hst);
    [lia|].
  destruct (lookup_lt_is_Some_2 bv (Z.to_nat Y)) as [row Hrow]; [lia|].
  assert (Hrl : rl !! Z.to_nat Y = Some r).
  { destruct (rows_at_lookup _ _ _ _ _ (b_rows _ _ _ HB) Hrow) as (r' & Hr' & _).
    unfold aget in Hr. rewrite decide_True in Hr by lia.
    rewrite list_lookup_fmap, Hr' in Hr. simpl in Hr. congruence. }
  assert (rowOf bv Y = row) as Erow by (unfold rowOf; by rewrite Hrow).
  rewrite Erow in Hst.
  pose proof (grid_row _ _ _ Hg Hrow) as Hrowlen.
  pose proof (b_nodup _ _ _ HB) as Hnd. apply NoDup_cons in Hnd as [Hbnot Hnd].
  assert (Hin : r ∈ rl) by (eapply list_elem_of_lookup_2; eauto).
  assert (Hrb : r ≠ board s) by (intros ->; done).
  assert (EV : setCellV bv X Y v = <[Z.to_nat Y := <[Z.to_nat X := v]> row]> bv).
  { unfold setCellV. rewrite decide_True by lia. rewrite Erow. unfold aset.
    rewrite decide_False by lia. by rewrite decide_True by lia. }
  rewrite EV.
  exists (set_store <[r := <[Z.to_nat X := v]> row]> s).
  split.
  { erewrite bindM_lift; [| cbn [getIndex]; rewrite (b_board _ _ _ HB), Hr; reflexivity].
    unfold setIndex. rewrite Hst. unfold aset.
    rewrite decide_False by lia. rewrite decide_True by lia. reflexivity. }
  split.
  { constructor; unfold store_wf, catalog_intact; simpl_state.
    - intros l Hl. rewrite lookup_insert_ne.
      + by apply (b_wf _ _ _ HB).
      + intros <-. pose proof (store_wf_lt _ _ _ (b_wf _ _ _ HB) Hst). lia.
    - intros l Hl. rewrite lookup_insert_ne; [by apply (b_catalog _ _ _ HB)|].
      intros <-. pose proof (b_fresh _ _ _ HB) as Hf.
      apply Forall_cons in Hf as [_ Hf]. rewrite Forall_forall in Hf.
      by apply (Hf r).
    - exact (b_next _ _ _ HB).
    - rewrite lookup_insert_ne by done. exact (b_board _ _ _ HB).
    - apply rows_at_insert; [exact (b_rows _ _ _ HB) | done | done].
    - exact (b_nodup _ _ _ HB).
    - exact (b_fresh _ _ _ HB).
    - by apply grid_insert. }
  split; [by repeat split|]. split; [done|].
  intros l Hl. simpl_state. rewrite lookup_insert_ne; [done|]. by intros <-.
Qed.

Lemma placeCells_exact s rl bv sl ml mv :
  BInv s rl bv → MInv s rl bv sl ml mv →
  ∃ s',
    placeCells s = (s', Ok tt) ∧
    BInv s' rl (placeCellsV bv mv (currentX s) (currentY s)
                  (JStr (color (currentPiece s)))) ∧
    same_globals s s' ∧ next s' = next s ∧
    (∀ l : loc, l ∉ rl → store s' !! l = store s !! l).
Proof.
  intros HB HM.
  set (Rel := λ (b0 : list (list jsval)) (s0 : state),
    BInv s0 rl b0 ∧ same_globals s s0 ∧ next s0 = next s ∧
    (∀ l : loc, l ∉ rl → store s0 !! l = store s !! l)).
  assert (HR0 : Rel bv s).
  { split; [done|]. split; [apply same_globals_refl | done]. }
  pose proof (m_sep _ _ _ _ _ _ HM) as Hsep.
  apply Forall_cons in Hsep as [_ Hsep]. rewrite Forall_forall in Hsep.
  unfold placeCells, placeCellsV.
  erewrite bindM_lift;
    [| rewrite (m_shape _ _ _ _ _ _ HM); cbn [asArray];
       rewrite (m_outer _ _ _ _ _ _ HM); reflexivity].
  set (x := currentX s). set (y := currentY s).
  set (v := JStr (color (currentPiece s))).
  set (g := λ (b0 : list (list jsval)) (r : loc) (dy : Z),
    foldl_idx (λ b1 value dx,
      if truthy value then setCellV b1 (x + dx) (y + dy) v else b1)
      0 (default [] (store s !! r)) b0).
  match goal with |- context [forEachM ?ff 0 (JRef <$> ml) s] =>
    destruct (forEachM_fold Rel ff
                (λ b0 (r : jsval) dy,
                   match r with JRef l => g b0 l dy | _ => b0 end)
                (JRef <$> ml) 0 bv s HR0) as (s' & E & HR')
  end.
  - intros k r b0 s0 Hk HRk.
    rewrite list_lookup_fmap in Hk.
    destruct (ml !! k) as [l|] eqn:Hl; [|done]. injection Hk as <-.
    destruct (Forall2_lookup_l _ _ _ _ _ (m_rows _ _ _ _ _ _ HM) Hl)
      as (row & Hrow & Hst).
    assert (Hlrl : l ∉ rl).
    { intros Hin. apply (Hsep l); [by eapply list_elem_of_lookup_2 | by right]. }
    assert (Hst0 : store s0 !! l = Some row).
    { destruct HRk as (_ & _ & _ & Hfr). by rewrite Hfr. }
    erewrite bindM_lift; [| cbn [asArray]; rewrite Hst0; reflexivity].
    unfold g. rewrite Hst. cbn [default].
    apply (forEachM_fold Rel); [exact HRk|].
    intros j value b2 s2 Hj (HB2 & Hg2 & Hn2 & Hfr2).
    destruct (truthy value) eqn:Hv.
    + destruct (fits_cell _ _ _ _ _ _ _ _ (m_fits _ _ _ _ _ _ HM) Hrow Hj Hv)
        as (HX & HY & _).
      pose proof (m_y _ _ _ _ _ _ HM) as Hy.
      destruct Hg2 as (Eb & Esc & Ep & Ex & Ey & Eev).
      rewrite bindM_get.
      destruct (setCell_exact s2 rl b2 (currentX s2 + (0 + Z.of_nat j))
                  (currentY s2 + (0 + Z.of_nat k))
                  (JStr (color (currentPiece s2))) HB2)
        as (s3 & E3 & HB3 & Hg3 & Hn3 & Hfr3).
      * rewrite Ey. lia.
      * rewrite Ex. lia.
      * right. rewrite Ep. exact (m_color _ _ _ _ _ _ HM).
      * exists s3. split; [exact E3|]. rewrite Ex, Ey, Ep in HB3.
        split; [exact HB3|].
        split; [eapply same_globals_trans; [|exact Hg3]; by repeat split|].
        split; [congruence|].
        intros l' Hl'. rewrite Hfr3 by done. by apply Hfr2.
    + exists s2. split; [reflexivity|].
      split; [exact HB2|]. split; [exact Hg2|]. split; [exact Hn2 | exact Hfr2].
  - exists s'. split; [exact E|].
    assert (EF : ∀ (a : list loc) (m : list (list jsval)) (i : Z) b0,
      rows_at (store s) a m →
      foldl_idx (λ b0 (r : jsval) dy,
                   match r with JRef l => g b0 l dy | _ => b0 end)
                i (JRef <$> a) b0
      = foldl_idx (λ b0 row dy,
          foldl_idx (λ b1 value dx,
            if truthy value then setCellV b1 (x + dx) (y + dy) v else b1)
            0 row b0) i m b0).
    { intros a m i b0 Hrows. revert i b0.
      induction Hrows as [|l row a m Hl _ IH]; intros i b0; [reflexivity|].
      cbn [fmap list_fmap foldl_idx]. rewrite <- IH. unfold g at 2.
      by rewrite Hl. }
    rewrite <- (EF ml mv 0 bv (m_rows _ _ _ _ _ _ HM)). exact HR'.
Qed.

Lemma aget_nil (i : Z) : aget [] i = JUndef.
Proof. unfold aget. by destruct (decide _). Qed.

Lemma aget_cons (a : jsval) (l : list jsval) (i : Z) :
  aget (a :: l) i = if decide (i = 0) then a else aget l (i - 1).
Proof.
  unfold aget. destruct (decide (i = 0)) as [->|Hne]; [reflexivity|].
  destruct (decide (0 ≤ i)) as [Hi|Hi].
  - rewrite decide_True by lia.
    replace (Z.to_nat i) with (S (Z.to_nat (i - 1))) by lia. reflexivity.
  - by rewrite decide_False by lia.
Qed.

Lemma aget_aset (row : list jsval) (X : Z) v (C : Z) :
  0 ≤ C →
  aget (aset row X v) C = if decide (C = X) then v else aget row C.
Proof.
  intros HC. unfold aset, aget. rewrite !(decide_True (P := 0 ≤ C)) by lia.
  destruct (decide (X < 0)) as [HX|HX]; [by rewrite decide_False by lia|].
  destruct (decide (X < Z.of_nat (length row))) as [Hlt|Hge].
  - destruct (decide (C = X)) as [->|Hne].
    + rewrite list_lookup_insert_eq by lia. reflexivity.
    + rewrite list_lookup_insert_ne by lia. reflexivity.
  - destruct (decide (C = X)) as [->|Hne].
    + rewrite lookup_app_r by lia. rewrite lookup_app_r; rewrite length_replicate; [|lia].
      replace (Z.to_nat X - length row - (Z.to_nat X - length row))%nat with 0%nat by lia.
      reflexivity.
    + destruct (decide (C < Z.of_nat (length row))) as [Hc|Hc].
      * by rewrite lookup_app_l by lia.
      * rewrite (lookup_ge_None_2 row) by lia. cbn [default].
        rewrite lookup_app_r by lia.
        destruct (decide (C < X)) as [Hcx|Hcx].
        -- rewrite lookup_app_l by (rewrite length_replicate; lia).
           rewrite lookup_replicate_2 by lia. reflexivity.
        -- rewrite lookup_app_r by (rewrite length_replicate; lia).
           rewrite length_replicate. rewrite lookup_ge_None_2; [reflexivity|].
           cbn [length]. lia.
Qed.

Lemma setCellV_length bv (X Y : Z) v : length (setCellV bv X Y v) = length bv.
Proof.
  unfold setCellV. destruct (decide _); [apply length_insert | reflexivity].
Qed.

(** A write to one cell, read back at any cell of the board. *)
Lemma setCellV_get bv (X Y : Z) v (R C : Z) :
  0 ≤ R < Z.of_nat (length bv) → 0 ≤ C →
  aget (rowOf (setCellV bv X Y v) R) C
    = if decide (R = Y ∧ C = X) then v else aget (rowOf bv R) C.
Proof.
  intros HR HC. unfold setCellV.
  destruct (decide (0 ≤ Y < Z.of_nat (length bv))) as [HY|HY].
  - destruct (decide (R = Y)) as [->|Hne].
    + unfold rowOf at 1. rewrite list_lookup_insert_eq by lia. cbn [default].
      unfold id. rewrite aget_aset by done.
      destruct (decide (C = X)) as [->|Hc].
      * by rewrite decide_True.
      * rewrite decide_False; [reflexivity | intros [_ ?]; done].
    + unfold rowOf at 1. rewrite list_lookup_insert_ne by lia.
      rewrite decide_False; [reflexivity | intros [? _]; done].
  - rewrite decide_False; [reflexivity | intros [-> _]; lia].
Qed.

Lemma foldl_idx_length {A} (f : list (list jsval) → A → Z → list (list jsval))
    (i : Z) (a : list A) bv :
  (∀ b v j, length (f b v j) = length b) →
  length (foldl_idx f i a bv) = length bv.
Proof.
  intros Hf. revert i bv. induction a as [|v a IH]; intros i bv; [reflexivity|].
  cbn [foldl_idx]. by rewrite IH, Hf.
Qed.

Lemma placeRowV_length (cells : list jsval) (x Y : Z) v (j0 : Z) bv :
  length (foldl_idx (λ b1 value dx,
            if truthy value then setCellV b1 (x + dx) Y v else b1) j0 cells bv)
  = length bv.
Proof.
  apply foldl_idx_length. intros b w j.
  destruct (truthy w); [apply setCellV_length | reflexivity].
Qed.

Lemma placeCellsV_length bv mv (x y : Z) v :
  length (placeCellsV bv mv x y v) = length bv.
Proof.
  unfold placeCellsV. apply foldl_idx_length. intros b row j.
  apply placeRowV_length.
Qed.

(** One row of the mask written at row [Y], from its column [j0] on. *)
Lemma placeRowV_get (cells : list jsval) (x Y : Z) v (j0 : Z) bv (R C : Z) :
  0 ≤ R < Z.of_nat (length bv) → 0 ≤ C →
  aget (rowOf (foldl_idx (λ b1 value dx,
                 if truthy value then setCellV b1 (x + dx) Y v else b1)
               j0 cells bv) R) C
  = if (R =? Y) && truthy (aget cells (C - x - j0)) then v
    else aget (rowOf bv R) C.
Proof.
  intros HR HC. revert j0 bv HR.
  induction cells as [|value rest IH]; intros j0 bv HR.
  - cbn [foldl_idx]. rewrite aget_nil. cbn [truthy]. by rewrite andb_false_r.
  - cbn [foldl_idx]. rewrite IH; last first.
    { destruct (truthy value); [by rewrite setCellV_length | done]. }
    rewrite (aget_cons value rest).
    replace (C - x - (j0 + 1)) with (C - x - j0 - 1) by lia.
    destruct (decide (C - x - j0 = 0)) as [E0|E0].
    + assert (Hrest : truthy (aget rest (C - x - j0 - 1)) = false).
      { rewrite aget_neg by lia. reflexivity. }
      rewrite Hrest, andb_false_r.
      destruct (truthy value).
      * rewrite setCellV_get by done.
        destruct (Z.eqb_spec R Y) as [->|Hne]; cbn [andb].
        -- rewrite decide_True; [reflexivity | split; [done | lia]].
        -- rewrite decide_False; [reflexivity | intros [? _]; done].
      * by rewrite andb_false_r.
    + destruct ((R =? Y) && truthy (aget rest (C - x - j0 - 1))); [reflexivity|].
      destruct (truthy value); [|reflexivity].
      rewrite setCellV_get by done.
      rewrite decide_False; [reflexivity | intros [_ ?]; lia].
Qed.

Lemma maskAt_nil (r c : Z) : maskAt [] r c = false.
Proof.
  unfold maskAt, rowOf. rewrite lookup_nil. cbn [default]. rewrite aget_nil.
  cbn [truthy]. apply andb_false_r.
Qed.

Lemma maskAt_cons (row : list jsval) rest (r c : Z) :
  maskAt (row :: rest) r c
    = if decide (r = 0) then truthy (aget row c) else maskAt rest (r - 1) c.
Proof.
  unfold maskAt. destruct (decide (r = 0)) as [->|Hne]; [reflexivity|].
  destruct (Z.leb_spec 0 r) as [Hr|Hr].
  - destruct (Z.leb_spec 0 (r - 1)); [|lia]. cbn [andb]. unfold rowOf.
    replace (Z.to_nat r) with (S (Z.to_nat (r - 1))) by lia. reflexivity.
  - destruct (Z.leb_spec 0 (r - 1)); [lia|]. reflexivity.
Qed.

(** The cells of the board after the cells of the piece were written: the
    colour where the mask is occupied, and the cell as it was elsewhere. *)
Lemma placeCellsV_get bv mv (x y : Z) v (R C : Z) :
  0 ≤ R < Z.of_nat (length bv) → 0 ≤ C →
  aget (rowOf (placeCellsV bv mv x y v) R) C
    = if maskAt mv (R - y) (C - x) then v else aget (rowOf bv R) C.
Proof.
  intros HR HC. unfold placeCellsV.
  assert (G : ∀ (k0 : Z) bv0, 0 ≤ R < Z.of_nat (length bv0) →
    aget (rowOf (foldl_idx (λ b0 row dy,
                   foldl_idx (λ b1 value dx,
                     if truthy value then setCellV b1 (x + dx) (y + dy) v else b1)
                     0 row b0) k0 mv bv0) R) C
    = if maskAt mv (R - y - k0) (C - x) then v else aget (rowOf bv0 R) C).
  { induction mv as [|row rest IH]; intros k0 bv0 HR0.
    - cbn [foldl_idx]. by rewrite maskAt_nil.
    - cbn [foldl_idx]. rewrite IH by (by rewrite placeRowV_length).
      rewrite maskAt_cons. rewrite placeRowV_get by done.
      replace (R - y - (k0 + 1)) with (R - y - k0 - 1) by lia.
      replace (C - x - 0) with (C - x) by lia.
      destruct (decide (R - y - k0 = 0)) as [E0|E0].
      + assert (Hrest : maskAt rest (R - y - k0 - 1) (C - x) = false).
        { unfold maskAt. destruct (Z.leb_spec 0 (R - y - k0 - 1)); [lia|]. reflexivity. }
        rewrite Hrest. destruct (Z.eqb_spec R (y + k0)); [|lia]. reflexivity.
      + destruct (maskAt rest (R - y - k0 - 1) (C - x)); [reflexivity|].
        destruct (Z.eqb_spec R (y + k0)); [lia|]. reflexivity. }
  rewrite (G 0 bv HR). by replace (R - y - 0) with (R - y) by lia.
Qed.

Lemma maskAt_true mv (r c : Z) :
  maskAt mv r c = true →
  ∃ (k j : nat) row v, r = Z.of_nat k ∧ c = Z.of_nat j ∧
    mv !! k = Some row ∧ row !! j = Some v ∧ truthy v = true.
Proof.
  unfold maskAt. rewrite andb_true_iff. intros [Hr Ht]. apply Z.leb_le in Hr.
  unfold rowOf, aget in Ht.
  destruct (decide (0 ≤ c)) as [Hc|Hc]; [|done].
  destruct (mv !! Z.to_nat r) as [row|] eqn:Hrow; cbn [default] in Ht;
    [|by rewrite lookup_nil in Ht].
  unfold id in Ht.
  destruct (row !! Z.to_nat c) as [v|] eqn:Hv; cbn [default] in Ht; [|done].
  exists (Z.to_nat r), (Z.to_nat c), row, v.
  split; [lia|]. split; [lia|]. done.
Qed.

(** X2.  placePiece, lines 91-97, in every state of the running game: the
    two nested loops return without exception; afterwards a cell of the grid
    holds the colour of the piece where the mask, shifted to the position of
    the piece, is occupied, and what it held before everywhere else.  Every
    cell that is written held EMPTY: no block is overwritten.  The arrays of
    the piece are not written. *)
Theorem placeCells_merges (s : state) :
  reachable s →
  ∃ s' bv mv bv',
    boardView s = Some bv ∧ maskView s = Some mv ∧
    placeCells s = (s', Ok tt) ∧ same_globals s s' ∧
    boardView s' = Some bv' ∧ maskView s' = Some mv ∧
    ∀ R C : Z, 0 ≤ R < ROWS → 0 ≤ C < COLS →
      if maskAt mv (R - currentY s) (C - currentX s)
      then aget (rowOf bv R) C = EMPTY ∧
           aget (rowOf bv' R) C = JStr (color (currentPiece s))
      else aget (rowOf bv' R) C = aget (rowOf bv R) C.
Proof.
  intros Hs. destruct (reachable_Inv s Hs) as (rl & bv & sl & ml & mv & HB & HM).
  destruct (placeCells_exact s rl bv sl ml mv HB HM)
    as (s' & E & HB' & Hg & Hn & Hfr).
  pose proof (m_sep _ _ _ _ _ _ HM) as Hsep.
  rewrite Forall_forall in Hsep.
  assert (Hout : ∀ l : loc, l ∈ sl :: ml → store s' !! l = store s !! l).
  { intros l Hl. apply Hfr. intros Hin. apply (Hsep l Hl). by right. }
  exists s', bv, mv, (placeCellsV bv mv (currentX s) (currentY s)
                        (JStr (color (currentPiece s)))).
  split; [exact (BInv_boardView _ _ _ HB)|].
  split; [exact (MInv_maskView _ _ _ _ _ _ HM)|].
  split; [exact E|]. split; [exact Hg|].
  split; [exact (BInv_boardView _ _ _ HB')|]. split.
  { destruct Hg as (_ & _ & Ep & _). unfold maskView. rewrite Ep.
    rewrite (m_shape _ _ _ _ _ _ HM). apply (matrix_intro _ sl ml mv).
    - rewrite Hout by left. exact (m_outer _ _ _ _ _ _ HM).
    - eapply rows_at_frame; [exact (m_rows _ _ _ _ _ _ HM)|].
      intros l Hl. apply Hout. by right. }
  intros R C HR HC.
  pose proof (b_grid _ _ _ HB) as [Hlen _].
  rewrite placeCellsV_get by lia.
  destruct (maskAt mv (R - currentY s) (C - currentX s)) eqn:Hm; [|reflexivity].
  split; [|reflexivity].
  destruct (maskAt_true _ _ _ Hm) as (k & j & row & v & Ek & Ej & Hrow & Hv & Ht).
  destruct (fits_cell _ _ _ _ _ _ _ _ (m_fits _ _ _ _ _ _ HM) Hrow Hv Ht)
    as (_ & _ & HE).
  replace (currentY s + Z.of_nat k) with R in HE by lia.
  by replace (currentX s + Z.of_nat j) with C in HE by lia.
Qed.

Lemma spawn_reachable (i : Z) (c : N) : draw_ok i c → reachable (start i c).1.
Proof.
  intros H. apply (reach_start i c _ (start i c).2); [exact H|].
  by destruct (start i c).
Qed.

Lemma placeCells_merges_witness :
  let s := one_row_ready in
  reachable s ∧
  ∃ s' bv mv bv',
    boardView s = Some bv ∧ maskView s = Some mv ∧
    placeCells s = (s', Ok tt) ∧ same_globals s s' ∧
    boardView s' = Some bv' ∧ maskView s' = Some mv ∧
    ∀ R C : Z, 0 ≤ R < ROWS → 0 ≤ C < COLS →
      if maskAt mv (R - currentY s) (C - currentX s)
      then aget (rowOf bv R) C = EMPTY ∧
           aget (rowOf bv' R) C = JStr (color (currentPiece s))
      else aget (rowOf bv' R) C = aget (rowOf bv R) C.
Proof.
  intros s. split; [exact one_row_ready_reachable|].
  exact (placeCells_merges s one_row_ready_reachable).
Defined.

(** ** The script computes the game by value *)

Lemma view_intro s bv mv :
  boardView s = Some bv → maskView s = Some mv →
  view s = Some (Game bv mv (color (currentPiece s)) (currentX s) (currentY s)
                      (score s) (events s)).
Proof. intros Hb Hm. unfold view. rewrite Hb, Hm. reflexivity. Qed.

Lemma view_inv s g :
  view s = Some g →
  boardView s = Some (g_board g) ∧ maskView s = Some (g_mask g) ∧
  g_color g = color (currentPiece s) ∧ g_x g = currentX s ∧
  g_y g = currentY s ∧ g_score g = score s ∧ g_events g = events s.
Proof.
  unfold view. destruct (boardView s) as [bv|]; [|done].
  destruct (maskView s) as [mv|]; [|done]. cbn. intros [= <-]. by cbn.
Qed.

Lemma Inv_view s rl bv sl ml mv :
  BInv s rl bv → MInv s rl bv sl ml mv →
  view s = Some (Game bv mv (color (currentPiece s)) (currentX s) (currentY s)
                      (score s) (events s)).
Proof.
  intros HB HM.
  exact (view_intro s bv mv (BInv_boardView _ _ _ HB) (MInv_maskView _ _ _ _ _ _ HM)).
Qed.

Lemma movePiece_view s rl bv sl ml mv (dx : Z) :
  BInv s rl bv → MInv s rl bv sl ml mv →
  ∃ s', movePiece dx s = (s', Ok tt) ∧
    view s' = Some (moveV dx (Game bv mv (color (currentPiece s)) (currentX s)
                                (currentY s) (score s) (events s))).
Proof.
  intros HB HM. rewrite (movePiece_eq _ _ _ _ _ _ dx HB HM).
  unfold moveV. cbn [g_board g_mask g_color g_x g_y g_score g_events].
  destruct (fits bv mv (currentX s + dx) (currentY s)).
  - eexists. split; [reflexivity|].
    exact (view_intro (set_currentX (currentX s + dx) s) bv mv
             (BInv_boardView _ _ _ HB) (MInv_maskView _ _ _ _ _ _ HM)).
  - exists s. split; [reflexivity|]. by eapply Inv_view.
Qed.

Lemma rotatePiece_view s rl bv sl ml mv :
  BInv s rl bv → MInv s rl bv sl ml mv →
  ∃ s', rotatePiece s = (s', Ok tt) ∧
    view s' = Some (rotateG (Game bv mv (color (currentPiece s)) (currentX s)
                               (currentY s) (score s) (events s))).
Proof.
  intros HB HM.
  destruct (rotatePiece_spec s rl bv sl ml mv HB HM)
    as (s1 & sl' & ml' & E1 & Hg1 & HB1 & HM1 & Hn1 & Hfr1 & Hsl' & Hml' & Hfresh & E).
  rewrite E. unfold rotateG. cbn [g_board g_mask g_color g_x g_y g_score g_events].
  destruct Hg1 as (Eb & Esc & Ep & Ex & Ey & Eev).
  destruct (fits bv (rotateV mv) (currentX s) (currentY s)).
  - eexists. split; [reflexivity|].
    rewrite (view_intro
               (set_currentPiece (Piece (JRef sl') (color (currentPiece s))) s1)
               bv (rotateV mv) (BInv_boardView _ _ _ HB1)
               (matrix_intro _ _ _ _ Hsl' Hml')).
    simpl_state. by rewrite Esc, Ex, Ey, Eev.
  - exists s1. split; [reflexivity|]. rewrite (Inv_view _ _ _ _ _ _ HB1 HM1).
    by rewrite Esc, Ep, Ex, Ey, Eev.
Qed.

Lemma canonical_default (i : Z) mask :
  canonical !! Z.to_nat i = Some mask → default [] (canonical !! Z.to_nat i) = mask.
Proof. by intros ->. Qed.

Lemma placePiece_view s rl bv sl ml mv (i : Z) (c : N) :
  BInv s rl bv → MInv s rl bv sl ml mv → draw_ok i c →
  ∃ s', placePiece i c s = (s', Ok tt) ∧
    view s' = Some (placeV i c (Game bv mv (color (currentPiece s)) (currentX s)
                                  (currentY s) (score s) (events s))).
Proof.
  intros HB HM Hdraw.
  destruct (placeCells_exact s rl bv sl ml mv HB HM)
    as (s1 & E1 & HB1 & Hg1 & Hn1 & Hfr1).
  set (b1 := placeCellsV bv mv (currentX s) (currentY s)
               (JStr (color (currentPiece s)))) in *.
  destruct (clearLines_spec s1 rl b1 HB1)
    as (s2 & rl2 & E2 & HB2 & Hsc2 & Hev2 & Eb2 & Ep2 & Ex2 & Ey2 & Hn2 & Hfr2 & Hin2).
  destruct (newPiece_spec s2 i c (b_wf _ _ _ HB2) (b_catalog _ _ _ HB2)
              (b_next _ _ _ HB2) Hdraw)
    as (s3 & mask & sl3 & ml3 & E3 & Hcan & Hp3 & Hsl3 & Hml3 & Hsl_alias & Hml_alias
        & Hx3 & Hy3 & Eb3 & Esc3 & Eev3 & Hn3 & Hwf3 & Hfr3).
  assert (HB3 : BInv s3 rl2 (clearLinesV b1).1) by by eapply BInv_frame.
  assert (Hm3 : matrix (store s3) (shape (currentPiece s3)) = Some mask).
  { rewrite Hp3. cbn [shape]. by eapply matrix_intro. }
  assert (Hchk : checkMove (currentX s3) (currentY s3) (currentPiece s3) s3
      = (s3, Ok (fits (clearLinesV b1).1 mask (currentX s3) (currentY s3)))).
  { eapply checkMove_fits; [exact HB3 | exact Hm3 | lia]. }
  assert (EP : placePiece i c s =
    (if negb (fits (clearLinesV b1).1 mask (currentX s3) (currentY s3))
     then gameOver else mret tt) s3).
  { unfold placePiece. erewrite bindM_ok; [| exact E1].
    erewrite bindM_ok; [| exact E2]. erewrite bindM_ok; [| exact E3].
    rewrite bindM_get. erewrite bindM_ok; [| exact Hchk]. reflexivity. }
  rewrite EP. destruct Hg1 as (Eb1 & Esc1 & Ep1 & Ex1 & Ey1 & Eev1).
  assert (Hsc3 : score s3 = score s + (clearLinesV b1).2 * 10) by congruence.
  assert (Hev3 : events s3 = events s ++
      (if 0 <? (clearLinesV b1).2
       then [ScoreText (score s + (clearLinesV b1).2 * 10)] else [])).
  { rewrite Eev3, Hev2, Eev1. by rewrite Hsc2, Esc1. }
  unfold placeV. cbn [g_board g_mask g_color g_x g_y g_score g_events].
  fold b1. rewrite (canonical_default _ _ Hcan).
  rewrite Hx3, Hy3.
  destruct (fits (clearLinesV b1).1 mask (spawnX mask) 0); cbn [negb].
  - exists s3. split; [reflexivity|].
    rewrite (view_intro s3 _ mask (BInv_boardView _ _ _ HB3) Hm3).
    rewrite Hp3. cbn [color]. by rewrite Hx3, Hy3, Hsc3, Hev3.
  - destruct (gameOver_spec s3 (b_wf _ _ _ HB3) (b_catalog _ _ _ HB3) (b_next _ _ _ HB3))
      as (s4 & rl4 & E4 & HB4 & Hsc4 & Hev4 & Hp4 & Hx4 & Hy4 & Hn4 & Hfr4 & Hfresh4).
    exists s4. split; [exact E4|].
    pose proof (store_wf_lt _ _ _ Hwf3 Hsl3) as Hsl_lt.
    pose proof (rows_at_lt _ _ _ Hwf3 Hml3) as Hml_lt.
    assert (Hm4 : maskView s4 = Some mask).
    { unfold maskView. rewrite Hp4, Hp3. cbn [shape].
      apply (matrix_intro _ sl3 ml3 mask).
      - by rewrite Hfr4.
      - eapply rows_at_frame; [exact Hml3|]. intros l Hl. apply Hfr4. by apply Hml_lt. }
    rewrite (view_intro s4 _ mask (BInv_boardView _ _ _ HB4) Hm4).
    rewrite Hp4, Hp3. cbn [color]. by rewrite Hx4, Hy4, Hx3, Hy3, Hsc4, Hev4, Hev3.
Qed.

Lemma drop_view s rl bv sl ml mv (i : Z) (c : N) :
  BInv s rl bv → MInv s rl bv sl ml mv → draw_ok i c →
  ∃ s', drop i c s = (s', Ok tt) ∧
    view s' = Some (dropV i c (Game bv mv (color (currentPiece s)) (currentX s)
                                 (currentY s) (score s) (events s))).
Proof.
  intros HB HM Hdraw. rewrite (drop_eq _ _ _ _ _ _ i c HB HM).
  unfold dropV. cbn [g_board g_mask g_color g_x g_y g_score g_events].
  destruct (fits bv mv (currentX s) (currentY s + 1)).
  - eexists. split; [reflexivity|].
    exact (view_intro (set_currentY (currentY s + 1) s) bv mv
             (BInv_boardView _ _ _ HB) (MInv_maskView _ _ _ _ _ _ HM)).
  - by apply (placePiece_view s rl bv sl ml mv).
Qed.

Lemma handle_view s g inp :
  Inv s → input_ok inp → view s = Some g →
  ∃ s', handle inp s = (s', Ok tt) ∧ view s' = Some (handleV inp g).
Proof.
  intros (rl & bv & sl & ml & mv & HB & HM) Hok Hv.
  rewrite (Inv_view _ _ _ _ _ _ HB HM) in Hv. injection Hv as <-.
  destruct inp; cbn [handle handleV input_ok] in *.
  - by apply (movePiece_view s rl bv sl ml mv).
  - by apply (movePiece_view s rl bv sl ml mv).
  - by apply (drop_view s rl bv sl ml mv).
  - by apply (rotatePiece_view s rl bv sl ml mv).
  - exists s. split; [reflexivity|]. by eapply Inv_view.
  - by apply (drop_view s rl bv sl ml mv).
Qed.

Lemma start_view (i : Z) (c : N) :
  draw_ok i c → ∃ s, start i c = (s, Ok tt) ∧ view s = Some (startV i c).
Proof.
  intros Hdraw. destruct boot_bounds as [Hb0 Hn0].
  destruct (createBoard_spec boot boot_wf boot_board)
    as (s1 & E1 & Hg1 & Hwf1 & Hn1 & Hb1 & Hrows1 & Hfr1).
  pose proof Hg1 as (Eb & Esc & Ep & Ex & Ey & Eev).
  rewrite Hb0 in Hb1, Hfr1. rewrite Hn0 in Hn1, Hb1, Hrows1, Hfr1.
  assert (Hcat1 : catalog_intact (store s1)).
  { intros l Hl. unfold is_catalog in Hl. apply Hfr1; lia. }
  assert (Hn1' : (21 ≤ next s1)%nat) by lia.
  destruct (newPiece_spec s1 i c Hwf1 Hcat1 Hn1' Hdraw)
    as (s3 & mask & sl3 & ml3 & E3 & Hcan & Hp3 & Hsl3 & Hml3 & Hsl_alias & Hml_alias
        & Hx3 & Hy3 & Eb3 & Esc3 & Eev3 & Hn3 & Hwf3 & Hfr3).
  exists s3. split.
  { unfold start. erewrite bindM_ok; [| exact E1]. exact E3. }
  assert (Hbv : boardView s3 = Some emptyBoard).
  { unfold boardView. rewrite Eb3, Eb, Hb0.
    apply (matrix_intro _ 0%nat (seq 21 (Z.to_nat ROWS))).
    - rewrite Hfr3 by lia. exact Hb1.
    - apply rows_at_seq. intros l Hl. rewrite Hfr3 by lia. by apply Hrows1. }
  assert (Hm3 : maskView s3 = Some mask).
  { unfold maskView. rewrite Hp3. cbn [shape]. by eapply matrix_intro. }
  rewrite (view_intro s3 _ _ Hbv Hm3). unfold startV.
  rewrite (canonical_default _ _ Hcan). rewrite Hp3. cbn [color].
  rewrite Hx3, Hy3, Esc3, Eev3, Esc, Eev. reflexivity.
Qed.

Lemma Inv_playable s g : Inv s → view s = Some g → playable g.
Proof.
  intros (rl & bv & sl & ml & mv & HB & HM) Hv.
  rewrite (Inv_view _ _ _ _ _ _ HB HM) in Hv. injection Hv as <-.
  unfold playable. cbn [g_board g_mask g_color g_x g_y g_score g_events].
  split; [exact (b_grid _ _ _ HB)|]. split; [exact (m_y _ _ _ _ _ _ HM)|].
  split; [exact (m_fits _ _ _ _ _ _ HM)|].
  split; [exact (m_nonempty _ _ _ _ _ _ HM)|].
  split; [exact (m_rect _ _ _ _ _ _ HM) | exact (m_color _ _ _ _ _ _ HM)].
Qed.

Lemma run_view inps s g :
  Inv s → Forall input_ok inps → view s = Some g →
  ∃ s', run inps s = (s', Ok tt) ∧ Inv s' ∧ view s' = Some (runV inps g).
Proof.
  revert s g. induction inps as [|inp rest IH]; intros s g HI Hok Hv.
  - exists s. split; [reflexivity|]. split; [exact HI | exact Hv].
  - apply Forall_cons in Hok as [Hinp Hrest].
    destruct (handle_view s g inp HI Hinp Hv) as (s1 & E1 & Hv1).
    destruct (handle_Inv s inp HI Hinp) as (s1' & E1' & HI1).
    assert (s1' = s1) as -> by congruence.
    destruct (IH s1 (handleV inp g) HI1 Hrest Hv1) as (s' & E' & HI' & Hv').
    exists s'. split; [|split; [exact HI' | exact Hv']].
    cbn [run]. by rewrite (bindM_ok _ _ _ _ _ E1).
Qed.

(** X3.  The whole script against the game by value (createBoard, newPiece,
    isValidMove, placePiece, clearLines, gameOver, drop, movePiece,
    rotatePiece, the key handler): for draws that Math.random can produce,
    the start of the script and any list of key presses and timer rounds run
    without exception, and the board, the mask, the colour and the position
    of the piece, the score and the events that the script reaches through
    its references are those of [runV], which works on values and shares
    nothing. *)
Theorem run_computes_runV (i : Z) (c : N) (inps : list input) :
  draw_ok i c → Forall input_ok inps →
  ∃ s0 s,
    start i c = (s0, Ok tt) ∧ view s0 = Some (startV i c) ∧
    run inps s0 = (s, Ok tt) ∧ view s = Some (runV inps (startV i c)).
Proof.
  intros Hdraw Hok.
  destruct (start_view i c Hdraw) as (s0 & E0 & Hv0).
  destruct (start_Inv i c Hdraw) as (s0' & E0' & HI0).
  assert (s0' = s0) as -> by congruence.
  destruct (run_view inps s0 _ HI0 Hok Hv0) as (s & E & _ & Hv).
  exists s0, s. split; [exact E0|]. split; [exact Hv0|].
  split; [exact E | exact Hv].
Qed.

Lemma run_computes_runV_witness :
  let inps := [ArrowLeft; ArrowUp; Tick 2 5%N; ArrowDown 3 7%N; OtherKey; ArrowRight] in
  draw_ok 1 0xabc%N ∧ Forall input_ok inps ∧
  ∃ s0 s,
    start 1 0xabc%N = (s0, Ok tt) ∧ view s0 = Some (startV 1 0xabc%N) ∧
    run inps s0 = (s, Ok tt) ∧ view s = Some (runV inps (startV 1 0xabc%N)).
Proof.
  intros inps.
  assert (H1 : draw_ok 1 0xabc%N) by decide_by_compute.
  assert (H2 : Forall input_ok inps) by decide_by_compute.
  split; [exact H1|]. split; [exact H2|].
  exact (run_computes_runV 1 0xabc%N inps H1 H2).
Defined.

(** Induction over the running game, on the game by value. *)
Lemma reachable_view_ind (P : game → Prop) :
  (∀ i c, draw_ok i c → P (startV i c)) →
  (∀ g inp, playable g → P g → input_ok inp → P (handleV inp g)) →
  ∀ s, reachable s → ∃ g, view s = Some g ∧ playable g ∧ P g.
Proof.
  intros Hstart Hstep s Hs.
  induction Hs as [i c s r Hdraw E | s inp s' r Hs IH Hok E].
  - destruct (start_view i c Hdraw) as (s0 & E0 & Hv0).
    assert (s0 = s) as -> by congruence.
    exists (startV i c). split; [exact Hv0|]. split; [|by apply Hstart].
    apply (Inv_playable s); [|exact Hv0].
    apply reachable_Inv. by apply (reach_start i c s r).
  - destruct IH as (g & Hv & Hpl & HP).
    destruct (handle_view s g inp (reachable_Inv s Hs) Hok Hv) as (s0 & E0 & Hv0).
    assert (s0 = s') as -> by congruence.
    exists (handleV inp g). split; [exact Hv0|]. split; [|by apply Hstep].
    apply (Inv_playable s'); [|exact Hv0].
    apply reachable_Inv. by apply (reach_step s inp s' r).
Qed.

(** ** The mask of the piece in play *)

Lemma canonical_draw (i : Z) :
  0 ≤ i < 7 → ∃ mask, canonical !! Z.to_nat i = Some mask ∧ mask ∈ canonical.
Proof.
  intros Hi. destruct (lookup_lt_is_Some_2 canonical (Z.to_nat i)) as [mask Hm].
  - change (length canonical) with 7%nat. lia.
  - exists mask. split; [exact Hm | by eapply list_elem_of_lookup_2].
Qed.

Lemma orientations_canonical mask : mask ∈ canonical → mask ∈ orientations.
Proof.
  intros H. unfold orientations. apply list_elem_of_bind. exists mask.
  split; [|exact H]. apply list_elem_of_fmap. exists 0%nat.
  split; [reflexivity | by left].
Qed.

Lemma orientations_rotateV mv : mv ∈ orientations → rotateV mv ∈ orientations.
Proof.
  assert (H : Forall (λ mv, rotateV mv ∈ orientations) orientations)
    by decide_by_compute.
  rewrite Forall_forall in H. apply H.
Qed.

Lemma orientations_inv mv :
  mv ∈ orientations →
  ∃ m (k : nat), m ∈ canonical ∧ (k < 4)%nat ∧ mv = Nat.iter k rotateV m.
Proof.
  unfold orientations. intros H. apply list_elem_of_bind in H as (m & H & Hm).
  apply list_elem_of_fmap in H as (k & -> & Hk).
  exists m, k. split; [exact Hm|]. split; [|reflexivity].
  repeat (apply elem_of_cons in Hk as [->|Hk]; [lia|]).
  by apply elem_of_nil in Hk.
Qed.

Lemma orientations_facts mv :
  mv ∈ orientations →
  occupied mv = 4%nat ∧ tight mv = true ∧
  rotateV (rotateV (rotateV (rotateV mv))) = mv ∧
  Forall (λ r, length r = width mv) mv ∧
  (1 ≤ length mv ≤ 4)%nat ∧ (1 ≤ width mv ≤ 4)%nat ∧
  (length mv + width mv ≤ 5)%nat ∧
  Forall (Forall (λ v, v = JNum 0 ∨ v = JNum 1)) mv.
Proof.
  assert (H : Forall (λ mv,
      occupied mv = 4%nat ∧ tight mv = true ∧
      rotateV (rotateV (rotateV (rotateV mv))) = mv ∧
      Forall (λ r, length r = width mv) mv ∧
      (1 ≤ length mv ≤ 4)%nat ∧ (1 ≤ width mv ≤ 4)%nat ∧
      (length mv + width mv ≤ 5)%nat ∧
      Forall (Forall (λ v, v = JNum 0 ∨ v = JNum 1)) mv) orientations)
    by decide_by_compute.
  rewrite Forall_forall in H. apply H.
Qed.

Lemma handleV_mask g inp :
  input_ok inp →
  g_mask (handleV inp g) = g_mask g ∨
  g_mask (handleV inp g) = rotateV (g_mask g) ∨
  g_mask (handleV inp g) ∈ canonical.
Proof.
  assert (Hdrop : ∀ i c, draw_ok i c →
    g_mask (dropV i c g) = g_mask g ∨ g_mask (dropV i c g) ∈ canonical).
  { intros i c [Hi _]. unfold dropV, placeV.
    destruct (canonical_draw i Hi) as (mask & Hm & Hin). rewrite Hm. cbn [default].
    destruct (fits _ _ _ (g_y g + 1)); [by left|].
    right. by destruct (fits _ _ _ _). }
  intros Hok. destruct inp; cbn [handleV input_ok] in *.
  - left. unfold moveV. by destruct (fits _ _ _ _).
  - left. unfold moveV. by destruct (fits _ _ _ _).
  - destruct (Hdrop i c Hok); [by left | by right; right].
  - unfold rotateG. destruct (fits _ _ _ _); [right; by left | by left].
  - by left.
  - destruct (Hdrop i c Hok); [by left | by right; right].
Qed.

Lemma reachable_orientation s :
  reachable s → ∃ g, view s = Some g ∧ playable g ∧ g_mask g ∈ orientations.
Proof.
  apply (reachable_view_ind (λ g, g_mask g ∈ orientations)).
  - intros i c [Hi _]. unfold startV. cbn [g_mask].
    destruct (canonical_draw i Hi) as (mask & -> & Hin). cbn [default].
    by apply orientations_canonical.
  - intros g inp _ HP Hok.
    destruct (handleV_mask g inp Hok) as [->| [->|H]].
    + exact HP.
    + by apply orientations_rotateV.
    + by apply orientations_canonical.
Qed.

(** X4.  newPiece and rotatePiece (lines 67-75, 142-149) over the running
    game: the mask of the piece in play is always one of the seven catalog
    masks rotated at most three times; it has exactly four occupied cells,
    holds only 0 and 1, and rotating it four times gives it back. *)
Theorem mask_is_rotated_catalog_shape (s : state) :
  reachable s →
  ∃ mv m (k : nat),
    maskView s = Some mv ∧ m ∈ canonical ∧ (k < 4)%nat ∧
    mv = Nat.iter k rotateV m ∧
    occupied mv = 4%nat ∧
    Forall (Forall (λ v, v = JNum 0 ∨ v = JNum 1)) mv ∧
    rotateV (rotateV (rotateV (rotateV mv))) = mv.
Proof.
  intros Hs. destruct (reachable_orientation s Hs) as (g & Hv & _ & Ho).
  destruct (view_inv s g Hv) as (_ & Hm & _).
  destruct (orientations_inv _ Ho) as (m & k & Hin & Hk & E).
  destruct (orientations_facts _ Ho) as (H4 & _ & Hrot & _ & _ & _ & _ & H01).
  exists (g_mask g), m, k. done.
Qed.

Lemma mask_is_rotated_catalog_shape_witness :
  let s := upright_at_wall in
  reachable s ∧
  ∃ mv m (k : nat),
    maskView s = Some mv ∧ m ∈ canonical ∧ (k < 4)%nat ∧
    mv = Nat.iter k rotateV m ∧
    occupied mv = 4%nat ∧
    Forall (Forall (λ v, v = JNum 0 ∨ v = JNum 1)) mv ∧
    rotateV (rotateV (rotateV (rotateV mv))) = mv.
Proof.
  intros s. split; [exact upright_at_wall_reachable|].
  exact (mask_is_rotated_catalog_shape s upright_at_wall_reachable).
Defined.

Lemma truthy_aget (row : list jsval) (j : Z) :
  truthy (aget row j) = true →
  ∃ (n : nat) v, j = Z.of_nat n ∧ row !! n = Some v ∧ truthy v = true.
Proof.
  unfold aget. destruct (decide (0 ≤ j)) as [Hj|Hj]; [|done].
  destruct (row !! Z.to_nat j) as [v|] eqn:Hv; [|done]. cbn [default].
  intros Ht. exists (Z.to_nat j), v. split; [lia | done].
Qed.

Lemma existsb_lookup {A} (f : A → bool) (l : list A) :
  existsb f l = true → ∃ (n : nat) a, l !! n = Some a ∧ f a = true.
Proof.
  intros H. apply existsb_exists in H as (a & Hin & Hf).
  apply list_elem_of_In in Hin. apply list_elem_of_lookup_1 in Hin as [n Hn].
  by exists n, a.
Qed.

(** Where a mask that fills its bounding box fits, the whole box is inside
    the grid. *)
Lemma tight_fits_box bv mv (x y : Z) :
  tight mv = true → fits bv mv x y = true →
  0 ≤ x ∧ x + Z.of_nat (width mv) ≤ COLS ∧ y + Z.of_nat (length mv) ≤ ROWS.
Proof.
  unfold tight. rewrite !andb_true_iff. intros [[[_ Hbot] Hleft] Hright] Hf.
  split; [|split].
  - apply existsb_lookup in Hleft as (k & row & Hrow & Ht).
    apply truthy_aget in Ht as (n & v & En & Hv & Ht).
    destruct (fits_cell _ _ _ _ _ _ _ _ Hf Hrow Hv Ht). lia.
  - apply existsb_lookup in Hright as (k & row & Hrow & Ht).
    apply truthy_aget in Ht as (n & v & En & Hv & Ht).
    destruct (fits_cell _ _ _ _ _ _ _ _ Hf Hrow Hv Ht). lia.
  - destruct (last mv) as [row|] eqn:Hlast; cbn [default] in Hbot; [|done].
    apply existsb_lookup in Hbot as (n & v & Hv & Ht).
    rewrite last_lookup in Hlast.
    destruct (fits_cell _ _ _ _ _ _ _ _ Hf Hlast Hv Ht) as (_ & HY & _).
    assert (length mv ≠ 0%nat); [|lia].
    intros E. destruct mv; [done | discriminate E].
Qed.

(** X5.  In every state of the running game the bounding box of the piece,
    not only its occupied cells, is inside the grid: the mask is a rectangle
    of at most four rows and columns, 0 <= currentX, currentX + width <=
    COLS, 0 <= currentY and currentY + height <= ROWS; and every occupied
    cell of the mask is over a cell of the board that holds EMPTY
    (isValidMove at the current position returns true). *)
Theorem piece_inside_grid (s : state) :
  reachable s →
  ∃ bv mv,
    boardView s = Some bv ∧ maskView s = Some mv ∧
    Forall (λ r, length r = width mv) mv ∧
    (1 ≤ length mv ≤ 4)%nat ∧ (1 ≤ width mv ≤ 4)%nat ∧
    0 ≤ currentX s ∧ currentX s + Z.of_nat (width mv) ≤ COLS ∧
    0 ≤ currentY s ∧ currentY s + Z.of_nat (length mv) ≤ ROWS ∧
    snd (isValidMove s (currentX s) (currentY s) (currentPiece s)) = Ok true ∧
    ∀ (k j : nat) row v,
      mv !! k = Some row → row !! j = Some v → truthy v = true →
      aget (rowOf bv (currentY s + Z.of_nat k)) (currentX s + Z.of_nat j) = EMPTY.
Proof.
  intros Hs. destruct (reachable_orientation s Hs) as (g & Hv & Hpl & Ho).
  destruct (view_inv s g Hv) as (Hb & Hm & _ & Ex & Ey & _).
  destruct Hpl as (Hgrid & Hy & Hfits & _).
  destruct (orientations_facts _ Ho) as (_ & Ht & _ & Hrect & Hh & Hw & _).
  destruct (tight_fits_box _ _ _ _ Ht Hfits) as (HX0 & HX1 & HY1).
  rewrite Ex, Ey in *.
  exists (g_board g), (g_mask g).
  split; [exact Hb|]. split; [exact Hm|]. split; [exact Hrect|].
  split; [exact Hh|]. split; [exact Hw|]. split; [exact HX0|].
  split; [exact HX1|]. split; [exact Hy|]. split; [exact HY1|]. split.
  - destruct (boardView_inv s _ Hb) as (rl & Hboard & Hrows).
    destruct (isValidMove_fits s rl _ Hboard Hrows (currentX s) (currentY s)
                (currentPiece s) (g_mask g) (proj1 Hgrid) Hm Hy) as [E _].
    by rewrite E, Hfits.
  - intros k j row v Hrow Hj Htr.
    by destruct (fits_cell _ _ _ _ _ _ _ _ Hfits Hrow Hj Htr) as (_ & _ & HE).
Qed.

Lemma piece_inside_grid_witness :
  let s := upright_at_wall in
  reachable s ∧
  ∃ bv mv,
    boardView s = Some bv ∧ maskView s = Some mv ∧
    Forall (λ r, length r = width mv) mv ∧
    (1 ≤ length mv ≤ 4)%nat ∧ (1 ≤ width mv ≤ 4)%nat ∧
    0 ≤ currentX s ∧ currentX s + Z.of_nat (width mv) ≤ COLS ∧
    0 ≤ currentY s ∧ currentY s + Z.of_nat (length mv) ≤ ROWS ∧
    snd (isValidMove s (currentX s) (currentY s) (currentPiece s)) = Ok true ∧
    ∀ (k j : nat) row v,
      mv !! k = Some row → row !! j = Some v → truthy v = true →
      aget (rowOf bv (currentY s + Z.of_nat k)) (currentX s + Z.of_nat j) = EMPTY.
Proof.
  intros s. split; [exact upright_at_wall_reachable|].
  exact (piece_inside_grid s upright_at_wall_reachable).
Defined.

(** ** Moves, drops and the score *)

Lemma isValidMove_view s g (x y : Z) :
  Inv s → view s = Some g → 0 ≤ y →
  snd (isValidMove s x y (currentPiece s)) = Ok (fits (g_board g) (g_mask g) x y).
Proof.
  intros (rl & bv & sl & ml & mv & HB & HM) Hv Hy.
  rewrite (Inv_view _ _ _ _ _ _ HB HM) in Hv. injection Hv as <-.
  cbn [g_board g_mask].
  pose proof (checkMove_fits s rl bv mv x y (currentPiece s) HB
                (MInv_matrix _ _ _ _ _ _ HM) Hy) as E.
  unfold checkMove, liftM in E. by injection E as E.
Qed.

Lemma set_currentY_same s (y : Z) : y = currentY s → set_currentY y s = s.
Proof. intros ->. by destruct s. Qed.

(** X6.  movePiece (lines 136-140) in the running game: a move that is
    accepted is undone by the opposite move, which is then accepted too and
    gives back the very same state; in particular ArrowLeft then ArrowRight,
    and ArrowRight then ArrowLeft, when the first key moves the piece. *)
Theorem accepted_move_is_undone (s : state) (dx : Z) :
  reachable s →
  snd (isValidMove s (currentX s + dx) (currentY s) (currentPiece s)) = Ok true →
  movePiece dx s = (set_currentX (currentX s + dx) s, Ok tt) ∧
  (_ ← movePiece dx; movePiece (- dx)) s = (s, Ok tt) ∧
  (dx = -1 → run [ArrowLeft; ArrowRight] s = (s, Ok tt)) ∧
  (dx = 1 → run [ArrowRight; ArrowLeft] s = (s, Ok tt)).
Proof.
  intros Hs Hok.
  pose proof (reachable_Inv s Hs) as HI.
  pose proof HI as (rl & bv & sl & ml & mv & HB & HM).
  pose proof (Inv_view _ _ _ _ _ _ HB HM) as Hv.
  rewrite (isValidMove_view s _ _ _ HI Hv (m_y _ _ _ _ _ _ HM)) in Hok.
  cbn [g_board g_mask] in Hok. injection Hok as Hf.
  assert (E1 : movePiece dx s = (set_currentX (currentX s + dx) s, Ok tt)).
  { rewrite (movePiece_eq _ _ _ _ _ _ dx HB HM). by rewrite Hf. }
  set (s1 := set_currentX (currentX s + dx) s) in *.
  assert (HB1 : BInv s1 rl bv) by (destruct HB; by constructor).
  assert (HM1 : MInv s1 rl bv sl ml mv).
  { destruct HM. by constructor. }
  assert (E2 : movePiece (- dx) s1 = (s, Ok tt)).
  { rewrite (movePiece_eq _ _ _ _ _ _ (- dx) HB1 HM1).
    change (currentX s1) with (currentX s + dx).
    change (currentY s1) with (currentY s).
    replace (currentX s + dx + - dx) with (currentX s) by lia.
    rewrite (m_fits _ _ _ _ _ _ HM). f_equal. unfold s1. clear. by destruct s. }
  assert (E12 : (_ ← movePiece dx; movePiece (- dx)) s = (s, Ok tt)).
  { by rewrite (bindM_ok _ _ _ _ _ E1). }
  split; [exact E1|]. split; [exact E12|]. split.
  - intros ->. cbn [run handle]. rewrite (bindM_ok _ _ _ _ _ E1).
    change 1 with (- -1). by rewrite (bindM_ok _ _ _ _ _ E2).
  - intros ->. cbn [run handle]. rewrite (bindM_ok _ _ _ _ _ E1).
    change (-1) with (- 1) at 1. by rewrite (bindM_ok _ _ _ _ _ E2).
Qed.

Lemma accepted_move_is_undone_witness :
  let s := (start 1 0xabc%N).1 in
  reachable s ∧
  snd (isValidMove s (currentX s + -1) (currentY s) (currentPiece s)) = Ok true ∧
  movePiece (-1) s = (set_currentX (currentX s + -1) s, Ok tt) ∧
  (_ ← movePiece (-1); movePiece (- -1)) s = (s, Ok tt) ∧
  (-1 = -1 → run [ArrowLeft; ArrowRight] s = (s, Ok tt)) ∧
  (-1 = 1 → run [ArrowRight; ArrowLeft] s = (s, Ok tt)).
Proof.
  intros s.
  assert (Hs : reachable s) by (apply spawn_reachable; decide_by_compute).
  assert (Hok : snd (isValidMove s (currentX s + -1) (currentY s) (currentPiece s))
                = Ok true) by (vm_compute; reflexivity).
  split; [exact Hs|]. split; [exact Hok|].
  exact (accepted_move_is_undone s (-1) Hs Hok).
Defined.

Lemma handleV_quiet g inp :
  (is_drop inp → fits (g_board g) (g_mask g) (g_x g) (g_y g + 1) = true) →
  g_board (handleV inp g) = g_board g ∧ g_score (handleV inp g) = g_score g ∧
  g_events (handleV inp g) = g_events g ∧ g_color (handleV inp g) = g_color g ∧
  (inp ≠ ArrowUp → g_mask (handleV inp g) = g_mask g).
Proof.
  intros Hd. destruct inp; cbn [handleV is_drop] in *.
  - clear Hd. unfold moveV. destruct (fits _ _ _ _); repeat split; done.
  - clear Hd. unfold moveV. destruct (fits _ _ _ _); repeat split; done.
  - unfold dropV. rewrite (Hd I). repeat split; done.
  - clear Hd. unfold rotateG. destruct (fits _ _ _ _); repeat split; done.
  - repeat split; done.
  - unfold dropV. rewrite (Hd I). repeat split; done.
Qed.

(** X7.  The board, the score, the score text and the colour of the piece
    change in placePiece only: a key that is not ArrowDown, and a drop (key
    or timer) of a piece that is free to move one row down, return without
    exception and leave the rows of the board, the score, the events and the
    colour as they were; the mask changes with ArrowUp only. *)
Theorem board_changes_only_on_placement (s : state) (inp : input) :
  reachable s → input_ok inp →
  (is_drop inp →
   snd (isValidMove s (currentX s) (currentY s + 1) (currentPiece s)) = Ok true) →
  ∃ s',
    handle inp s = (s', Ok tt) ∧
    boardView s' = boardView s ∧ score s' = score s ∧ events s' = events s ∧
    color (currentPiece s') = color (currentPiece s) ∧
    (inp ≠ ArrowUp → maskView s' = maskView s).
Proof.
  intros Hs Hok Hd. pose proof (reachable_Inv s Hs) as HI.
  pose proof HI as (rl & bv & sl & ml & mv & HB & HM).
  pose proof (Inv_view _ _ _ _ _ _ HB HM) as Hv.
  destruct (handle_view s _ inp HI Hok Hv) as (s' & E & Hv').
  exists s'. split; [exact E|].
  destruct (handleV_quiet
              (Game bv mv (color (currentPiece s)) (currentX s) (currentY s)
                    (score s) (events s)) inp) as (Hb & Hsc & Hev & Hc & Hm).
  { intros Hdrop. specialize (Hd Hdrop).
    assert (Hy : 0 ≤ currentY s + 1) by (pose proof (m_y _ _ _ _ _ _ HM); lia).
    rewrite (isValidMove_view s _ _ _ HI Hv Hy) in Hd. by injection Hd. }
  destruct (view_inv s' _ Hv') as (Hb' & Hm' & Hc' & _ & _ & Hsc' & Hev').
  cbn [g_board g_mask g_color g_score g_events] in *.
  rewrite Hb' , (BInv_boardView _ _ _ HB), Hb.
  rewrite <- Hsc', <- Hev', <- Hc', Hsc, Hev, Hc.
  repeat (split; [reflexivity|]).
  intros Hne. by rewrite Hm', (MInv_maskView _ _ _ _ _ _ HM), (Hm Hne).
Qed.

Lemma board_changes_only_on_placement_witness :
  let s := (start 1 0xabc%N).1 in
  reachable s ∧ input_ok (Tick 3 5%N) ∧
  (is_drop (Tick 3 5%N) →
   snd (isValidMove s (currentX s) (currentY s + 1) (currentPiece s)) = Ok true) ∧
  ∃ s',
    handle (Tick 3 5%N) s = (s', Ok tt) ∧
    boardView s' = boardView s ∧ score s' = score s ∧ events s' = events s ∧
    color (currentPiece s') = color (currentPiece s) ∧
    (Tick 3 5%N ≠ ArrowUp → maskView s' = maskView s).
Proof.
  intros s.
  assert (Hs : reachable s) by (apply spawn_reachable; decide_by_compute).
  assert (Hok : input_ok (Tick 3 5%N)) by decide_by_compute.
  assert (Hd : is_drop (Tick 3 5%N) →
    snd (isValidMove s (currentX s) (currentY s + 1) (currentPiece s)) = Ok true)
    by (intros _; vm_compute; reflexivity).
  split; [exact Hs|]. split; [exact Hok|]. split; [exact Hd|].
  exact (board_changes_only_on_placement s (Tick 3 5%N) Hs Hok Hd).
Defined.

Lemma clearLoopV_count (n : nat) bv (cnt : Z) : cnt ≤ (clearLoopV n bv cnt).2.
Proof.
  revert bv cnt. induction n as [|n IH]; intros bv cnt; cbn [clearLoopV]; [done|].
  destruct (rowFull _); [|apply IH].
  etrans; [|apply IH]. lia.
Qed.

Lemma shownScore_app (a b : list event) :
  shownScore (a ++ b)
    = match shownScore b with Some n => Some n | None => shownScore a end.
Proof.
  induction a as [|e a IH]; cbn [app shownScore].
  - by destruct (shownScore b).
  - rewrite IH. by destruct (shownScore b).
Qed.

Lemma placeV_score (i : Z) (c : N) g :
  (∃ k, 0 ≤ k ∧ g_score g = 10 * k) →
  (shownScore (g_events g) = Some (g_score g) ∨
   (shownScore (g_events g) = None ∧ g_score g = 0)) →
  (∃ k, 0 ≤ k ∧ g_score (placeV i c g) = 10 * k) ∧
  (shownScore (g_events (placeV i c g)) = Some (g_score (placeV i c g)) ∨
   (shownScore (g_events (placeV i c g)) = None ∧ g_score (placeV i c g) = 0)).
Proof.
  intros (k & Hk & Ek) Hshown. unfold placeV.
  set (b1 := placeCellsV _ _ _ _ _).
  pose proof (clearLoopV_count (Z.to_nat ROWS) b1 0) as Hn.
  fold (clearLinesV b1) in Hn. set (n := (clearLinesV b1).2) in *.
  destruct (fits _ _ _ _); cbn [g_score g_events].
  - split; [exists (k + n); lia|].
    rewrite shownScore_app. destruct (Z.ltb_spec 0 n) as [Hpos|Hzero].
    + by left.
    + cbn [shownScore]. assert (n = 0) as -> by lia.
      by rewrite Z.mul_0_l, Z.add_0_r.
  - split; [exists 0; lia|]. left. by rewrite shownScore_app.
Qed.

Lemma handleV_placeV g inp :
  (g_board (handleV inp g) = g_board g ∧ g_score (handleV inp g) = g_score g ∧
   g_events (handleV inp g) = g_events g) ∨
  (∃ i c, handleV inp g = placeV i c g).
Proof.
  destruct inp; cbn [handleV].
  - left. unfold moveV. by destruct (fits _ _ _ _).
  - left. unfold moveV. by destruct (fits _ _ _ _).
  - unfold dropV. destruct (fits _ _ _ _); [by left | right; by exists i, c].
  - left. unfold rotateG. by destruct (fits _ _ _ _).
  - by left.
  - unfold dropV. destruct (fits _ _ _ _); [by left | right; by exists i, c].
Qed.

(** X8.  The score (lines 10, 114-117, 124-125) in every state of the
    running game: it is a multiple of 10 and not negative, and the text of
    the score element, once the script has written it, shows the current
    score; as long as the script has not written it the score is 0. *)
Theorem score_is_shown (s : state) :
  reachable s →
  (∃ k, 0 ≤ k ∧ score s = 10 * k) ∧
  (shownScore (events s) = Some (score s) ∨
   (shownScore (events s) = None ∧ score s = 0)).
Proof.
  intros Hs.
  destruct (reachable_view_ind (λ g,
      (∃ k, 0 ≤ k ∧ g_score g = 10 * k) ∧
      (shownScore (g_events g) = Some (g_score g) ∨
       (shownScore (g_events g) = None ∧ g_score g = 0))))
    with (s := s) as (g & Hv & _ & HP).
  - intros i c _. unfold startV. cbn [g_score g_events shownScore].
    split; [exists 0; lia | by right].
  - intros g inp _ [H10 Hshown] _.
    destruct (handleV_placeV g inp) as [(_ & -> & ->) | (i & c & ->)]; [done|].
    by apply placeV_score.
  - exact Hs.
  - destruct (view_inv s g Hv) as (_ & _ & _ & _ & _ & <- & <-). exact HP.
Qed.

Lemma score_is_shown_witness :
  let s := (handle (Tick 0 0xabc%N) one_row_ready).1 in
  reachable s ∧ score s = 10 ∧
  (∃ k, 0 ≤ k ∧ score s = 10 * k) ∧
  (shownScore (events s) = Some (score s) ∨
   (shownScore (events s) = None ∧ score s = 0)).
Proof.
  intros s.
  assert (Hs : reachable s).
  { apply (reach_step one_row_ready (Tick 0 0xabc%N) s
             (handle (Tick 0 0xabc%N) one_row_ready).2).
    - exact one_row_ready_reachable.
    - decide_by_compute.
    - unfold s. by destruct (handle (Tick 0 0xabc%N) one_row_ready). }
  split; [exact Hs|]. split; [vm_compute; reflexivity|].
  exact (score_is_shown s Hs).
Defined.

(** ** The piece comes to rest *)

Lemma reachable_box s :
  reachable s →
  ∃ mv, maskView s = Some mv ∧ (1 ≤ length mv)%nat ∧
        currentY s + Z.of_nat (length mv) ≤ ROWS.
Proof.
  intros Hs. destruct (reachable_orientation s Hs) as (g & Hv & Hpl & Ho).
  destruct (view_inv s g Hv) as (_ & Hm & _ & Ex & Ey & _).
  destruct Hpl as (_ & _ & Hfits & _).
  destruct (orientations_facts _ Ho) as (_ & Ht & _ & _ & Hh & _).
  destruct (tight_fits_box _ _ _ _ Ht Hfits) as (_ & _ & HY1).
  exists (g_mask g). split; [exact Hm|]. split; [lia|]. by rewrite <- Ey.
Qed.

Lemma drop_free s (i : Z) (c : N) :
  Inv s →
  snd (isValidMove s (currentX s) (currentY s + 1) (currentPiece s)) = Ok true →
  drop i c s = (set_currentY (currentY s + 1) s, Ok tt).
Proof.
  intros HI Hok. pose proof HI as (rl & bv & sl & ml & mv & HB & HM).
  assert (Hy : 0 ≤ currentY s + 1) by (pose proof (m_y _ _ _ _ _ _ HM); lia).
  rewrite (isValidMove_view s _ _ _ HI (Inv_view _ _ _ _ _ _ HB HM) Hy) in Hok.
  cbn [g_board g_mask] in Hok. injection Hok as Hf.
  rewrite (drop_eq _ _ _ _ _ _ i c HB HM). by rewrite Hf.
Qed.

Lemma drop_resting s (i : Z) (c : N) :
  Inv s →
  snd (isValidMove s (currentX s) (currentY s + 1) (currentPiece s)) = Ok false →
  drop i c s = placePiece i c s.
Proof.
  intros HI Hok. pose proof HI as (rl & bv & sl & ml & mv & HB & HM).
  assert (Hy : 0 ≤ currentY s + 1) by (pose proof (m_y _ _ _ _ _ _ HM); lia).
  rewrite (isValidMove_view s _ _ _ HI (Inv_view _ _ _ _ _ _ HB HM) Hy) in Hok.
  cbn [g_board g_mask] in Hok. injection Hok as Hf.
  rewrite (drop_eq _ _ _ _ _ _ i c HB HM). by rewrite Hf.
Qed.

Lemma isValidMove_bool s (x y : Z) :
  Inv s → 0 ≤ y →
  ∃ b : bool, snd (isValidMove s x y (currentPiece s)) = Ok b.
Proof.
  intros HI Hy. pose proof HI as (rl & bv & sl & ml & mv & HB & HM).
  eexists. exact (isValidMove_view s _ x y HI (Inv_view _ _ _ _ _ _ HB HM) Hy).
Qed.

Lemma free_fall (m : nat) s :
  reachable s → ROWS - currentY s ≤ Z.of_nat m →
  ∃ n : nat,
    reachable (set_currentY (currentY s + Z.of_nat n) s) ∧
    (∀ inps, length inps = n → Forall is_drop inps →
       run inps s = (set_currentY (currentY s + Z.of_nat n) s, Ok tt)) ∧
    snd (isValidMove (set_currentY (currentY s + Z.of_nat n) s)
           (currentX s) (currentY s + Z.of_nat n + 1) (currentPiece s)) = Ok false.
Proof.
  revert s. induction m as [|m IH]; intros s Hs Hm.
  { destruct (reachable_box s Hs) as (mv & _ & Hh & HY). lia. }
  pose proof (reachable_Inv s Hs) as HI.
  assert (Hy : 0 ≤ currentY s + 1).
  { destruct HI as (rl & bv & sl & ml & mv & HB & HM).
    pose proof (m_y _ _ _ _ _ _ HM). lia. }
  destruct (isValidMove_bool s (currentX s) (currentY s + 1) HI Hy) as [[|] Hb].
  - set (s2 := set_currentY (currentY s + 1) s).
    assert (Hdrop : ∀ i c, drop i c s = (s2, Ok tt))
      by (intros i c; by apply drop_free).
    assert (Hs2 : reachable s2).
    { apply (reach_step s (Tick 0 0) s2 (Ok tt) Hs); [|apply Hdrop].
      cbn [input_ok]. unfold draw_ok. lia. }
    destruct (IH s2 Hs2) as (n & Hr & Hrun & Hrest).
    { unfold s2. simpl_state. lia. }
    assert (E : set_currentY (currentY s2 + Z.of_nat n) s2
                = set_currentY (currentY s + Z.of_nat (S n)) s).
    { unfold s2, set_currentY. simpl_state. f_equal. lia. }
    rewrite E in Hr, Hrun, Hrest.
    exists (S n). split; [exact Hr|]. split.
    + intros inps Hlen Hdrops. destruct inps as [|inp rest]; [done|].
      apply Forall_cons in Hdrops as [Hinp Hdrops].
      cbn [run]. erewrite bindM_ok.
      * apply Hrun; [by injection Hlen | exact Hdrops].
      * destruct inp; cbn [is_drop] in Hinp; try done; cbn [handle]; apply Hdrop.
    + replace (currentY s + Z.of_nat (S n) + 1)
        with (currentY s2 + Z.of_nat n + 1) by (unfold s2; simpl_state; lia).
      exact Hrest.
  - exists 0%nat.
    assert (E : set_currentY (currentY s + Z.of_nat 0) s = s)
      by (apply set_currentY_same; lia).
    rewrite E. split; [exact Hs|]. split.
    + intros inps Hlen _. by destruct inps.
    + replace (currentY s + Z.of_nat 0 + 1) with (currentY s + 1) by lia.
      exact Hb.
Qed.

Lemma placePiece_currentY s (i : Z) (c : N) :
  Inv s → draw_ok i c →
  ∃ s', placePiece i c s = (s', Ok tt) ∧ currentY s' = 0.
Proof.
  intros (rl & bv & sl & ml & mv & HB & HM) Hdraw.
  destruct (placePiece_view s rl bv sl ml mv i c HB HM Hdraw) as (s' & E & Hv).
  exists s'. split; [exact E|].
  destruct (view_inv s' _ Hv) as (_ & _ & _ & _ & <- & _).
  unfold placeV. by destruct (fits _ _ _ _).
Qed.

(** X9.  drop (lines 128-134) in the running game: the piece cannot fall
    for ever.  There is a number n of rows, with currentY + n + the height
    of the mask at most ROWS, such that n drops (ArrowDown or rounds of the
    timer, in any mix) only add n to currentY, after which the check of the
    next row fails, and the next drop places the piece (it is placePiece)
    and leaves the next piece at row 0. *)
Theorem piece_comes_to_rest (s : state) :
  reachable s →
  ∃ (n : nat) mv,
    maskView s = Some mv ∧
    currentY s + Z.of_nat n + Z.of_nat (length mv) ≤ ROWS ∧
    let s1 := set_currentY (currentY s + Z.of_nat n) s in
    (∀ inps, length inps = n → Forall is_drop inps → run inps s = (s1, Ok tt)) ∧
    snd (isValidMove s1 (currentX s1) (currentY s1 + 1) (currentPiece s1)) = Ok false ∧
    ∀ i c, draw_ok i c →
      ∃ s', drop i c s1 = (s', Ok tt) ∧ placePiece i c s1 = (s', Ok tt) ∧
            currentY s' = 0.
Proof.
  intros Hs.
  destruct (free_fall (Z.to_nat (ROWS - currentY s)) s Hs) as (n & Hr & Hrun & Hrest);
    [lia|].
  destruct (reachable_box _ Hr) as (mv & Hm & _ & HY).
  exists n, mv. split; [exact Hm|]. split; [exact HY|].
  cbn zeta. split; [exact Hrun|]. split; [exact Hrest|].
  intros i c Hdraw. pose proof (reachable_Inv _ Hr) as HI1.
  destruct (placePiece_currentY _ i c HI1 Hdraw) as (s' & E' & Hy').
  exists s'. split; [|split; [exact E' | exact Hy']].
  rewrite <- E'. apply drop_resting; [exact HI1 | exact Hrest].
Qed.

Lemma piece_comes_to_rest_witness :
  let s := (start 0 0xabc%N).1 in
  reachable s ∧
  ∃ (n : nat) mv,
    maskView s = Some mv ∧
    currentY s + Z.of_nat n + Z.of_nat (length mv) ≤ ROWS ∧
    let s1 := set_currentY (currentY s + Z.of_nat n) s in
    (∀ inps, length inps = n → Forall is_drop inps → run inps s = (s1, Ok tt)) ∧
    snd (isValidMove s1 (currentX s1) (currentY s1 + 1) (currentPiece s1)) = Ok false ∧
    ∀ i c, draw_ok i c →
      ∃ s', drop i c s1 = (s', Ok tt) ∧ placePiece i c s1 = (s', Ok tt) ∧
            currentY s' = 0.
Proof.
  intros s.
  assert (Hs : reachable s) by (apply spawn_reachable; decide_by_compute).
  split; [exact Hs|]. exact (piece_comes_to_rest s Hs).
Defined.

(** ** clearLines, from the bottom row up *)

Lemma rowFull_emptyRow : rowFull emptyRow = false.
Proof. reflexivity. Qed.

Lemma clearLoopV_S (k : nat) bv (cnt : Z) :
  clearLoopV (S k) bv cnt
    = if rowFull (default [] (bv !! k))
      then clearLoopV k (emptyRow :: delete k bv) (cnt + 1)
      else clearLoopV k bv cnt.
Proof. cbn [clearLoopV]. unfold rowOf. by rewrite Nat2Z.id. Qed.

(** The rows that were put on top are empty: checking them changes
    nothing. *)
Lemma clearLoopV_empties (n c : nat) rest (cnt : Z) :
  (n ≤ c)%nat →
  clearLoopV n (replicate c emptyRow ++ rest) cnt
    = (replicate c emptyRow ++ rest, cnt).
Proof.
  induction n as [|n IH]; intros Hn; [reflexivity|].
  rewrite clearLoopV_S. rewrite lookup_app_l by (rewrite length_replicate; lia).
  rewrite lookup_replicate_2 by lia. cbn [default]. unfold id.
  rewrite rowFull_emptyRow. apply IH. lia.
Qed.

Lemma sweep_nonfull r rest :
  rowFull r = false → sweep (r :: rest) = (r :: (sweep rest).1, (sweep rest).2).
Proof. intros H. cbn [sweep]. rewrite H. by destruct (sweep rest). Qed.

Lemma sweep_full_last r : rowFull r = true → sweep [r] = ([], 1%nat).
Proof. intros H. cbn [sweep]. by rewrite H. Qed.

Lemma sweep_full r r' rest :
  rowFull r = true →
  sweep (r :: r' :: rest) = (r' :: (sweep rest).1, S (sweep rest).2).
Proof. intros H. cbn [sweep]. rewrite H. by destruct (sweep rest). Qed.

(** Induction along [sweep]. *)
Lemma sweep_ind (P : list (list jsval) → Prop) :
  P [] →
  (∀ r rest, rowFull r = false → P rest → P (r :: rest)) →
  (∀ r, rowFull r = true → P [r]) →
  (∀ r r' rest, rowFull r = true → P rest → P (r :: r' :: rest)) →
  ∀ l, P l.
Proof.
  intros Hnil Hnon Hlast Hfull l.
  assert (H : P l ∧ ∀ r, P (r :: l)); [|by destruct H].
  induction l as [|a l [IH1 IH2]].
  - split; [exact Hnil|]. intros r.
    destruct (rowFull r) eqn:Hr; [by apply Hlast | by apply Hnon].
  - split; [apply IH2|]. intros r.
    destruct (rowFull r) eqn:Hr; [by apply Hfull | apply Hnon; [done | apply IH2]].
Qed.

(** The loop of clearLines on a board that has [c] fresh empty rows on
    top, then the rows [reverse V] that are still to be checked, then the
    rows [D] that are done. *)
Lemma clearLoopV_sweep (V : list (list jsval)) :
  ∀ (c : nat) (D : list (list jsval)) (cnt : Z),
    clearLoopV (c + length V) (replicate c emptyRow ++ reverse V ++ D) cnt
    = (replicate (c + (sweep V).2) emptyRow ++ reverse (sweep V).1 ++ D,
       cnt + Z.of_nat (sweep V).2).
Proof.
  induction V as [| r rest Hr IH | r Hr | r r' rest Hr IH] using sweep_ind;
    intros c D cnt.
  - cbn [length sweep fst snd]. rewrite !Nat.add_0_r, reverse_nil. cbn [app].
    rewrite clearLoopV_empties by lia. by rewrite Z.add_0_r.
  - rewrite sweep_nonfull by done. cbn [fst snd length].
    replace (c + S (length rest))%nat with (S (c + length rest)) by lia.
    assert (Ecur : replicate c emptyRow ++ reverse (r :: rest) ++ D
                   = (replicate c emptyRow ++ reverse rest) ++ r :: D).
    { rewrite reverse_cons, <- !app_assoc. reflexivity. }
    rewrite clearLoopV_S, Ecur.
    rewrite list_lookup_middle
      by (rewrite length_app, length_replicate, length_reverse; lia).
    cbn [default]. unfold id. rewrite Hr. rewrite <- app_assoc. rewrite IH.
    rewrite reverse_cons, <- !app_assoc. reflexivity.
  - rewrite sweep_full_last by done. cbn [fst snd length].
    replace (c + 1)%nat with (S c) by lia. rewrite reverse_nil, reverse_singleton.
    cbn [app]. rewrite clearLoopV_S.
    rewrite list_lookup_middle by (by rewrite length_replicate).
    cbn [default]. unfold id. rewrite Hr.
    replace (delete c (replicate c emptyRow ++ r :: D))
      with (replicate c emptyRow ++ D).
    2:{ rewrite <- (length_replicate c emptyRow) at 2. by rewrite delete_middle. }
    change (emptyRow :: replicate c emptyRow ++ D)
      with (replicate (S c) emptyRow ++ D).
    rewrite clearLoopV_empties by lia. reflexivity.
  - rewrite sweep_full by done. cbn [fst snd length].
    replace (c + S (S (length rest)))%nat with (S (S c + length rest)) by lia.
    assert (Ecur : replicate c emptyRow ++ reverse (r :: r' :: rest) ++ D
                   = (replicate c emptyRow ++ reverse rest ++ [r']) ++ r :: D).
    { rewrite !reverse_cons, <- !app_assoc. reflexivity. }
    rewrite clearLoopV_S, Ecur.
    rewrite list_lookup_middle
      by (rewrite !length_app, length_replicate, length_reverse; cbn [length]; lia).
    cbn [default]. unfold id. rewrite Hr.
    replace (delete (S c + length rest)%nat
               ((replicate c emptyRow ++ reverse rest ++ [r']) ++ r :: D))
      with ((replicate c emptyRow ++ reverse rest ++ [r']) ++ D).
    2:{ replace (S c + length rest)%nat
          with (length (replicate c emptyRow ++ reverse rest ++ [r'])).
        - by rewrite delete_middle.
        - rewrite !length_app, length_replicate, length_reverse. cbn [length]. lia. }
    replace (emptyRow :: (replicate c emptyRow ++ reverse rest ++ [r']) ++ D)
      with (replicate (S c) emptyRow ++ reverse rest ++ r' :: D).
    2:{ cbn [replicate app]. rewrite <- !app_assoc. reflexivity. }
    rewrite IH. rewrite reverse_cons, <- !app_assoc. cbn [app].
    replace (c + S (sweep rest).2)%nat with (S c + (sweep rest).2)%nat by lia.
    f_equal. lia.
Qed.

Lemma clearLinesV_sweep bv :
  Z.of_nat (length bv) = ROWS →
  clearLinesV bv
    = (replicate (sweep (reverse bv)).2 emptyRow ++ reverse (sweep (reverse bv)).1,
       Z.of_nat (sweep (reverse bv)).2).
Proof.
  intros Hlen. unfold clearLinesV.
  pose proof (clearLoopV_sweep (reverse bv) 0 [] 0) as H.
  rewrite length_reverse, reverse_involutive, !app_nil_r in H.
  cbn [replicate app Nat.add] in H.
  replace (Z.to_nat ROWS) with (length bv) by lia. exact H.
Qed.

(** *** What the sweep keeps and what it removes *)

Lemma sweep_length l : (length (sweep l).1 + (sweep l).2 = length l)%nat.
Proof.
  induction l as [| r rest Hr IH | r Hr | r r' rest Hr IH] using sweep_ind.
  - reflexivity.
  - rewrite sweep_nonfull by done. cbn [fst snd length]. lia.
  - by rewrite sweep_full_last.
  - rewrite sweep_full by done. cbn [fst snd length]. lia.
Qed.

Lemma sweep_sublist l : (sweep l).1 `sublist_of` l.
Proof.
  induction l as [| r rest Hr IH | r Hr | r r' rest Hr IH] using sweep_ind.
  - reflexivity.
  - rewrite sweep_nonfull by done. by apply sublist_skip.
  - rewrite sweep_full_last by done. apply sublist_nil_l.
  - rewrite sweep_full by done. cbn [fst]. apply sublist_cons. by apply sublist_skip.
Qed.

Lemma sweep_keeps_nonfull l :
  filter (λ r, rowFull r = false) (sweep l).1 = filter (λ r, rowFull r = false) l.
Proof.
  induction l as [| r rest Hr IH | r Hr | r r' rest Hr IH] using sweep_ind.
  - reflexivity.
  - rewrite sweep_nonfull by done. cbn [fst].
    rewrite !(filter_cons_True _ r) by done. by rewrite IH.
  - rewrite sweep_full_last by done. cbn [fst].
    rewrite filter_cons_False by (by rewrite Hr). reflexivity.
  - rewrite sweep_full by done. cbn [fst].
    rewrite (filter_cons_False _ r) by (by rewrite Hr).
    rewrite !(filter_cons _ r'). by rewrite IH.
Qed.

Lemma sweep_count l :
  ((sweep l).2 ≤ length (filter (λ r, rowFull r = true) l) ≤ 2 * (sweep l).2)%nat.
Proof.
  induction l as [| r rest Hr IH | r Hr | r r' rest Hr IH] using sweep_ind.
  - cbn. lia.
  - rewrite sweep_nonfull by done. cbn [fst snd].
    rewrite filter_cons_False by (by rewrite Hr). exact IH.
  - rewrite sweep_full_last by done. cbn [fst snd].
    rewrite filter_cons_True by done. cbn. lia.
  - rewrite sweep_full by done. cbn [fst snd].
    rewrite filter_cons_True by done. rewrite filter_cons.
    destruct (decide (rowFull r' = true)); cbn [length]; lia.
Qed.

Lemma apart_cons r l : apart (r :: l) = true → apart l = true.
Proof.
  destruct l as [|r' l]; [done|]. cbn [apart]. rewrite andb_true_iff.
  by intros [_ H].
Qed.

Lemma sweep_apart l :
  apart l = true →
  (sweep l).1 = filter (λ r, rowFull r = false) l ∧
  (sweep l).2 = length (filter (λ r, rowFull r = true) l).
Proof.
  induction l as [| r rest Hr IH | r Hr | r r' rest Hr IH] using sweep_ind;
    intros Ha.
  - done.
  - rewrite sweep_nonfull by done. cbn [fst snd].
    destruct (IH (apart_cons _ _ Ha)) as [-> ->].
    rewrite filter_cons_True by done.
    by rewrite (filter_cons_False (λ r, rowFull r = true)) by (by rewrite Hr).
  - rewrite sweep_full_last by done. cbn [fst snd].
    rewrite filter_cons_False by (by rewrite Hr).
    by rewrite filter_cons_True by done.
  - rewrite sweep_full by done. cbn [fst snd].
    assert (Hr' : rowFull r' = false).
    { cbn [apart] in Ha. rewrite Hr in Ha. by destruct (rowFull r'). }
    destruct (IH (apart_cons _ _ (apart_cons _ _ Ha))) as [-> ->].
    rewrite (filter_cons_False _ r) by (by rewrite Hr).
    rewrite (filter_cons_True _ r') by done.
    rewrite (filter_cons_True (λ r, rowFull r = true) r) by done.
    by rewrite (filter_cons_False (λ r, rowFull r = true) r') by (by rewrite Hr').
Qed.

Lemma apart_spec l :
  apart l = true ↔
  ∀ l1 r r' l2, l = l1 ++ r :: r' :: l2 → rowFull r && rowFull r' = false.
Proof.
  induction l as [|a l IH].
  - split; [|done]. intros _ l1 r r' l2 E. by destruct l1.
  - split.
    + intros Ha l1 r r' l2 E. destruct l1 as [|b l1].
      * injection E as -> ->. cbn [apart] in Ha. rewrite andb_true_iff in Ha.
        destruct Ha as [Ha _]. by apply negb_true_iff in Ha.
      * injection E as -> E. apply (proj1 IH (apart_cons _ _ Ha) l1 r r' l2 E).
    + intros H. destruct l as [|r' l]; [done|]. cbn [apart].
      rewrite andb_true_iff. split.
      * apply negb_true_iff. by apply (H [] a r' l).
      * apply IH. intros l1 r r'' l2 E. apply (H (a :: l1) r r'' l2).
        by rewrite E.
Qed.

Lemma apart_reverse l : apart l = true → apart (reverse l) = true.
Proof.
  rewrite !apart_spec. intros H l1 r r' l2 E.
  rewrite andb_comm. apply (H (reverse l2) r' r (reverse l1)).
  rewrite <- (reverse_involutive l), E.
  rewrite reverse_app, !reverse_cons, <- !app_assoc. reflexivity.
Qed.

Lemma sublist_reverse {A} (l1 l2 : list A) :
  l1 `sublist_of` l2 → reverse l1 `sublist_of` reverse l2.
Proof.
  induction 1 as [| x l1 l2 _ IH | x l1 l2 _ IH].
  - reflexivity.
  - rewrite !reverse_cons. by apply sublist_app.
  - rewrite reverse_cons. by apply sublist_inserts_r.
Qed.

(** X10.  clearLines (lines 105-118) on any board that satisfies the board
    invariant: it returns without exception, and the new board is n fresh
    empty rows on top of rows of the old board in their old order.  Only
    full rows are missing, every row that is not full is still there, and
    the score grows by 10 for each of the n rows removed.  At least half of
    the full rows (rounded up) are removed, but not always all of them: the
    loop is the sweep that skips the row above a row it removes. *)
Theorem clearLines_removes_full_rows_only (s : state) (rl : list loc)
    (bv : list (list jsval)) :
  BInv s rl bv →
  ∃ s' (kept : list (list jsval)) (n : nat),
    clearLines s = (s', Ok tt) ∧
    boardView s' = Some (replicate n emptyRow ++ kept) ∧
    (n + length kept = length bv)%nat ∧
    kept `sublist_of` bv ∧
    filter (λ r, rowFull r = false) kept = filter (λ r, rowFull r = false) bv ∧
    (n ≤ length (filter (λ r, rowFull r = true) bv) ≤ 2 * n)%nat ∧
    score s' = score s + 10 * Z.of_nat n ∧
    events s' = events s ++
      (if 0 <? Z.of_nat n then [ScoreText (score s')] else []) ∧
    kept = reverse (sweep (reverse bv)).1 ∧ n = (sweep (reverse bv)).2.
Proof.
  intros HB. pose proof (b_grid _ _ _ HB) as [Hlen _].
  destruct (clearLines_spec s rl bv HB)
    as (s' & rl' & E & HB' & Hsc & Hev & _).
  rewrite (clearLinesV_sweep bv Hlen) in HB', Hsc, Hev. cbn [fst snd] in *.
  exists s', (reverse (sweep (reverse bv)).1), (sweep (reverse bv)).2.
  split; [exact E|]. split; [exact (BInv_boardView _ _ _ HB')|].
  split.
  { pose proof (sweep_length (reverse bv)) as H.
    rewrite length_reverse in H. rewrite length_reverse. lia. }
  split.
  { rewrite <- (reverse_involutive bv) at 2. apply sublist_reverse, sweep_sublist. }
  split.
  { rewrite filter_reverse, sweep_keeps_nonfull, filter_reverse.
    apply reverse_involutive. }
  split.
  { pose proof (sweep_count (reverse bv)) as H.
    by rewrite filter_reverse, length_reverse in H. }
  split; [lia|]. split; [exact Hev|]. done.
Qed.

Lemma omap_refs (ls : list loc) :
  omap (λ v, match v with JRef l => Some l | _ => None end) (JRef <$> ls) = ls.
Proof. induction ls as [|l ls IH]; [done|]. cbn. by rewrite IH. Qed.

Lemma BInv_read s rl bv :
  BInv s rl bv → BInv s (rowRefs s) (default [] (boardView s)).
Proof.
  intros HB. unfold rowRefs. rewrite (b_board _ _ _ HB). cbn [default].
  unfold id. rewrite omap_refs. by rewrite (BInv_boardView _ _ _ HB).
Qed.

Lemma placed_BInv s0 :
  reachable s0 →
  BInv (placeCells s0).1 (rowRefs (placeCells s0).1)
       (default [] (boardView (placeCells s0).1)).
Proof.
  intros Hs. destruct (reachable_Inv s0 Hs) as (rl & bv & sl & ml & mv & HB & HM).
  destruct (placeCells_spec s0 rl bv sl ml mv HB HM) as (s1 & bv1 & E1 & HB1 & _).
  rewrite E1. cbn [fst]. by eapply BInv_read.
Qed.

Lemma two_rows_ready_reachable : reachable two_rows_ready.
Proof. apply start_run_reachable; decide_by_compute. Qed.

Lemma clearLines_removes_full_rows_only_witness :
  let s := (placeCells two_rows_ready).1 in
  let bv := default [] (boardView s) in
  BInv s (rowRefs s) bv ∧
  ∃ s' (kept : list (list jsval)) (n : nat),
    clearLines s = (s', Ok tt) ∧
    boardView s' = Some (replicate n emptyRow ++ kept) ∧
    (n + length kept = length bv)%nat ∧
    kept `sublist_of` bv ∧
    filter (λ r, rowFull r = false) kept = filter (λ r, rowFull r = false) bv ∧
    (n ≤ length (filter (λ r, rowFull r = true) bv) ≤ 2 * n)%nat ∧
    score s' = score s + 10 * Z.of_nat n ∧
    events s' = events s ++
      (if 0 <? Z.of_nat n then [ScoreText (score s')] else []) ∧
    kept = reverse (sweep (reverse bv)).1 ∧ n = (sweep (reverse bv)).2.
Proof.
  intros s bv.
  assert (HB : BInv s (rowRefs s) bv) by exact (placed_BInv _ two_rows_ready_reachable).
  split; [exact HB|].
  exact (clearLines_removes_full_rows_only s (rowRefs s) bv HB).
Defined.

(** X11.  clearLines on a board on which no two full rows are next to each
    other: every full row is removed.  The new board is one fresh empty
    row for each full row, on top of the rows that were not full in their
    old order; no row of it is full, and the score grows by 10 times the
    number of full rows. *)
Theorem clearLines_complete_when_apart (s : state) (rl : list loc)
    (bv : list (list jsval)) :
  BInv s rl bv → apart bv = true →
  ∃ s' bv',
    clearLines s = (s', Ok tt) ∧ boardView s' = Some bv' ∧
    bv' = replicate (length (filter (λ r, rowFull r = true) bv)) emptyRow ++
          filter (λ r, rowFull r = false) bv ∧
    Forall (λ r, rowFull r = false) bv' ∧
    score s' = score s +
               10 * Z.of_nat (length (filter (λ r, rowFull r = true) bv)).
Proof.
  intros HB Ha. pose proof (b_grid _ _ _ HB) as [Hlen _].
  destruct (clearLines_spec s rl bv HB)
    as (s' & rl' & E & HB' & Hsc & _).
  rewrite (clearLinesV_sweep bv Hlen) in HB', Hsc. cbn [fst snd] in *.
  destruct (sweep_apart _ (apart_reverse _ Ha)) as [Ek En].
  rewrite Ek, En in HB'. rewrite En in Hsc.
  rewrite filter_reverse, length_reverse in HB', Hsc.
  rewrite filter_reverse, reverse_involutive in HB'.
  eexists s', _. split; [exact E|]. split; [exact (BInv_boardView _ _ _ HB')|].
  split; [reflexivity|]. split; [|lia].
  apply Forall_app. split.
  - apply Forall_replicate, rowFull_emptyRow.
  - apply Forall_forall. intros r Hr. by apply list_elem_of_filter in Hr as [Hr _].
Qed.

Lemma clearLines_complete_when_apart_witness :
  let s := (placeCells one_row_ready).1 in
  let bv := default [] (boardView s) in
  BInv s (rowRefs s) bv ∧ apart bv = true ∧
  length (filter (λ r, rowFull r = true) bv) = 1%nat ∧
  ∃ s' bv',
    clearLines s = (s', Ok tt) ∧ boardView s' = Some bv' ∧
    bv' = replicate (length (filter (λ r, rowFull r = true) bv)) emptyRow ++
          filter (λ r, rowFull r = false) bv ∧
    Forall (λ r, rowFull r = false) bv' ∧
    score s' = score s +
               10 * Z.of_nat (length (filter (λ r, rowFull r = true) bv)).
Proof.
  intros s bv.
  assert (HB : BInv s (rowRefs s) bv) by exact (placed_BInv _ one_row_ready_reachable).
  assert (Ha : apart bv = true) by (vm_compute; reflexivity).
  split; [exact HB|]. split; [exact Ha|]. split; [vm_compute; reflexivity|].
  exact (clearLines_complete_when_apart s (rowRefs s) bv HB Ha).
Defined.

(** ** Drawing *)

Lemma bindD_lift {A B} (a : A) (f : A → D B) : liftD (Ok a) ≫= f = f a.
Proof. unfold liftD, mbind, D_bind. by destruct (f a). Qed.

Lemma bindD_ok {A B} (m : D A) (f : A → D B) (w : frame) (a : A) :
  m = (w, Ok a) → m ≫= f = (w ++ (f a).1, (f a).2).
Proof. intros ->. unfold mbind, D_bind. by destruct (f a). Qed.

(** A counting loop over the indices of a list, and [forEach], when no
    round throws: the frames of the rounds, one after the other. *)
Lemma forUpD_list {A} (body : Z → D unit) (g : A → Z → frame) (a : list A) (i : Z) :
  (∀ (k : nat) v, a !! k = Some v →
     body (i + Z.of_nat k) = (g v (i + Z.of_nat k), Ok tt)) →
  forUpD (length a) i body = (concat (map_idx g i a), Ok tt).
Proof.
  revert i. induction a as [|v a IH]; intros i H; [reflexivity|].
  cbn [length forUpD map_idx concat].
  pose proof (H 0%nat v eq_refl) as H0. rewrite Z.add_0_r in H0.
  rewrite (bindD_ok _ _ _ _ H0). rewrite IH; [reflexivity|].
  intros k w Hk. replace (i + 1 + Z.of_nat k) with (i + Z.of_nat (S k)) by lia.
  by apply H.
Qed.

Lemma forEachD_rel {A B} (rel : A → B → Prop) (f : A → Z → D unit)
    (g : B → Z → frame) (a : list A) (b : list B) (i : Z) :
  Forall2 rel a b →
  (∀ v w j, rel v w → f v j = (g w j, Ok tt)) →
  forEachD f i a = (concat (map_idx g i b), Ok tt).
Proof.
  intros Hab H. revert i. induction Hab as [|v w a b Hvw _ IH]; intros i;
    [reflexivity|].
  cbn [forEachD map_idx concat].
  rewrite (bindD_ok _ _ _ _ (H v w i Hvw)). by rewrite IH.
Qed.

Lemma drawBoard_spec s rl bv :
  BInv s rl bv → drawBoard s = (boardFrameV bv, Ok tt).
Proof.
  intros HB. pose proof (b_grid _ _ _ HB) as [Hlen Hall].
  unfold drawBoard, boardFrameV.
  replace (Z.to_nat ROWS) with (length bv) by lia.
  apply forUpD_list. intros k cells Hk. rewrite Z.add_0_l.
  destruct (Forall_lookup_1 _ _ _ _ Hall Hk) as [Hcl _].
  replace (Z.to_nat COLS) with (length cells) by lia.
  apply forUpD_list. intros j cell Hj. rewrite Z.add_0_l.
  pose proof (lookup_lt_Some _ _ _ Hk) as Hklt.
  destruct (board_row s rl bv (b_rows _ _ _ HB) (Z.of_nat k)) as (l & Hl & Hst);
    [lia|].
  assert (Erow : rowOf bv (Z.of_nat k) = cells).
  { unfold rowOf. by rewrite Nat2Z.id, Hk. }
  rewrite Erow in Hst.
  assert (E1 : getIndex (store s) (JRef (board s)) (Z.of_nat k) = Ok (JRef l)).
  { cbn [getIndex]. by rewrite (b_board _ _ _ HB), Hl. }
  assert (E2 : getIndex (store s) (JRef l) (Z.of_nat j) = Ok cell).
  { cbn [getIndex]. by rewrite Hst, (aget_lookup _ _ _ Hj). }
  rewrite E1, bindD_lift, E2, bindD_lift. unfold nonEmpty.
  destruct (negb (strict_eq cell EMPTY)); [|reflexivity].
  by rewrite bindD_lift, E2, bindD_lift.
Qed.

Lemma drawPiece_spec s rl bv sl ml mv :
  MInv s rl bv sl ml mv →
  drawPiece s = (pieceFrameV mv (currentX s) (currentY s)
                   (JStr (color (currentPiece s))), Ok tt).
Proof.
  intros HM. unfold drawPiece, pieceFrameV.
  rewrite (m_shape _ _ _ _ _ _ HM). cbn [asArray].
  rewrite (m_outer _ _ _ _ _ _ HM), bindD_lift.
  apply (forEachD_rel (λ r cells, asArray (store s) r = Ok cells)).
  - pose proof (m_rows _ _ _ _ _ _ HM) as Hrows. unfold rows_at in Hrows.
    apply Forall2_fmap_l. eapply Forall2_impl; [exact Hrows|].
    intros l cells Hl. unfold compose. cbn [asArray]. by rewrite Hl.
  - intros r cells dy Hr. rewrite Hr, bindD_lift.
    apply (forEachD_rel eq); [by apply list_eq_Forall2|].
    intros v w dx <-. by destruct (truthy v).
Qed.

Lemma draw_spec (width height : Z) s g :
  Inv s → view s = Some g →
  draw width height s = (frameV width height g, Ok tt).
Proof.
  intros (rl & bv & sl & ml & mv & HB & HM) Hv.
  rewrite (Inv_view _ _ _ _ _ _ HB HM) in Hv. injection Hv as <-.
  unfold draw, frameV. cbn [g_board g_mask g_color g_x g_y].
  rewrite (bindD_ok _ _ [ClearRect 0 0 width height] tt eq_refl).
  rewrite (bindD_ok _ _ _ _ (drawBoard_spec s rl bv HB)).
  by rewrite (drawPiece_spec s rl bv sl ml mv HM).
Qed.

(** *** What a frame paints *)

Lemma boardFrameV_blocks bv :
  boardFrameV bv = blocksFrameV nonEmpty (λ cell, cell) bv 0 0.
Proof. reflexivity. Qed.

Lemma pieceFrameV_blocks mv (x y : Z) (color : jsval) :
  pieceFrameV mv x y color = blocksFrameV truthy (λ _, color) mv x y.
Proof. reflexivity. Qed.

Lemma map_idx_ext {A B} (f g : A → Z → B) (i : Z) (a : list A) :
  (∀ v j, f v j = g v j) → map_idx f i a = map_idx g i a.
Proof.
  intros H. revert i. induction a as [|v a IH]; intros i; [reflexivity|].
  cbn [map_idx]. by rewrite H, IH.
Qed.

Lemma elem_of_concat_map_idx {A B} (f : A → Z → list B) (i : Z) (a : list A) (e : B) :
  e ∈ concat (map_idx f i a) ↔
  ∃ (k : nat) v, a !! k = Some v ∧ e ∈ f v (i + Z.of_nat k).
Proof.
  revert i. induction a as [|v a IH]; intros i.
  - split; [by intros H%elem_of_nil | by intros (k & v & H & _)].
  - cbn [map_idx concat]. rewrite elem_of_app, IH. split.
    + intros [H | (k & w & Hk & H)].
      * exists 0%nat, v. by rewrite Z.add_0_r.
      * exists (S k), w. split; [done|].
        by replace (i + Z.of_nat (S k)) with (i + 1 + Z.of_nat k) by lia.
    + intros (k & w & Hk & H). destruct k as [|k].
      * left. injection Hk as ->. by rewrite Z.add_0_r in H.
      * right. exists k, w. split; [done|].
        by replace (i + 1 + Z.of_nat k) with (i + Z.of_nat (S k)) by lia.
Qed.

Lemma Forall_concat_map_idx {A B} (Q : B → Prop) (f : A → Z → list B)
    (i : Z) (a : list A) :
  (∀ (k : nat) v, a !! k = Some v → Forall Q (f v (i + Z.of_nat k))) →
  Forall Q (concat (map_idx f i a)).
Proof.
  intros H. apply Forall_forall. intros e He.
  apply elem_of_concat_map_idx in He as (k & v & Hk & He).
  specialize (H k v Hk). rewrite Forall_forall in H. by apply H.
Qed.

(** The parts of a list by index do not overlap when each element tells
    the index of its part. *)
Lemma NoDup_concat_map_idx {A B} (key : B → Z) (f : A → Z → list B)
    (i : Z) (a : list A) :
  (∀ v j, NoDup (f v j)) → (∀ v j e, e ∈ f v j → key e = j) →
  NoDup (concat (map_idx f i a)).
Proof.
  intros Hnd Hkey. revert i. induction a as [|v a IH]; intros i.
  - apply NoDup_nil_2.
  - cbn [map_idx concat]. apply NoDup_app. split; [apply Hnd|]. split; [|apply IH].
    intros e He Hin. apply elem_of_concat_map_idx in Hin as (k & w & _ & Hin).
    apply Hkey in He. apply Hkey in Hin. lia.
Qed.

Lemma filled_app (a b : frame) : filled (a ++ b) = filled a ++ filled b.
Proof. apply omap_app. Qed.

Lemma filled_concat_map_idx {A} (f : A → Z → frame) (i : Z) (a : list A) :
  filled (concat (map_idx f i a))
    = concat (map_idx (λ v j, filled (f v j)) i a).
Proof.
  revert i. induction a as [|v a IH]; intros i; [reflexivity|].
  cbn [map_idx concat]. unfold filled at 1. rewrite omap_app.
  fold (filled (f v i)). fold (filled (concat (map_idx f (i + 1) a))).
  by rewrite IH.
Qed.

Lemma filled_blocksFrameV P paint m (x y : Z) :
  filled (blocksFrameV P paint m x y)
    = concat (map_idx (λ cells dy,
        concat (map_idx (λ v dx,
          if P v : bool
          then [((x + dx) * BLOCK_SIZE, (y + dy) * BLOCK_SIZE)] else [])
          0 cells)) 0 m).
Proof.
  unfold blocksFrameV. rewrite filled_concat_map_idx. f_equal.
  apply map_idx_ext. intros cells dy. rewrite filled_concat_map_idx. f_equal.
  apply map_idx_ext. intros v dx. by destruct (P v).
Qed.

Lemma elem_of_filled_blocks P paint m (x y X Y : Z) :
  (X, Y) ∈ filled (blocksFrameV P paint m x y) ↔
  ∃ (k j : nat) row v,
    m !! k = Some row ∧ row !! j = Some v ∧ P v = true ∧
    X = (x + Z.of_nat j) * BLOCK_SIZE ∧ Y = (y + Z.of_nat k) * BLOCK_SIZE.
Proof.
  rewrite filled_blocksFrameV, elem_of_concat_map_idx. split.
  - intros (k & row & Hk & He).
    apply elem_of_concat_map_idx in He as (j & v & Hj & He).
    rewrite !Z.add_0_l in He. destruct (P v) eqn:HP; [|by apply elem_of_nil in He].
    apply list_elem_of_singleton in He. injection He as -> ->.
    by exists k, j, row, v.
  - intros (k & j & row & v & Hk & Hj & HP & -> & ->).
    exists k, row. split; [done|]. apply elem_of_concat_map_idx.
    exists j, v. split; [done|]. rewrite !Z.add_0_l, HP.
    by apply list_elem_of_singleton.
Qed.

Lemma NoDup_filled_blocks P paint m (x y : Z) :
  NoDup (filled (blocksFrameV P paint m x y)).
Proof.
  rewrite filled_blocksFrameV.
  apply (NoDup_concat_map_idx (λ e, e.2 / BLOCK_SIZE - y)).
  - intros cells dy.
    apply (NoDup_concat_map_idx (λ e, e.1 / BLOCK_SIZE - x)).
    + intros v dx. destruct (P v); [apply NoDup_singleton | apply NoDup_nil_2].
    + intros v dx e He. destruct (P v); [|by apply elem_of_nil in He].
      apply list_elem_of_singleton in He as ->. cbn [fst].
      rewrite Z.div_mul by done. lia.
  - intros cells dy e He.
    apply elem_of_concat_map_idx in He as (j & v & _ & He).
    destruct (P v); [|by apply elem_of_nil in He].
    apply list_elem_of_singleton in He as ->. cbn [snd].
    rewrite Z.div_mul by done. lia.
Qed.

Lemma Forall_blocksFrameV (Q : canvas_call → Prop) P paint m (x y : Z) :
  (∀ (k j : nat) row v, m !! k = Some row → row !! j = Some v → P v = true →
     Forall Q (blockV (x + Z.of_nat j) (y + Z.of_nat k) (paint v))) →
  Forall Q (blocksFrameV P paint m x y).
Proof.
  intros H. unfold blocksFrameV. apply Forall_concat_map_idx. intros k row Hk.
  apply Forall_concat_map_idx. intros j v Hj. rewrite !Z.add_0_l.
  destruct (P v) eqn:HP; [by eapply H | apply Forall_nil_2].
Qed.

Lemma blockV_block_call (col row : Z) (color : jsval) :
  0 ≤ col < COLS → 0 ≤ row < ROWS → is_color color →
  Forall block_call (blockV col row color).
Proof.
  intros Hc Hr Hcol. unfold blockV.
  repeat apply Forall_cons_2; [| | | |apply Forall_nil_2]; cbn [block_call].
  - exact Hcol.
  - by exists col, row.
  - reflexivity.
  - by exists col, row.
Qed.

Lemma maskAt_intro mv (k j : nat) row v :
  mv !! k = Some row → row !! j = Some v → truthy v = true →
  maskAt mv (Z.of_nat k) (Z.of_nat j) = true.
Proof.
  intros Hk Hj Hv. unfold maskAt, rowOf. rewrite Nat2Z.id, Hk. cbn [default].
  unfold id. rewrite (aget_lookup _ _ _ Hj), Hv.
  destruct (Z.leb_spec 0 (Z.of_nat k)); [reflexivity | lia].
Qed.

Lemma grid_cell bv (k j : nat) row v :
  grid bv → bv !! k = Some row → row !! j = Some v →
  0 ≤ Z.of_nat j < COLS ∧ 0 ≤ Z.of_nat k < ROWS ∧ is_cell v ∧
  aget (rowOf bv (Z.of_nat k)) (Z.of_nat j) = v.
Proof.
  intros [Hlen Hall] Hk Hj.
  destruct (Forall_lookup_1 _ _ _ _ Hall Hk) as [Hcl Hcells].
  pose proof (lookup_lt_Some _ _ _ Hk). pose proof (lookup_lt_Some _ _ _ Hj).
  split; [lia|]. split; [lia|].
  split; [exact (Forall_lookup_1 _ _ _ _ Hcells Hj)|].
  unfold rowOf. rewrite Nat2Z.id, Hk. cbn [default]. unfold id.
  by apply aget_lookup.
Qed.

Lemma nonEmpty_is_color v : is_cell v → nonEmpty v = true → is_color v.
Proof. intros [->|H] Hn; [done | exact H]. Qed.

(** The frame of a playable game. *)
Lemma frameV_facts (width height : Z) g :
  playable g →
  Forall block_call (boardFrameV (g_board g) ++
                     pieceFrameV (g_mask g) (g_x g) (g_y g) (JStr (g_color g))) ∧
  NoDup (filled (frameV width height g)) ∧
  ∀ X Y : Z,
    (X, Y) ∈ filled (frameV width height g) ↔
    ∃ col row : Z,
      0 ≤ col < COLS ∧ 0 ≤ row < ROWS ∧
      X = col * BLOCK_SIZE ∧ Y = row * BLOCK_SIZE ∧
      (nonEmpty (aget (rowOf (g_board g) row) col) = true ∨
       maskAt (g_mask g) (row - g_y g) (col - g_x g) = true).
Proof.
  intros (Hgrid & Hy & Hfits & _ & _ & Hcolor).
  assert (Hfilled : filled (frameV width height g)
    = filled (blocksFrameV nonEmpty (λ cell, cell) (g_board g) 0 0) ++
      filled (blocksFrameV truthy (λ _, JStr (g_color g)) (g_mask g) (g_x g) (g_y g))).
  { unfold frameV. rewrite boardFrameV_blocks, pieceFrameV_blocks.
    etrans; [|apply filled_app]. reflexivity. }
  split; [|split].
  - apply Forall_app. split.
    + rewrite boardFrameV_blocks. apply Forall_blocksFrameV.
      intros k j row v Hk Hj Hv. rewrite !Z.add_0_l.
      destruct (grid_cell _ _ _ _ _ Hgrid Hk Hj) as (Hc & Hr & Hcell & _).
      apply blockV_block_call; [done | done | by apply nonEmpty_is_color].
    + rewrite pieceFrameV_blocks. apply Forall_blocksFrameV.
      intros k j row v Hk Hj Hv.
      destruct (fits_cell _ _ _ _ _ _ _ _ Hfits Hk Hj Hv) as (HX & HY & _).
      apply blockV_block_call; [done | lia | done].
  - rewrite Hfilled. apply NoDup_app.
    split; [apply NoDup_filled_blocks|]. split; [|apply NoDup_filled_blocks].
    intros [X Y] Hb Hp.
    apply elem_of_filled_blocks in Hb as (k & j & row & v & Hk & Hj & Hv & EX & EY).
    apply elem_of_filled_blocks in Hp
      as (k' & j' & row' & v' & Hk' & Hj' & Hv' & EX' & EY').
    destruct (grid_cell _ _ _ _ _ Hgrid Hk Hj) as (_ & _ & _ & Hget).
    destruct (fits_cell _ _ _ _ _ _ _ _ Hfits Hk' Hj' Hv') as (_ & _ & HE).
    unfold BLOCK_SIZE in *.
    replace (g_y g + Z.of_nat k') with (Z.of_nat k) in HE by lia.
    replace (g_x g + Z.of_nat j') with (Z.of_nat j) in HE by lia.
    rewrite Hget in HE. by rewrite HE in Hv.
  - intros X Y. rewrite Hfilled, elem_of_app, !elem_of_filled_blocks. split.
    + intros [(k & j & row & v & Hk & Hj & Hv & -> & ->)
             |(k & j & row & v & Hk & Hj & Hv & -> & ->)].
      * destruct (grid_cell _ _ _ _ _ Hgrid Hk Hj) as (Hc & Hr & _ & Hget).
        exists (Z.of_nat j), (Z.of_nat k). rewrite !Z.add_0_l.
        split; [done|]. split; [done|]. split; [done|]. split; [done|].
        left. by rewrite Hget.
      * destruct (fits_cell _ _ _ _ _ _ _ _ Hfits Hk Hj Hv) as (HX & HY & _).
        exists (g_x g + Z.of_nat j), (g_y g + Z.of_nat k).
        split; [done|]. split; [lia|]. split; [done|]. split; [done|].
        right. replace (g_y g + Z.of_nat k - g_y g) with (Z.of_nat k) by lia.
        replace (g_x g + Z.of_nat j - g_x g) with (Z.of_nat j) by lia.
        by eapply maskAt_intro.
    + intros (col & row & Hc & Hr & -> & -> & [Hb | Hm]).
      * left. destruct Hgrid as [Hlen Hall].
        destruct (lookup_lt_is_Some_2 (g_board g) (Z.to_nat row)) as [cells Hk];
          [lia|].
        destruct (Forall_lookup_1 _ _ _ _ Hall Hk) as [Hcl _].
        destruct (lookup_lt_is_Some_2 cells (Z.to_nat col)) as [v Hj]; [lia|].
        exists (Z.to_nat row), (Z.to_nat col), cells, v.
        split; [done|]. split; [done|]. split.
        { unfold rowOf in Hb. rewrite Hk in Hb. cbn [default] in Hb.
          unfold id, aget in Hb. rewrite decide_True in Hb by lia.
          by rewrite Hj in Hb. }
        split; f_equal; lia.
      * right. apply maskAt_true in Hm as (k & j & cells & v & Ek & Ej & Hk & Hj & Hv).
        exists k, j, cells, v. split; [done|]. split; [done|]. split; [done|].
        split; f_equal; lia.
Qed.

(** X12.  draw, drawBoard, drawPiece and drawBlock (lines 34-65) in every
    state of the running game: draw returns without exception; it clears
    the canvas once, then draws the blocks of the board and then the cells
    of the piece.  Every rectangle it fills or outlines is one block of the
    grid (BLOCK_SIZE wide and high, at a column below COLS and a row below
    ROWS), every fill colour is a colour made by newPiece and every outline
    is black.  The cells it fills are exactly the cells of the board that
    are not EMPTY and the cells under the occupied cells of the mask, and no
    cell is filled twice: the piece is never drawn over a block. *)
Theorem draw_paints_board_and_piece (width height : Z) (s : state) :
  reachable s →
  ∃ bv mv fr,
    boardView s = Some bv ∧ maskView s = Some mv ∧
    draw width height s = (ClearRect 0 0 width height :: fr, Ok tt) ∧
    fr = boardFrameV bv ++
         pieceFrameV mv (currentX s) (currentY s) (JStr (color (currentPiece s))) ∧
    Forall block_call fr ∧
    NoDup (filled fr) ∧
    ∀ X Y : Z,
      (X, Y) ∈ filled fr ↔
      ∃ col row : Z,
        0 ≤ col < COLS ∧ 0 ≤ row < ROWS ∧
        X = col * BLOCK_SIZE ∧ Y = row * BLOCK_SIZE ∧
        (nonEmpty (aget (rowOf bv row) col) = true ∨
         maskAt mv (row - currentY s) (col - currentX s) = true).
Proof.
  intros Hs. pose proof (reachable_Inv s Hs) as HI.
  pose proof HI as (rl & bv & sl & ml & mv & HB & HM).
  pose proof (Inv_view _ _ _ _ _ _ HB HM) as Hv.
  pose proof (Inv_playable s _ HI Hv) as Hpl.
  destruct (frameV_facts width height _ Hpl) as (Hcalls & Hnd & Hin).
  cbn [g_board g_mask g_color g_x g_y] in *.
  exists bv, mv, (boardFrameV bv ++
    pieceFrameV mv (currentX s) (currentY s) (JStr (color (currentPiece s)))).
  split; [exact (BInv_boardView _ _ _ HB)|].
  split; [exact (MInv_maskView _ _ _ _ _ _ HM)|].
  split; [exact (draw_spec width height s _ HI Hv)|].
  split; [reflexivity|]. split; [exact Hcalls|]. split; [exact Hnd | exact Hin].
Qed.

Lemma draw_paints_board_and_piece_witness :
  let s := two_rows_ready in
  reachable s ∧
  ∃ bv mv fr,
    boardView s = Some bv ∧ maskView s = Some mv ∧
    draw 300 600 s = (ClearRect 0 0 300 600 :: fr, Ok tt) ∧
    fr = boardFrameV bv ++
         pieceFrameV mv (currentX s) (currentY s) (JStr (color (currentPiece s))) ∧
    Forall block_call fr ∧
    NoDup (filled fr) ∧
    ∀ X Y : Z,
      (X, Y) ∈ filled fr ↔
      ∃ col row : Z,
        0 ≤ col < COLS ∧ 0 ≤ row < ROWS ∧
        X = col * BLOCK_SIZE ∧ Y = row * BLOCK_SIZE ∧
        (nonEmpty (aget (rowOf bv row) col) = true ∨
         maskAt mv (row - currentY s) (col - currentX s) = true).
Proof.
  intros s. split; [exact two_rows_ready_reachable|].
  exact (draw_paints_board_and_piece 300 600 s two_rows_ready_reachable).
Defined.

Lemma handle_draw (width height : Z) s inp :
  reachable s → input_ok inp →
  ∃ s' fr,
    handle inp s = (s', Ok tt) ∧ reachable s' ∧
    draw width height s' = (fr, Ok tt).
Proof.
  intros Hs Hok.
  destruct (handle_Inv s inp (reachable_Inv s Hs) Hok) as (s' & E & HI').
  pose proof HI' as (rl & bv & sl & ml & mv & HB & HM).
  exists s', (frameV width height
    (Game bv mv (color (currentPiece s')) (currentX s') (currentY s')
          (score s') (events s'))).
  split; [exact E|]. split; [by apply (reach_step s inp s' (Ok tt))|].
  apply draw_spec; [exact HI' | by eapply Inv_view].
Qed.

(** X13.  gameLoop and the keydown listener (lines 151-168) in every state
    of the running game: the handler returns without exception, draw() is
    reached and returns without exception, and gameLoop always sets its
    next timer, with a delay of 1000: no round of the loop is the last
    one.  The frame that is drawn is the frame of the state the handler
    left. *)
Theorem gameLoop_never_stops (width height : Z) (s : state) :
  reachable s →
  (∀ i c, draw_ok i c →
     ∃ s' fr,
       gameLoop width height i c s = (s', (fr, Ok LOOP_DELAY)) ∧
       drop i c s = (s', Ok tt) ∧ draw width height s' = (fr, Ok tt) ∧
       reachable s') ∧
  (∀ inp, is_key inp → input_ok inp →
     ∃ s' fr,
       keydown width height inp s = (s', (fr, Ok tt)) ∧
       handle inp s = (s', Ok tt) ∧ draw width height s' = (fr, Ok tt) ∧
       reachable s').
Proof.
  intros Hs. split.
  - intros i c Hdraw.
    destruct (handle_draw width height s (Tick i c) Hs Hdraw)
      as (s' & fr & E & Hs' & Ed).
    cbn [handle] in E. exists s', fr. unfold gameLoop. rewrite E.
    split; [|done]. rewrite (bindD_ok _ _ _ _ Ed). cbn [fst snd mret D_ret].
    by rewrite app_nil_r.
  - intros inp _ Hok.
    destruct (handle_draw width height s inp Hs Hok) as (s' & fr & E & Hs' & Ed).
    exists s', fr. unfold keydown. rewrite E. by rewrite Ed.
Qed.

Lemma gameLoop_never_stops_witness :
  let s := topped_out in
  reachable s ∧
  (∀ i c, draw_ok i c →
     ∃ s' fr,
       gameLoop 300 600 i c s = (s', (fr, Ok LOOP_DELAY)) ∧
       drop i c s = (s', Ok tt) ∧ draw 300 600 s' = (fr, Ok tt) ∧
       reachable s') ∧
  (∀ inp, is_key inp → input_ok inp →
     ∃ s' fr,
       keydown 300 600 inp s = (s', (fr, Ok tt)) ∧
       handle inp s = (s', Ok tt) ∧ draw 300 600 s' = (fr, Ok tt) ∧
       reachable s').
Proof.
  intros s. split; [exact topped_out_reachable|].
  exact (gameLoop_never_stops 300 600 s topped_out_reachable).
Defined.

(** ** Blocks are conserved *)

Lemma blocks_cons r l :
  blocks (r :: l) = (length (filter (λ v, nonEmpty v) r) + blocks l)%nat.
Proof. unfold blocks. cbn [concat]. by rewrite filter_app, length_app. Qed.

Lemma blocks_app a b : blocks (a ++ b) = (blocks a + blocks b)%nat.
Proof.
  induction a as [|r a IH]; [reflexivity|].
  cbn [app]. rewrite !blocks_cons, IH. lia.
Qed.

Lemma blocks_reverse l : blocks (reverse l) = blocks l.
Proof.
  induction l as [|r l IH]; [reflexivity|].
  rewrite reverse_cons, blocks_app, IH, !blocks_cons.
  change (blocks []) with 0%nat. lia.
Qed.

Lemma blocks_empties (n : nat) : blocks (replicate n emptyRow) = 0%nat.
Proof.
  induction n as [|n IH]; [reflexivity|].
  cbn [replicate]. rewrite blocks_cons, IH. reflexivity.
Qed.

Lemma rowFull_count r :
  rowFull r = true → length (filter (λ v, nonEmpty v) r) = length r.
Proof.
  unfold rowFull. induction r as [|v r IH]; [reflexivity|].
  cbn [forallb]. rewrite andb_true_iff. intros [Hv Hr].
  rewrite filter_cons_True by (by apply Is_true_true_2). cbn [length].
  by rewrite IH.
Qed.

Lemma sweep_blocks V :
  Forall (λ r, Z.of_nat (length r) = COLS) V →
  (blocks (sweep V).1 + 10 * (sweep V).2 = blocks V)%nat.
Proof.
  induction V as [| r rest Hr IH | r Hr | r r' rest Hr IH] using sweep_ind;
    intros HF.
  - reflexivity.
  - apply Forall_cons in HF as [_ HF]. rewrite sweep_nonfull by done.
    cbn [fst snd]. rewrite !blocks_cons. specialize (IH HF). lia.
  - apply Forall_cons in HF as [Hlen _]. rewrite sweep_full_last by done.
    cbn [fst snd]. rewrite blocks_cons, (rowFull_count r Hr).
    change (blocks []) with 0%nat. unfold COLS in Hlen. lia.
  - apply Forall_cons in HF as [Hlen HF]. apply Forall_cons in HF as [_ HF].
    rewrite sweep_full by done. cbn [fst snd].
    rewrite !blocks_cons, (rowFull_count r Hr). specialize (IH HF).
    unfold COLS in Hlen. lia.
Qed.

(** A cleared row takes COLS blocks off the board. *)
Lemma clearLinesV_blocks bv :
  Z.of_nat (length bv) = ROWS → Forall (λ r, Z.of_nat (length r) = COLS) bv →
  Z.of_nat (blocks (clearLinesV bv).1) + 10 * (clearLinesV bv).2
    = Z.of_nat (blocks bv).
Proof.
  intros Hlen HF. rewrite (clearLinesV_sweep bv Hlen). cbn [fst snd].
  rewrite blocks_app, blocks_empties, blocks_reverse.
  pose proof (sweep_blocks (reverse bv)) as H.
  rewrite blocks_reverse in H. rewrite Forall_reverse in H.
  specialize (H HF). lia.
Qed.

Lemma filter_insert_count (l : list jsval) (i : nat) u v :
  l !! i = Some u → nonEmpty u = false → nonEmpty v = true →
  length (filter (λ v, nonEmpty v) (<[i := v]> l))
    = S (length (filter (λ v, nonEmpty v) l)).
Proof.
  intros Hi Hu Hv. pose proof (lookup_lt_Some _ _ _ Hi) as Hlt.
  rewrite insert_take_drop by done.
  transitivity (S (length (filter (λ v, nonEmpty v)
                             (take i l ++ u :: skipn (S i) l)))).
  - rewrite !filter_app, !length_app.
    rewrite filter_cons_True by (by apply Is_true_true_2).
    rewrite (filter_cons_False _ u) by (by apply Is_true_false_2).
    cbn [length]. lia.
  - by rewrite (take_drop_middle l i u Hi).
Qed.

Lemma blocks_insert_row bv (k : nat) row row' :
  bv !! k = Some row →
  length (filter (λ v, nonEmpty v) row')
    = S (length (filter (λ v, nonEmpty v) row)) →
  blocks (<[k := row']> bv) = S (blocks bv).
Proof.
  intros Hk Hc. pose proof (lookup_lt_Some _ _ _ Hk) as Hlt.
  rewrite insert_take_drop by done.
  transitivity (S (blocks (take k bv ++ row :: skipn (S k) bv))).
  - rewrite !blocks_app, !blocks_cons, Hc. lia.
  - by rewrite (take_drop_middle bv k row Hk).
Qed.

(** A write of a colour to an empty cell of the grid adds one block. *)
Lemma blocks_setCellV bv (X Y : Z) v :
  0 ≤ Y < Z.of_nat (length bv) → 0 ≤ X < Z.of_nat (length (rowOf bv Y)) →
  nonEmpty (aget (rowOf bv Y) X) = false → nonEmpty v = true →
  blocks (setCellV bv X Y v) = S (blocks bv).
Proof.
  intros HY HX Hu Hv. unfold setCellV. rewrite decide_True by done.
  destruct (lookup_lt_is_Some_2 bv (Z.to_nat Y)) as [row Hrow]; [lia|].
  assert (Erow : rowOf bv Y = row) by (unfold rowOf; by rewrite Hrow).
  rewrite Erow in *.
  destruct (lookup_lt_is_Some_2 row (Z.to_nat X)) as [u Hcell]; [lia|].
  assert (Eu : aget row X = u).
  { unfold aget. rewrite decide_True by lia. by rewrite Hcell. }
  rewrite Eu in Hu.
  apply (blocks_insert_row bv _ row); [done|].
  unfold aset. rewrite decide_False by lia. rewrite decide_True by lia.
  by apply (filter_insert_count row _ u).
Qed.

Lemma setCellV_cols bv (X Y : Z) v :
  Forall (λ r, Z.of_nat (length r) = COLS) bv → 0 ≤ X < COLS →
  Forall (λ r, Z.of_nat (length r) = COLS) (setCellV bv X Y v).
Proof.
  intros HF HX. unfold setCellV. destruct (decide _) as [HY|]; [|done].
  apply Forall_insert; [done|].
  destruct (lookup_lt_is_Some_2 bv (Z.to_nat Y)) as [row Hrow]; [lia|].
  pose proof (Forall_lookup_1 _ _ _ _ HF Hrow) as Hlen. cbn beta in Hlen.
  unfold rowOf. rewrite Hrow. cbn [default]. unfold id, aset.
  rewrite decide_False by lia. rewrite decide_True by lia.
  by rewrite length_insert.
Qed.

Lemma rowOf_cols bv (Y : Z) :
  Forall (λ r, Z.of_nat (length r) = COLS) bv → 0 ≤ Y < Z.of_nat (length bv) →
  Z.of_nat (length (rowOf bv Y)) = COLS.
Proof.
  intros HF HY.
  destruct (lookup_lt_is_Some_2 bv (Z.to_nat Y)) as [row Hrow]; [lia|].
  unfold rowOf. rewrite Hrow. exact (Forall_lookup_1 _ _ _ _ HF Hrow).
Qed.

Lemma placeRowV_cols (cells : list jsval) (x Y : Z) v (j0 : Z) bv :
  Forall (λ r, Z.of_nat (length r) = COLS) bv →
  (∀ (j : nat) u, cells !! j = Some u → truthy u = true →
     0 ≤ x + j0 + Z.of_nat j < COLS) →
  Forall (λ r, Z.of_nat (length r) = COLS)
    (foldl_idx (λ b1 value dx,
       if truthy value then setCellV b1 (x + dx) Y v else b1) j0 cells bv).
Proof.
  revert j0 bv. induction cells as [|u cells IH]; intros j0 bv HF H; [done|].
  cbn [foldl_idx]. apply IH.
  - destruct (truthy u) eqn:Hu; [|done]. apply setCellV_cols; [done|].
    specialize (H 0%nat u eq_refl Hu). lia.
  - intros j w Hj Hw. specialize (H (S j) w Hj Hw). lia.
Qed.

Lemma placeRowV_blocks (cells : list jsval) (x Y : Z) v (j0 : Z) bv :
  nonEmpty v = true → 0 ≤ Y < Z.of_nat (length bv) →
  Forall (λ r, Z.of_nat (length r) = COLS) bv →
  (∀ (j : nat) u, cells !! j = Some u → truthy u = true →
     0 ≤ x + j0 + Z.of_nat j < COLS ∧
     nonEmpty (aget (rowOf bv Y) (x + j0 + Z.of_nat j)) = false) →
  blocks (foldl_idx (λ b1 value dx,
            if truthy value then setCellV b1 (x + dx) Y v else b1) j0 cells bv)
  = (blocks bv + length (filter (λ u, truthy u) cells))%nat.
Proof.
  intros Hv. revert j0 bv. induction cells as [|u cells IH]; intros j0 bv HY HF H.
  { cbn [foldl_idx]. rewrite filter_nil. cbn [length]. lia. }
  cbn [foldl_idx]. destruct (truthy u) eqn:Hu.
  - destruct (H 0%nat u eq_refl Hu) as [HX0 HE0].
    rewrite Z.add_0_r in HX0, HE0.
    rewrite IH.
    + rewrite blocks_setCellV; [| done | by rewrite rowOf_cols | done | done].
      rewrite filter_cons_True by (by apply Is_true_true_2). cbn [length]. lia.
    + by rewrite setCellV_length.
    + by apply setCellV_cols.
    + intros j w Hj Hw. destruct (H (S j) w Hj Hw) as [HX HE].
      split; [lia|]. rewrite setCellV_get by lia.
      rewrite decide_False by lia.
      by replace (x + (j0 + 1) + Z.of_nat j) with (x + j0 + Z.of_nat (S j)) by lia.
  - rewrite IH; [| done | done |].
    + rewrite filter_cons_False by (by apply Is_true_false_2). reflexivity.
    + intros j w Hj Hw. destruct (H (S j) w Hj Hw) as [HX HE].
      split; [lia|].
      by replace (x + (j0 + 1) + Z.of_nat j) with (x + j0 + Z.of_nat (S j)) by lia.
Qed.

Lemma occupied_cons row mv :
  occupied (row :: mv) = (length (filter (λ u, truthy u) row) + occupied mv)%nat.
Proof. unfold occupied. cbn [concat]. by rewrite filter_app, length_app. Qed.

Lemma placeCellsV_blocks_from mv (x y : Z) v (k0 : Z) bv :
  nonEmpty v = true →
  Forall (λ r, Z.of_nat (length r) = COLS) bv →
  (∀ (k j : nat) row u,
     mv !! k = Some row → row !! j = Some u → truthy u = true →
     0 ≤ x + Z.of_nat j < COLS ∧
     0 ≤ y + k0 + Z.of_nat k < Z.of_nat (length bv) ∧
     nonEmpty (aget (rowOf bv (y + k0 + Z.of_nat k)) (x + Z.of_nat j)) = false) →
  let bv' := foldl_idx (λ b0 row dy,
               foldl_idx (λ b1 value dx,
                 if truthy value then setCellV b1 (x + dx) (y + dy) v else b1)
                 0 row b0) k0 mv bv in
  blocks bv' = (blocks bv + occupied mv)%nat ∧
  Forall (λ r, Z.of_nat (length r) = COLS) bv'.
Proof.
  intros Hv. revert k0 bv.
  induction mv as [|row mv IH]; intros k0 bv HF Hcells.
  { cbn [foldl_idx]. split; [unfold occupied; cbn; lia | done]. }
  cbn [foldl_idx].
  assert (Hrow : ∀ (j : nat) u, row !! j = Some u → truthy u = true →
    0 ≤ x + 0 + Z.of_nat j < COLS ∧
    nonEmpty (aget (rowOf bv (y + k0)) (x + 0 + Z.of_nat j)) = false).
  { intros j u Hj Hu. destruct (Hcells 0%nat j row u eq_refl Hj Hu) as (HX & _ & HE).
    rewrite Z.add_0_r in HE. rewrite Z.add_0_r. done. }
  assert (HY0 : 0 ≤ y + k0 < Z.of_nat (length bv) ∨
                filter (λ u, truthy u) row = []).
  { destruct (filter (λ u, truthy u) row) as [|u f] eqn:Hf; [by right|]. left.
    assert (Hin : u ∈ filter (λ u, truthy u) row) by (rewrite Hf; by left).
    apply list_elem_of_filter in Hin as [Hu Hin].
    apply list_elem_of_lookup_1 in Hin as [j Hj].
    destruct (Hcells 0%nat j row u eq_refl Hj (Is_true_true_1 _ Hu)) as (_ & HY & _).
    lia. }
  set (bv1 := foldl_idx _ 0 row bv).
  assert (Hlen1 : length bv1 = length bv) by apply placeRowV_length.
  assert (HF1 : Forall (λ r, Z.of_nat (length r) = COLS) bv1).
  { apply placeRowV_cols; [done|]. intros j u Hj Hu. by destruct (Hrow j u Hj Hu). }
  assert (Hb1 : blocks bv1 = (blocks bv + length (filter (λ u, truthy u) row))%nat).
  { destruct HY0 as [HY0 | Hnone].
    - by apply placeRowV_blocks.
    - rewrite Hnone. cbn [length]. rewrite Nat.add_0_r. f_equal. unfold bv1.
      clear -Hnone. generalize 0 as j0. revert bv.
      induction row as [|u row IHr]; intros bv j0; [done|].
      cbn [foldl_idx]. rewrite filter_cons in Hnone.
      destruct (decide (truthy u)) as [Hu|Hu]; [done|].
      apply Is_true_false_1 in Hu. rewrite Hu. by apply IHr. }
  destruct (IH (k0 + 1) bv1) as [Hb Hc]; [done| |].
  - intros k j row' u Hk Hj Hu.
    destruct (Hcells (S k) j row' u Hk Hj Hu) as (HX & HY & HE).
    split; [done|]. rewrite Hlen1.
    replace (y + (k0 + 1) + Z.of_nat k) with (y + k0 + Z.of_nat (S k)) by lia.
    split; [done|]. unfold bv1. rewrite placeRowV_get by lia.
    destruct (Z.eqb_spec (y + k0 + Z.of_nat (S k)) (y + k0)); [lia|]. done.
  - split; [|done]. rewrite Hb, Hb1, occupied_cons. lia.
Qed.

(** The cells of a piece that fits add one block each. *)
Lemma placeCellsV_blocks bv mv (x y : Z) v :
  Forall (λ r, Z.of_nat (length r) = COLS) bv → 0 ≤ y →
  Z.of_nat (length bv) = ROWS → fits bv mv x y = true → nonEmpty v = true →
  blocks (placeCellsV bv mv x y v) = (blocks bv + occupied mv)%nat ∧
  Forall (λ r, Z.of_nat (length r) = COLS) (placeCellsV bv mv x y v).
Proof.
  intros HF Hy Hlen Hfits Hv. unfold placeCellsV.
  apply (placeCellsV_blocks_from mv x y v 0 bv Hv HF).
  intros k j row u Hk Hj Hu.
  destruct (fits_cell _ _ _ _ _ _ _ _ Hfits Hk Hj Hu) as (HX & HY & HE).
  rewrite Z.add_0_r. split; [done|]. split; [lia|]. by rewrite HE.
Qed.

Lemma placeV_blocks (i : Z) (c : N) g :
  playable g → occupied (g_mask g) = 4%nat →
  Z.of_nat (blocks (g_board (placeV i c g))) + g_score (placeV i c g)
    = Z.of_nat (blocks (g_board g)) + g_score g + 4 ∨
  (g_board (placeV i c g) = emptyBoard ∧ g_score (placeV i c g) = 0).
Proof.
  intros ([Hlen Hall] & Hy & Hfits & _ & _ & Hcol) H4.
  assert (HF : Forall (λ r, Z.of_nat (length r) = COLS) (g_board g)).
  { eapply Forall_impl; [exact Hall|]. by intros r [Hr _]. }
  destruct (placeCellsV_blocks (g_board g) (g_mask g) (g_x g) (g_y g)
              (JStr (g_color g)) HF Hy Hlen Hfits eq_refl) as [Hb1 HF1].
  unfold placeV.
  set (b1 := placeCellsV (g_board g) (g_mask g) (g_x g) (g_y g) (JStr (g_color g))) in *.
  assert (Hlen1 : Z.of_nat (length b1) = ROWS).
  { unfold b1. by rewrite placeCellsV_length. }
  pose proof (clearLinesV_blocks b1 Hlen1 HF1) as Hb2.
  destruct (fits (clearLinesV b1).1 _ _ _); cbn [g_board g_score];
    [left; lia | by right].
Qed.

(** X14.  placePiece and clearLines (lines 90-118) keep count of the
    blocks: a placement that does not end the game adds the four cells of
    the piece to the board and takes COLS = 10 blocks off it for every 10
    points it adds to the score; a placement that ends the game leaves an
    empty board and the score 0.  So in every state of the running game the
    number of blocks on the board plus the score is four times a number of
    pieces. *)
Theorem blocks_are_conserved (s : state) :
  reachable s →
  ∃ bv (p : nat),
    boardView s = Some bv ∧
    Z.of_nat (blocks bv) + score s = 4 * Z.of_nat p ∧
    ∀ i c, draw_ok i c →
      ∃ s' bv',
        placePiece i c s = (s', Ok tt) ∧ boardView s' = Some bv' ∧
        (Z.of_nat (blocks bv') + score s' = Z.of_nat (blocks bv) + score s + 4 ∨
         (bv' = emptyBoard ∧ score s' = 0)).
Proof.
  intros Hs.
  destruct (reachable_view_ind (λ g,
      g_mask g ∈ orientations ∧
      ∃ p : nat, Z.of_nat (blocks (g_board g)) + g_score g = 4 * Z.of_nat p))
    with (s := s) as (g & Hv & Hpl & Ho & p & Hp).
  - intros i c [Hi _]. unfold startV. cbn [g_mask g_board g_score]. split.
    + destruct (canonical_draw i Hi) as (mask & -> & Hin). cbn [default].
      by apply orientations_canonical.
    + exists 0%nat. unfold emptyBoard. rewrite blocks_empties. lia.
  - intros g inp Hpl [Ho (p & Hp)] Hok. split.
    + destruct (handleV_mask g inp Hok) as [->| [->|H]].
      * exact Ho.
      * by apply orientations_rotateV.
      * by apply orientations_canonical.
    + destruct (handleV_placeV g inp) as [(-> & -> & _) | (i & c & ->)];
        [by exists p|].
      destruct (orientations_facts _ Ho) as (H4 & _).
      destruct (placeV_blocks i c g Hpl H4) as [E | [-> ->]].
      * exists (S p). lia.
      * exists 0%nat. unfold emptyBoard. rewrite blocks_empties. lia.
  - exact Hs.
  - destruct (view_inv s g Hv) as (Hb & _ & _ & _ & _ & Hsc & _).
    exists (g_board g), p. split; [exact Hb|]. split; [by rewrite <- Hsc|].
    intros i c Hdraw.
    pose proof (reachable_Inv s Hs) as (rl & bv & sl & ml & mv & HB & HM).
    destruct (placePiece_view s rl bv sl ml mv i c HB HM Hdraw) as (s' & E & Hv').
    rewrite (Inv_view _ _ _ _ _ _ HB HM) in Hv. injection Hv as <-.
    destruct (view_inv s' _ Hv') as (Hb' & _ & _ & _ & _ & Hsc' & _).
    eexists s', _. split; [exact E|]. split; [exact Hb'|].
    rewrite <- Hsc'. destruct (orientations_facts _ Ho) as (H4 & _).
    exact (placeV_blocks i c _ Hpl H4).
Qed.

Lemma blocks_are_conserved_witness :
  let s := two_rows_ready in
  reachable s ∧
  ∃ bv (p : nat),
    boardView s = Some bv ∧
    Z.of_nat (blocks bv) + score s = 4 * Z.of_nat p ∧
    ∀ i c, draw_ok i c →
      ∃ s' bv',
        placePiece i c s = (s', Ok tt) ∧ boardView s' = Some bv' ∧
        (Z.of_nat (blocks bv') + score s' = Z.of_nat (blocks bv) + score s + 4 ∨
         (bv' = emptyBoard ∧ score s' = 0)).
Proof.
  intros s. split; [exact two_rows_ready_reachable|].
  exact (blocks_are_conserved s two_rows_ready_reachable).
Defined.

(** ** newPiece and the catalog *)

Lemma canonical_spawnX mask : mask ∈ canonical → 3 ≤ spawnX mask ≤ 4.
Proof.
  assert (H : Forall (λ m, 3 ≤ spawnX m ≤ 4) canonical) by decide_by_compute.
  rewrite Forall_forall in H. apply H.
Qed.

(** X15.  newPiece (lines 67-75) in every state of the running game, for
    draws that Math.random can produce: it returns without exception; the
    shape of the new piece is the array PIECES[i] itself (the same
    reference, not a copy) when that entry is an array of rows (i from 1 to
    6), and a fresh one-element array around the flat entry PIECES[0] for
    the I piece; the mask read through it is the canonical mask i; the
    colour is the hexadecimal text of the second draw; the piece is at row
    0 and at column 3 or 4; the board, the score, the events and every array
    that existed stay as they were. *)
Theorem newPiece_shares_the_catalog (s : state) (i : Z) (c : N) :
  reachable s → draw_ok i c →
  ∃ s' entry mask,
    newPiece i c s = (s', Ok tt) ∧
    getIndex (store s') PIECES i = Ok entry ∧
    canonical !! Z.to_nat i = Some mask ∧ maskView s' = Some mask ∧
    (if decide (i = 0)
     then shape (currentPiece s') = JRef (next s) ∧
          store s' !! next s = Some [entry] ∧ next s' = S (next s)
     else shape (currentPiece s') = entry ∧ next s' = next s) ∧
    color (currentPiece s') = colorString c ∧
    currentX s' = spawnX mask ∧ 3 ≤ currentX s' ≤ 4 ∧ currentY s' = 0 ∧
    board s' = board s ∧ score s' = score s ∧ events s' = events s ∧
    (∀ l : loc, (l < next s)%nat → store s' !! l = store s !! l).
Proof.
  intros Hs Hdraw.
  destruct (reachable_Inv s Hs) as (rl & bv & _ & _ & _ & HB & _).
  pose proof (b_wf _ _ _ HB) as Hwf. pose proof (b_catalog _ _ _ HB) as Hcat.
  pose proof (b_next _ _ _ HB) as Hnext.
  destruct (newPiece_spec s i c Hwf Hcat Hnext Hdraw)
    as (s' & mask & sl & ml & E & Hcan & Hp & Hsl & Hml & _ & _
        & Hx & Hy & Eb & Esc & Eev & Hn & _ & Hfr).
  pose proof (catalog_lookup _ 19 _ Hcat eq_refl) as H20.
  assert (H20' : store s' !! 20%nat = store s !! 20%nat) by (apply Hfr; lia).
  assert (Hmask : mask ∈ canonical) by by eapply list_elem_of_lookup_2.
  eexists s', _, mask. split; [exact E|].
  split; [unfold PIECES; cbn [getIndex]; rewrite H20', H20; reflexivity|].
  split; [exact Hcan|].
  split; [unfold maskView; rewrite Hp; cbn [shape]; by eapply matrix_intro|].
  split.
  { destruct Hdraw as [Hi _].
    assert (i = 0 ∨ i = 1 ∨ i = 2 ∨ i = 3 ∨ i = 4 ∨ i = 5 ∨ i = 6)
      as [->|[->|[->|[->|[->|[->| ->]]]]]] by lia.
    - pose proof (catalog_lookup _ 0 _ Hcat eq_refl) as Hflat.
      rewrite (newPiece_flat s 0 c _ _ 1%nat Hwf H20 eq_refl Hflat eq_refl) in E.
      injection E as <-. rewrite decide_True by done. simpl_state.
      split; [reflexivity|]. split; [|reflexivity]. by rewrite lookup_insert_eq.
    - pose proof (catalog_lookup _ 3 _ Hcat eq_refl) as Hrows.
      pose proof (catalog_lookup _ 1 _ Hcat eq_refl) as Hr0.
      rewrite (newPiece_rows s 1 c _ _ _ 4%nat 2%nat H20 eq_refl Hrows eq_refl Hr0) in E.
      injection E as <-. by rewrite decide_False by done.
    - pose proof (catalog_lookup _ 6 _ Hcat eq_refl) as Hrows.
      pose proof (catalog_lookup _ 4 _ Hcat eq_refl) as Hr0.
      rewrite (newPiece_rows s 2 c _ _ _ 7%nat 5%nat H20 eq_refl Hrows eq_refl Hr0) in E.
      injection E as <-. by rewrite decide_False by done.
    - pose proof (catalog_lookup _ 9 _ Hcat eq_refl) as Hrows.
      pose proof (catalog_lookup _ 7 _ Hcat eq_refl) as Hr0.
      rewrite (newPiece_rows s 3 c _ _ _ 10%nat 8%nat H20 eq_refl Hrows eq_refl Hr0) in E.
      injection E as <-. by rewrite decide_False by done.
    - pose proof (catalog_lookup _ 12 _ Hcat eq_refl) as Hrows.
      pose proof (catalog_lookup _ 10 _ Hcat eq_refl) as Hr0.
      rewrite (newPiece_rows s 4 c _ _ _ 13%nat 11%nat H20 eq_refl Hrows eq_refl Hr0) in E.
      injection E as <-. by rewrite decide_False by done.
    - pose proof (catalog_lookup _ 15 _ Hcat eq_refl) as Hrows.
      pose proof (catalog_lookup _ 13 _ Hcat eq_refl) as Hr0.
      rewrite (newPiece_rows s 5 c _ _ _ 16%nat 14%nat H20 eq_refl Hrows eq_refl Hr0) in E.
      injection E as <-. by rewrite decide_False by done.
    - pose proof (catalog_lookup _ 18 _ Hcat eq_refl) as Hrows.
      pose proof (catalog_lookup _ 16 _ Hcat eq_refl) as Hr0.
      rewrite (newPiece_rows s 6 c _ _ _ 19%nat 17%nat H20 eq_refl Hrows eq_refl Hr0) in E.
      injection E as <-. by rewrite decide_False by done. }
  split; [by rewrite Hp|]. split; [exact Hx|].
  split; [rewrite Hx; by apply canonical_spawnX|].
  split; [exact Hy|]. split; [exact Eb|]. split; [exact Esc|].
  split; [exact Eev | exact Hfr].
Qed.

Lemma newPiece_shares_the_catalog_witness :
  let s := upright_at_wall in
  reachable s ∧ draw_ok 0 0xfedcba%N ∧
  ∃ s' entry mask,
    newPiece 0 0xfedcba%N s = (s', Ok tt) ∧
    getIndex (store s') PIECES 0 = Ok entry ∧
    canonical !! Z.to_nat 0 = Some mask ∧ maskView s' = Some mask ∧
    (if decide (0 = 0)
     then shape (currentPiece s') = JRef (next s) ∧
          store s' !! next s = Some [entry] ∧ next s' = S (next s)
     else shape (currentPiece s') = entry ∧ next s' = next s) ∧
    color (currentPiece s') = colorString 0xfedcba%N ∧
    currentX s' = spawnX mask ∧ 3 ≤ currentX s' ≤ 4 ∧ currentY s' = 0 ∧
    board s' = board s ∧ score s' = score s ∧ events s' = events s ∧
    (∀ l : loc, (l < next s)%nat → store s' !! l = store s !! l).
Proof.
  intros s.
  assert (Hdraw : draw_ok 0 0xfedcba%N) by decide_by_compute.
  split; [exact upright_at_wall_reachable|]. split; [exact Hdraw|].
  exact (newPiece_shares_the_catalog s 0 0xfedcba%N upright_at_wall_reachable Hdraw).
Defined.

Lemma to_hex_uint_nonnil (c : N) : N.to_hex_uint c ≠ Hexadecimal.Nil.
Proof.
  destruct c as [|p]; [discriminate|].
  apply HexadecimalPos.Unsigned.to_uint_nonnil.
Qed.

(** X16.  The colour of newPiece (line 71), `#` followed by the draw in
    base 16: two draws give the same colour only if they are the same
    number; the text after `#` is never empty, so a colour is a truthy
    string and never the EMPTY marker: a cell written by placePiece counts
    as occupied in clearLines and in drawBoard. *)
Theorem colorString_names_the_draw (c c' : N) :
  (colorString c = colorString c' ↔ c = c') ∧
  (∃ t, colorString c = "#" +:+ t ∧ t ≠ "") ∧
  truthy (JStr (colorString c)) = true ∧
  nonEmpty (JStr (colorString c)) = true.
Proof.
  split; [split|].
  - unfold colorString. intros H. apply (inj (String.append "#")) in H.
    apply (f_equal NilZero.uint_of_string) in H.
    rewrite !NilZero.usu in H by apply to_hex_uint_nonnil.
    injection H as H. by apply HexadecimalN.Unsigned.to_uint_inj.
  - by intros ->.
  - split; [|split; reflexivity].
    unfold colorString. eexists. split; [reflexivity|].
    pose proof (to_hex_uint_nonnil c). by destruct (N.to_hex_uint c).
Qed.

(** ** The start of the script *)

Lemma canonical_fits_below mask :
  mask ∈ canonical → fits emptyBoard mask (spawnX mask) 1 = true.
Proof.
  assert (H : Forall (λ m, fits emptyBoard m (spawnX m) 1 = true) canonical)
    by decide_by_compute.
  rewrite Forall_forall in H. apply H.
Qed.

Lemma boardFrameV_empty : boardFrameV emptyBoard = [].
Proof. reflexivity. Qed.

(** X17.  The start of the script (lines 170-172: createBoard(); newPiece();
    gameLoop();), for draws that Math.random can produce: createBoard and
    newPiece return without exception and leave an empty board, the score
    0, no event and the canonical piece i at row 0; the first round of
    gameLoop moves that piece to row 1 before anything is drawn (the draws
    of that round are not used), so the first frame clears the canvas and
    draws the cells of the piece at row 1 and nothing else; then the timer
    is set. *)
Theorem first_frame (width height : Z) (i : Z) (c : N) (i' : Z) (c' : N) :
  draw_ok i c → draw_ok i' c' →
  ∃ s0 mask,
    start i c = (s0, Ok tt) ∧
    canonical !! Z.to_nat i = Some mask ∧
    view s0 = Some (Game emptyBoard mask (colorString c) (spawnX mask) 0 0 []) ∧
    gameLoop width height i' c' s0
      = (set_currentY 1 s0,
         (ClearRect 0 0 width height ::
          pieceFrameV mask (spawnX mask) 1 (JStr (colorString c)),
          Ok LOOP_DELAY)).
Proof.
  intros Hdraw Hdraw'.
  destruct (start_view i c Hdraw) as (s0 & E0 & Hv0).
  destruct (start_Inv i c Hdraw) as (s0' & E0' & HI0).
  assert (s0' = s0) as -> by congruence.
  destruct (canonical_draw i (proj1 Hdraw)) as (mask & Hcan & Hmask).
  unfold startV in Hv0. rewrite Hcan in Hv0. cbn [default] in Hv0.
  exists s0, mask. split; [exact E0|]. split; [exact Hcan|]. split; [exact Hv0|].
  pose proof HI0 as (rl & bv & sl & ml & mv & HB & HM).
  rewrite (Inv_view _ _ _ _ _ _ HB HM) in Hv0.
  injection Hv0 as Ebv Emv Ecol Ex Ey Esc Eev. subst bv mv.
  assert (Ed : drop i' c' s0 = (set_currentY 1 s0, Ok tt)).
  { rewrite (drop_eq _ _ _ _ _ _ i' c' HB HM). rewrite Ex, Ey.
    change (0 + 1) with 1. by rewrite (canonical_fits_below mask Hmask). }
  assert (HI1 : Inv (set_currentY 1 s0)).
  { destruct (drop_Inv s0 i' c' HI0 Hdraw') as (s1 & E1 & HI1). congruence. }
  assert (Hv1 : view (set_currentY 1 s0)
    = Some (Game emptyBoard mask (colorString c) (spawnX mask) 1 0 [])).
  { rewrite (view_intro (set_currentY 1 s0) emptyBoard mask
               (BInv_boardView _ _ _ HB) (MInv_maskView _ _ _ _ _ _ HM)).
    simpl_state. by rewrite Ecol, Ex, Esc, Eev. }
  unfold gameLoop. rewrite Ed.
  rewrite (bindD_ok _ _ _ _ (draw_spec width height _ _ HI1 Hv1)).
  unfold frameV. cbn [g_board g_mask g_color g_x g_y fst snd mret D_ret].
  by rewrite boardFrameV_empty, app_nil_r.
Qed.

Lemma first_frame_witness :
  draw_ok 1 0xabc%N ∧ draw_ok 2 5%N ∧
  ∃ s0 mask,
    start 1 0xabc%N = (s0, Ok tt) ∧
    canonical !! Z.to_nat 1 = Some mask ∧
    view s0 = Some (Game emptyBoard mask (colorString 0xabc%N) (spawnX mask) 0 0 []) ∧
    gameLoop 300 600 2 5%N s0
      = (set_currentY 1 s0,
         (ClearRect 0 0 300 600 ::
          pieceFrameV mask (spawnX mask) 1 (JStr (colorString 0xabc%N)),
          Ok LOOP_DELAY)).
Proof.
  assert (H1 : draw_ok 1 0xabc%N) by decide_by_compute.
  assert (H2 : draw_ok 2 5%N) by decide_by_compute.
  split; [exact H1|]. split; [exact H2|].
  exact (first_frame 300 600 1 0xabc%N 2 5%N H1 H2).
Defined.

(** ** A player who presses no key *)

Lemma spawn_columns_empty : spawn_columns emptyBoard.
Proof.
  unfold spawn_columns, emptyBoard. apply Forall_replicate.
  intros j v Hj Hv. unfold emptyRow in Hj.
  apply lookup_replicate in Hj as [-> _]. discriminate Hv.
Qed.

Lemma canonical_columns mask :
  mask ∈ canonical →
  3 ≤ spawnX mask ∧ spawnX mask + Z.of_nat (width mask) ≤ 7.
Proof.
  assert (H : Forall (λ m, 3 ≤ spawnX m ∧ spawnX m + Z.of_nat (width m) ≤ 7)
                canonical) by decide_by_compute.
  rewrite Forall_forall in H. apply H.
Qed.

Lemma rowOf_lookup bv (k : nat) row : bv !! k = Some row → rowOf bv (Z.of_nat k) = row.
Proof. intros H. unfold rowOf. by rewrite Nat2Z.id, H. Qed.

(** The cells of a piece at its spawn column land in the columns 3 to 6. *)
Lemma spawn_columns_place bv mask (y : Z) v :
  Z.of_nat (length bv) = ROWS →
  Forall (λ r, Z.of_nat (length r) = COLS) bv →
  Forall (λ r, Z.of_nat (length r) = COLS) (placeCellsV bv mask (spawnX mask) y v) →
  mask ∈ canonical → spawn_columns bv →
  spawn_columns (placeCellsV bv mask (spawnX mask) y v).
Proof.
  intros Hlen HF HF' Hmask Hsc. unfold spawn_columns in *.
  apply Forall_lookup_2. intros k row' Hk j u Hj Hu.
  pose proof (lookup_lt_Some _ _ _ Hk) as Hklt.
  rewrite placeCellsV_length in Hklt.
  pose proof (lookup_lt_Some _ _ _ Hj) as Hjlt.
  pose proof (Forall_lookup_1 _ _ _ _ HF' Hk) as Hlen'. cbn beta in Hlen'.
  assert (Hget : aget (rowOf (placeCellsV bv mask (spawnX mask) y v) (Z.of_nat k))
                      (Z.of_nat j) = u).
  { rewrite (rowOf_lookup _ _ _ Hk). by apply aget_lookup. }
  rewrite placeCellsV_get in Hget by lia.
  destruct (maskAt mask (Z.of_nat k - y) (Z.of_nat j - spawnX mask)) eqn:Hm.
  - apply maskAt_true in Hm as (k' & j' & row & w & Ek & Ej & Hrow & Hcell & _).
    destruct (canonical_columns mask Hmask) as [H3 H7].
    destruct (orientations_facts mask (orientations_canonical _ Hmask))
      as (_ & _ & _ & Hrect & _).
    pose proof (Forall_lookup_1 _ _ _ _ Hrect Hrow) as Hw. cbn beta in Hw.
    pose proof (lookup_lt_Some _ _ _ Hcell). lia.
  - destruct (lookup_lt_is_Some_2 bv k) as [row Hrow]; [lia|].
    pose proof (Forall_lookup_1 _ _ _ _ HF Hrow) as Hlenr. cbn beta in Hlenr.
    destruct (lookup_lt_is_Some_2 row j) as [w Hw]; [lia|].
    rewrite (rowOf_lookup _ _ _ Hrow), (aget_lookup _ _ _ Hw) in Hget. subst w.
    exact (Forall_lookup_1 _ _ _ _ Hsc Hrow j u Hw Hu).
Qed.

Lemma spawn_columns_not_full row :
  Z.of_nat (length row) = COLS →
  (∀ (j : nat) v, row !! j = Some v → nonEmpty v = true → (3 ≤ j ≤ 6)%nat) →
  rowFull row = false.
Proof.
  intros Hlen H. unfold COLS in Hlen.
  destruct row as [|a row]; [cbn [length] in Hlen; lia|].
  unfold rowFull. cbn [forallb]. destruct (nonEmpty a) eqn:Ha; [|reflexivity].
  specialize (H 0%nat a eq_refl Ha). lia.
Qed.

(** Without a full row the loop of clearLines changes nothing. *)
Lemma clearLoopV_none (n : nat) bv (cnt : Z) :
  (∀ k : nat, (k < n)%nat → rowFull (default [] (bv !! k)) = false) →
  clearLoopV n bv cnt = (bv, cnt).
Proof.
  induction n as [|n IH]; intros H; [reflexivity|].
  rewrite clearLoopV_S, (H n) by lia. apply IH. intros k Hk. apply H. lia.
Qed.

Lemma clearLinesV_none bv :
  Z.of_nat (length bv) = ROWS →
  Forall (λ r, Z.of_nat (length r) = COLS) bv → spawn_columns bv →
  clearLinesV bv = (bv, 0).
Proof.
  intros Hlen HF Hsc. unfold clearLinesV. apply clearLoopV_none. intros k Hk.
  destruct (lookup_lt_is_Some_2 bv k) as [row Hrow]; [lia|].
  rewrite Hrow. cbn [default]. unfold id.
  apply spawn_columns_not_full.
  - exact (Forall_lookup_1 _ _ _ _ HF Hrow).
  - exact (Forall_lookup_1 _ _ _ _ Hsc Hrow).
Qed.

Lemma row_count row :
  Z.of_nat (length row) = COLS →
  (∀ (j : nat) v, row !! j = Some v → nonEmpty v = true → (3 ≤ j ≤ 6)%nat) →
  (length (filter (λ v, nonEmpty v) row) ≤ 4)%nat.
Proof.
  intros Hlen H. unfold COLS in Hlen.
  destruct row as [|a0 row]; [cbn [length] in Hlen; lia|].
  destruct row as [|a1 row]; [cbn [length] in Hlen; lia|].
  destruct row as [|a2 row]; [cbn [length] in Hlen; lia|].
  destruct row as [|a3 row]; [cbn [length] in Hlen; lia|].
  destruct row as [|a4 row]; [cbn [length] in Hlen; lia|].
  destruct row as [|a5 row]; [cbn [length] in Hlen; lia|].
  destruct row as [|a6 row]; [cbn [length] in Hlen; lia|].
  destruct row as [|a7 row]; [cbn [length] in Hlen; lia|].
  destruct row as [|a8 row]; [cbn [length] in Hlen; lia|].
  destruct row as [|a9 row]; [cbn [length] in Hlen; lia|].
  destruct row; [|cbn [length] in Hlen; lia].
  assert (Hout : ∀ (j : nat) v, (j < 3 ∨ 6 < j)%nat →
    [a0; a1; a2; a3; a4; a5; a6; a7; a8; a9] !! j = Some v → ¬ nonEmpty v).
  { intros j v Hj Hv Hn. apply Is_true_true_1 in Hn. specialize (H j v Hv Hn). lia. }
  rewrite (filter_cons_False _ a0) by (apply (Hout 0%nat); [lia | done]).
  rewrite (filter_cons_False _ a1) by (apply (Hout 1%nat); [lia | done]).
  rewrite (filter_cons_False _ a2) by (apply (Hout 2%nat); [lia | done]).
  rewrite (filter_cons _ a3), (filter_cons _ a4), (filter_cons _ a5),
    (filter_cons _ a6).
  rewrite (filter_cons_False _ a7) by (apply (Hout 7%nat); [lia | done]).
  rewrite (filter_cons_False _ a8) by (apply (Hout 8%nat); [lia | done]).
  rewrite (filter_cons_False _ a9) by (apply (Hout 9%nat); [lia | done]).
  rewrite filter_nil.
  repeat destruct (decide _); cbn [length]; lia.
Qed.

Lemma blocks_bound bv :
  Forall (λ r, Z.of_nat (length r) = COLS) bv → spawn_columns bv →
  (blocks bv ≤ 4 * length bv)%nat.
Proof.
  unfold spawn_columns. induction bv as [|row bv IH]; intros HF Hsc.
  - reflexivity.
  - apply Forall_cons in HF as [Hlen HF]. apply Forall_cons in Hsc as [Hrow Hsc].
    rewrite blocks_cons. cbn [length].
    pose proof (row_count row Hlen Hrow). specialize (IH HF Hsc). lia.
Qed.

Lemma playable_row_bound g :
  playable g → g_mask g ∈ orientations → g_y g + 1 ≤ ROWS.
Proof.
  intros (_ & _ & Hfits & _) Ho.
  destruct (orientations_facts _ Ho) as (_ & Ht & _ & _ & Hh & _).
  destruct (tight_fits_box _ _ _ _ Ht Hfits) as (_ & _ & HY). lia.
Qed.

Lemma rounds_left_pos g : playable g → idle g → 1 ≤ rounds_left g.
Proof.
  intros Hpl (Hmask & _ & Hsc).
  pose proof (playable_row_bound g Hpl (orientations_canonical _ Hmask)) as Hy.
  destruct Hpl as ([Hlen Hall] & _).
  assert (HF : Forall (λ r, Z.of_nat (length r) = COLS) (g_board g)).
  { eapply Forall_impl; [exact Hall|]. by intros r [Hr _]. }
  pose proof (blocks_bound _ HF Hsc) as Hb.
  unfold rounds_left. unfold ROWS in *. lia.
Qed.

(** One round of the timer in the game of an idle player: the piece falls
    one row, or it is placed in the columns 3 to 6, where no row becomes
    full, and the next piece either fits or ends the game. *)
Lemma idle_tick (i : Z) (c : N) g :
  playable g → idle g → draw_ok i c →
  (idle (dropV i c g) ∧ g_events (dropV i c g) = g_events g ∧
   rounds_left (dropV i c g) ≤ rounds_left g - 1) ∨
  (g_events (dropV i c g) = g_events g ++ [Alert gameOverMessage; ScoreText 0] ∧
   g_board (dropV i c g) = emptyBoard ∧ g_score (dropV i c g) = 0).
Proof.
  intros Hpl (Hmask & Hx & Hsc) [Hi _].
  pose proof (playable_row_bound g Hpl (orientations_canonical _ Hmask)) as Hrow.
  destruct Hpl as ([Hlen Hall] & Hy & Hfits & _).
  assert (HF : Forall (λ r, Z.of_nat (length r) = COLS) (g_board g)).
  { eapply Forall_impl; [exact Hall|]. by intros r [Hr _]. }
  unfold dropV. destruct (fits _ _ _ (g_y g + 1)).
  { left. split; [done|]. split; [reflexivity|].
    unfold rounds_left. cbn [g_board g_y]. lia. }
  destruct (placeCellsV_blocks (g_board g) (g_mask g) (g_x g) (g_y g)
              (JStr (g_color g)) HF Hy Hlen Hfits eq_refl) as [Hb1 HF1].
  destruct (orientations_facts _ (orientations_canonical _ Hmask)) as (H4 & _).
  unfold placeV.
  set (b1 := placeCellsV (g_board g) (g_mask g) (g_x g) (g_y g) (JStr (g_color g))) in *.
  assert (Hlen1 : Z.of_nat (length b1) = ROWS).
  { unfold b1. by rewrite placeCellsV_length. }
  assert (Hsc1 : spawn_columns b1).
  { unfold b1 in *. rewrite Hx in *. by apply spawn_columns_place. }
  rewrite (clearLinesV_none b1 Hlen1 HF1 Hsc1). cbn [fst snd].
  destruct (canonical_draw i Hi) as (mask' & -> & Hmask'). cbn [default].
  unfold id. change (0 <? 0) with false. cbn iota. rewrite app_nil_r.
  destruct (fits b1 mask' (spawnX mask') 0).
  - left. split; [done|]. split; [reflexivity|].
    unfold rounds_left. cbn [g_board g_y]. unfold ROWS in *. lia.
  - right. done.
Qed.

Lemma idle_run (n : nat) :
  ∀ s g (draws : list (Z * N)),
    reachable s → view s = Some g → idle g → rounds_left g ≤ Z.of_nat n →
    Forall (λ d, draw_ok d.1 d.2) draws → (n ≤ length draws)%nat →
    ∃ (k : nat) s',
      (1 ≤ k ≤ n)%nat ∧ run (ticks (take k draws)) s = (s', Ok tt) ∧
      events s' = events s ++ [Alert gameOverMessage; ScoreText 0] ∧
      boardView s' = Some emptyBoard ∧ score s' = 0.
Proof.
  induction n as [|n IH]; intros s g draws Hs Hv Hidle Hleft Hdraws Hlen.
  { pose proof (rounds_left_pos g (Inv_playable s g (reachable_Inv s Hs) Hv) Hidle).
    lia. }
  destruct draws as [|d rest]; [cbn [length] in Hlen; lia|].
  apply Forall_cons in Hdraws as [Hd Hrest]. cbn [length] in Hlen.
  pose proof (reachable_Inv s Hs) as HI.
  destruct (handle_view s g (Tick d.1 d.2) HI Hd Hv) as (s1 & E1 & Hv1).
  cbn [handleV] in Hv1.
  assert (Hs1 : reachable s1) by by apply (reach_step s (Tick d.1 d.2) s1 (Ok tt)).
  destruct (view_inv s g Hv) as (_ & _ & _ & _ & _ & _ & Eev).
  destruct (view_inv s1 _ Hv1) as (Hb1 & _ & _ & _ & _ & Esc1 & Eev1).
  destruct (idle_tick d.1 d.2 g (Inv_playable s g HI Hv) Hidle Hd)
    as [(Hidle1 & Hev & Hless) | (Hev & Hboard & Hscore)].
  - destruct (IH s1 _ rest Hs1 Hv1 Hidle1) as (k & s' & Hk & Erun & Hev' & Hb' & Hsc');
      [lia | exact Hrest | lia |].
    exists (S k), s'. split; [lia|]. split.
    { cbn [take ticks fmap list_fmap run]. by rewrite (bindM_ok _ _ _ _ _ E1). }
    split; [|done]. rewrite Hev'. congruence.
  - exists 1%nat, s1. split; [lia|]. split.
    { cbn [take ticks fmap list_fmap run]. by rewrite (bindM_ok _ _ _ _ _ E1). }
    split; [congruence|]. split; [by rewrite Hb1, Hboard | congruence].
Qed.

(** X18.  The timer alone (gameLoop, drop, placePiece, clearLines, gameOver)
    ends the game: when no key is pressed, then for all draws that
    Math.random can produce the pieces come down in the columns 3 to 6, no
    row is ever full, and within 420 rounds of the timer a new piece does
    not fit: gameOver alerts, the board is empty again and the score is 0.
    Until then the script shows no alert and writes no score text. *)
Theorem idle_player_loses (i : Z) (c : N) (draws : list (Z * N)) :
  draw_ok i c → Forall (λ d, draw_ok d.1 d.2) draws →
  (420 ≤ length draws)%nat →
  ∃ (k : nat) s',
    (1 ≤ k ≤ 420)%nat ∧
    run (ticks (take k draws)) (start i c).1 = (s', Ok tt) ∧
    events s' = [Alert gameOverMessage; ScoreText 0] ∧
    boardView s' = Some emptyBoard ∧ score s' = 0.
Proof.
  intros Hdraw Hdraws Hlen.
  destruct (start_view i c Hdraw) as (s0 & E0 & Hv0).
  rewrite E0. cbn [fst].
  assert (Hs0 : reachable s0) by by apply (reach_start i c s0 (Ok tt)).
  destruct (canonical_draw i (proj1 Hdraw)) as (mask & Hcan & Hmask).
  assert (Hidle : idle (startV i c)).
  { unfold idle, startV. cbn [g_mask g_x g_board]. rewrite Hcan. cbn [default].
    split; [exact Hmask|]. split; [reflexivity | exact spawn_columns_empty]. }
  assert (Hleft : rounds_left (startV i c) ≤ Z.of_nat 420).
  { unfold rounds_left, startV. cbn [g_board g_y].
    unfold emptyBoard. rewrite blocks_empties. unfold ROWS. lia. }
  destruct (idle_run 420 s0 _ draws Hs0 Hv0 Hidle Hleft Hdraws Hlen)
    as (k & s' & Hk & Erun & Hev & Hb & Hsc).
  exists k, s'. split; [exact Hk|]. split; [exact Erun|].
  split; [|split; [exact Hb | exact Hsc]].
  destruct (view_inv s0 _ Hv0) as (_ & _ & _ & _ & _ & _ & Eev).
  rewrite Hev, <- Eev. reflexivity.
Qed.

Lemma idle_player_loses_witness :
  let draws := replicate 420 (2, 0xabc%N) in
  draw_ok 2 0xabc%N ∧ Forall (λ d, draw_ok d.1 d.2) draws ∧
  (420 ≤ length draws)%nat ∧
  ∃ (k : nat) s',
    (1 ≤ k ≤ 420)%nat ∧
    run (ticks (take k draws)) (start 2 0xabc%N).1 = (s', Ok tt) ∧
    events s' = [Alert gameOverMessage; ScoreText 0] ∧
    boardView s' = Some emptyBoard ∧ score s' = 0.
Proof.
  intros draws.
  assert (H1 : draw_ok 2 0xabc%N) by decide_by_compute.
  assert (H2 : Forall (λ d, draw_ok d.1 d.2) draws).
  { apply Forall_replicate. exact H1. }
  assert (H3 : (420 ≤ length draws)%nat) by (unfold draws; rewrite length_replicate; lia).
  split; [exact H1|]. split; [exact H2|]. split; [exact H3|].
  exact (idle_player_loses 2 0xabc%N draws H1 H2 H3).
Defined.
